(** * SessionCodeSearch: the project index, the merged symbol search and the
    fuzzy ranker of [src/cpp/session/modules/SessionCodeSearch.cpp].

    The development follows the source file top to bottom:
    - [string_utils]: the string helpers the file calls;
    - [Scoring]: [scoreMatch], [ScorePairComparator], [filterScores];
    - [libstdcxx]: [std::sort] as the standard library runs it;
    - [Index]: [SourceFileIndex] (entry set, event queue, indexing step);
    - [RSourceIndexes]: the indexes of the open documents;
    - [Query]: [searchSourceDatabase], [searchSource], [searchFiles],
      [searchCode], the lookup of a global function, the package names of
      the definition lookup;
    - [Demo]: a concrete session for the examples;
    then the vocabulary of the statements and the theorems, component by
    component.

    Conventions.  [std::size_t] sizes and counts are [nat]; C++ [int] values
    (scores, positions, the merge cap) are [Z].  The arithmetic of the scorer
    on its [int] variables is written with the wrap-around of a 32-bit
    two's complement [int] ([int_wrap]); [scoreMatch_bounds] shows that
    nothing wraps while [|query| * (|suggestion| + 3) + 1] fits an [int].  A
    function whose C++ body can read a vector out of bounds returns [option]:
    [None] is that read. *)

From Stdlib Require Import ZArith Ascii String OrderedTypeEx.
From stdpp Require Import base list strings gmap sorting.

Local Open Scope Z_scope.

(* ===================================================================== *)
(** ** String helpers *)
(* ===================================================================== *)

Module string_utils.

(** [boost::algorithm::to_lower_copy] in the "C" locale: ASCII letters. *)
Definition to_lower_char (c : ascii) : ascii :=
  let n := nat_of_ascii c in
  if ((65 <=? n)%nat && (n <=? 90)%nat)%bool then ascii_of_nat (n + 32) else c.

Definition to_lower_list (s : list ascii) : list ascii := map to_lower_char s.

Definition to_lower_copy (s : string) : string :=
  string_of_list_ascii (to_lower_list (list_ascii_of_string s)).

(** [std::string::find(ch, 0)] on a character list: the first index of [c]. *)
Fixpoint find_char (c : ascii) (s : list ascii) : option nat :=
  match s with
  | [] => None
  | x :: s' => if Ascii.eqb x c then Some 0%nat else S <$> find_char c s'
  end.

(** Modelled from the spec: [string_utils::subsequenceIndices] (core
    StringUtils, not part of the source file).  "Compute the subsequence's
    matched character positions": every query character is looked up at or
    after the position following the previous match, the position found is
    recorded, a character that is not found records nothing.  [off] is the
    index in the whole sequence of the first character of [rest]. *)
Fixpoint subsequenceIndices_from (rest : list ascii) (off : nat)
    (query : list ascii) : list Z :=
  match query with
  | [] => []
  | c :: query' =>
      match find_char c rest with
      | None => subsequenceIndices_from rest off query'
      | Some i =>
          Z.of_nat (off + i)
            :: subsequenceIndices_from (drop (S i) rest) (off + S i) query'
      end
  end.

Definition subsequenceIndices (sequence query : string) : list Z :=
  subsequenceIndices_from (list_ascii_of_string sequence) 0
                          (list_ascii_of_string query).

(** Modelled from the spec: [string_utils::isSubsequence] on character
    lists.  "Every character of the term appears in the candidate in order
    (a subsequence)". *)
Fixpoint isSubsequence_list (self other : list ascii) : bool :=
  match other with
  | [] => true
  | c :: other' =>
      match find_char c self with
      | None => false
      | Some i => isSubsequence_list (drop (S i) self) other'
      end
  end.

(** [isSubsequence(self, other, other_n, caseInsensitive)]: only the first
    [other_n] characters of [other] take part ("only the portion before the
    first ':' participates in matching").  The call with three arguments
    compares case-sensitively. *)
Definition isSubsequence (self other : string) (other_n : nat)
    (caseInsensitive : bool) : bool :=
  let s := list_ascii_of_string self in
  let o := take other_n (list_ascii_of_string other) in
  if caseInsensitive
  then isSubsequence_list (to_lower_list s) (to_lower_list o)
  else isSubsequence_list s o.

(** Index of the last occurrence of [c] ([std::string::rfind]). *)
Fixpoint rfind_char (c : ascii) (s : list ascii) : option nat :=
  match s with
  | [] => None
  | x :: s' =>
      match rfind_char c s' with
      | Some i => Some (S i)
      | None => if Ascii.eqb x c then Some 0%nat else None
      end
  end.

(** Modelled from the spec: [string_utils::getExtension], the text from the
    last '.' on (the "low-value extension" test of the scorer reads it);
    empty when there is no '.'. *)
Definition getExtension (x : string) : string :=
  let l := list_ascii_of_string x in
  match rfind_char "."%char l with
  | Some i => string_of_list_ascii (drop i l)
  | None => ""%string
  end.

(** [term.find(":")], with [npos] replaced by the length as the callers do. *)
Definition queryEnd (term : string) : nat :=
  match find_char ":"%char (list_ascii_of_string term) with
  | Some i => i
  | None => String.length term
  end.

(** [term.find('*') != npos]. *)
Definition hasWildcard (term : string) : bool :=
  bool_decide (is_Some (find_char "*"%char (list_ascii_of_string term))).

End string_utils.

(* ===================================================================== *)
(** ** The fuzzy scorer and the bounded merge *)
(* ===================================================================== *)

Module Scoring.
Import string_utils.

(** [suggestion[i]] for an [int] index; [None] outside the string. *)
Definition char_at (s : string) (i : Z) : option ascii :=
  if i <? 0 then None else String.get (Z.to_nat i) s.

Definition isDelim (isFile : bool) (prevChar : ascii) : bool :=
  (Ascii.eqb prevChar "_" || Ascii.eqb prevChar "-"
   || (negb isFile && Ascii.eqb prevChar "."))%bool.

(** The value an [int] (32 bits, two's complement) holds after an operation
    whose mathematical result is [z]. *)
Definition int_wrap (z : Z) : Z := (z + 2147483648) mod 4294967296 - 2147483648.

(** One turn of the loop body of [scoreMatch] for query index [j]: the
    [matchPos] added to [result], or [None] when [matches[j]] does not
    exist.  [matchPos = j + 1] and [matchPos += 3] are [int] operations. *)
Definition scoreStep (suggestion : string) (isFile : bool)
    (matches : list Z) (j : Z) : option Z :=
  matchPos ← matches !! Z.to_nat j;
  matchPos1 ←
    (if 1 <=? matchPos
     then prevChar ← char_at suggestion (matchPos - 1);
          Some (if isDelim isFile prevChar then int_wrap (j + 1) else matchPos)
     else Some matchPos);
  let extension := getExtension suggestion in
  Some (if String.eqb (to_lower_copy extension) ".rd"
        then int_wrap (matchPos1 + 3) else matchPos1).

(** [for (int j = ...; j < query_n; j++) { ...; result += matchPos; }] with
    [n] turns left; [result] is an [int]. *)
Fixpoint scoreLoop (suggestion : string) (isFile : bool) (matches : list Z)
    (n : nat) (j : Z) (result : Z) : option Z :=
  match n with
  | O => Some result
  | S n' =>
      d ← scoreStep suggestion isFile matches j;
      scoreLoop suggestion isFile matches n' (j + 1) (int_wrap (result + d))
  end.

Definition scoreMatch (suggestion query : string) (isFile : bool) : option Z :=
  if String.eqb suggestion query then Some 0
  else
    let query_n := String.length query in
    let matches := subsequenceIndices (to_lower_copy suggestion)
                                      (to_lower_copy query) in
    result ← scoreLoop suggestion isFile matches query_n 0 0;
    Some (if isFile then int_wrap (result + 1) else result).

(** A scored candidate: [std::pair<int,int>] of (index into the candidate
    vector, score). *)
Abbreviation ScorePair := (Z * Z)%type.

Definition ScorePairComparator (lhs rhs : ScorePair) : bool :=
  lhs.2 <? rhs.2.

(** Ascending order of the scores: [b] is not ordered before [a]. *)
Definition score_le (a b : ScorePair) : Prop := a.2 ≤ b.2.

#[global] Instance score_le_dec : RelDecision score_le.
Proof. intros a b. unfold score_le. apply _. Defined.

(** The [for (int i = 0; i < maxAmount; ++i)] loop of [filterScores] with
    [n] turns left.  Both vector reads are guarded by the two tests before
    them, so the default of [nth] is never returned. *)
Fixpoint filterScores_loop (pScore1 pScore2 : list ScorePair) (n : nat)
    (s1Count s2Count : nat) : nat * nat :=
  match n with
  | O => (s1Count, s2Count)
  | S n' =>
      let s1_n := length pScore1 in
      let s2_n := length pScore2 in
      if Nat.eqb s1Count s1_n then
        filterScores_loop pScore1 pScore2 n' s1Count
          (if Nat.ltb s2Count s2_n then S s2Count else s2Count)
      else if Nat.eqb s2Count s2_n then
        filterScores_loop pScore1 pScore2 n'
          (if Nat.ltb s1Count s1_n then S s1Count else s1Count) s2Count
      else if (nth s1Count pScore1 (0, 0)).2 <=? (nth s2Count pScore2 (0, 0)).2
      then filterScores_loop pScore1 pScore2 n' (S s1Count) s2Count
      else filterScores_loop pScore1 pScore2 n' s1Count (S s2Count)
  end.

(** [filterScores]: the two vectors after [resize(s1Count)], [resize(s2Count)]. *)
Definition filterScores (pScore1 pScore2 : list ScorePair) (maxAmount : Z)
    : list ScorePair * list ScorePair :=
  let '(s1Count, s2Count) :=
    filterScores_loop pScore1 pScore2 (Z.to_nat maxAmount) 0 0 in
  (take s1Count pScore1, take s2Count pScore2).

End Scoring.

(* ===================================================================== *)
(** ** [std::sort] *)
(* ===================================================================== *)

(** [std::sort] of libstdc++ (bits/stl_algo.h and bits/stl_heap.h of GCC 12),
    the standard library the session is built against on Linux; it is not
    part of the source file.  Introsort: median-of-three partitioning while a
    range has more than 16 elements, heapsort once the depth limit
    [2 * lg n] is used up, and a closing insertion sort.  The vector is a
    list, an iterator a position in it; [None] is a read or write outside the
    vector. *)
Module libstdcxx.
Section Sort.
Context {A : Type} (comp : A → A → bool).

(** [*it = x] for an iterator [it] inside the vector. *)
Definition store (it : nat) (x : A) (v : list A) : option (list A) :=
  if (it <? length v)%nat then Some (<[it := x]> v) else None.

(** [__comp(a, b)] on two iterators. *)
Definition comp_iter (v : list A) (a b : nat) : option bool :=
  x ← v !! a; y ← v !! b; Some (comp x y).

Definition iter_swap (a b : nat) (v : list A) : option (list A) :=
  x ← v !! a; y ← v !! b; v1 ← store a y v; store b x v1.

Definition move_median_to_first (result a b c : nat) (v : list A)
    : option (list A) :=
  ab ← comp_iter v a b;
  if ab : bool then
    bc ← comp_iter v b c;
    if bc : bool then iter_swap result b v
    else ac ← comp_iter v a c;
         if ac : bool then iter_swap result c v else iter_swap result a v
  else
    ac ← comp_iter v a c;
    if ac : bool then iter_swap result a v
    else bc ← comp_iter v b c;
         if bc : bool then iter_swap result c v else iter_swap result b v.

(** The loop of [__unguarded_linear_insert]: [val] travels down from [last]
    while it is ordered before its predecessor. *)
Fixpoint unguarded_linear_insert_from (val : A) (last : nat) (v : list A)
    : option (list A) :=
  match last with
  | O => None
  | S next =>
      x ← v !! next;
      if comp val x then
        v1 ← store (S next) x v;
        unguarded_linear_insert_from val next v1
      else store (S next) val v
  end.

Definition unguarded_linear_insert (last : nat) (v : list A) : option (list A) :=
  val ← v !! last; unguarded_linear_insert_from val last v.

(** [__insertion_sort]: the [for] loop with [n] turns left, [i] the current
    iterator. *)
Fixpoint insertion_sort_loop (n first i : nat) (v : list A) : option (list A) :=
  match n with
  | O => Some v
  | S n' =>
      c ← comp_iter v i first;
      v1 ← (if c : bool then
              val ← v !! i;
              Some (take first v ++ val :: take (i - first) (drop first v)
                    ++ drop (S i) v)
            else unguarded_linear_insert i v);
      insertion_sort_loop n' first (S i) v1
  end.

Definition insertion_sort (first last : nat) (v : list A) : option (list A) :=
  if (first =? last)%nat then Some v
  else insertion_sort_loop (last - (first + 1)) first (first + 1) v.

Fixpoint unguarded_insertion_sort_loop (n i : nat) (v : list A)
    : option (list A) :=
  match n with
  | O => Some v
  | S n' =>
      v1 ← unguarded_linear_insert i v;
      unguarded_insertion_sort_loop n' (S i) v1
  end.

Definition unguarded_insertion_sort (first last : nat) (v : list A)
    : option (list A) :=
  unguarded_insertion_sort_loop (last - first) first v.

Definition _S_threshold : nat := 16.

Definition final_insertion_sort (first last : nat) (v : list A)
    : option (list A) :=
  if (_S_threshold <? last - first)%nat then
    v1 ← insertion_sort first (first + _S_threshold) v;
    unguarded_insertion_sort (first + _S_threshold) last v1
  else insertion_sort first last v.

(** [while (__comp(__first, __pivot)) ++__first;] *)
Fixpoint skip_forward (fuel : nat) (v : list A) (first pivot : nat)
    : option nat :=
  match fuel with
  | O => None
  | S fuel' =>
      c ← comp_iter v first pivot;
      if c : bool then skip_forward fuel' v (S first) pivot else Some first
  end.

(** [while (__comp(__pivot, __last)) --__last;] *)
Fixpoint skip_backward (fuel : nat) (v : list A) (pivot last : nat)
    : option nat :=
  match fuel with
  | O => None
  | S fuel' =>
      c ← comp_iter v pivot last;
      if c : bool then
        match last with
        | O => None
        | S last' => skip_backward fuel' v pivot last'
        end
      else Some last
  end.

(** [__unguarded_partition]: the cut and the vector. *)
Fixpoint unguarded_partition (fuel : nat) (first last pivot : nat) (v : list A)
    : option (nat * list A) :=
  match fuel with
  | O => None
  | S fuel' =>
      first1 ← skip_forward (S (length v)) v first pivot;
      match last with
      | O => None
      | S last1 =>
          last2 ← skip_backward (S (length v)) v pivot last1;
          if negb (first1 <? last2)%nat then Some (first1, v)
          else
            v1 ← iter_swap first1 last2 v;
            unguarded_partition fuel' (S first1) last2 pivot v1
      end
  end.

Definition unguarded_partition_pivot (first last : nat) (v : list A)
    : option (nat * list A) :=
  let mid := (first + (last - first) / 2)%nat in
  v1 ← move_median_to_first first (first + 1) mid (last - 1) v;
  unguarded_partition (S (length v)) (first + 1) last first v1.

(** [__push_heap]; [holeIndex] strictly decreases. *)
Fixpoint push_heap (fuel : nat) (first holeIndex topIndex : nat) (value : A)
    (v : list A) : option (list A) :=
  let parent := ((holeIndex - 1) / 2)%nat in
  if (topIndex <? holeIndex)%nat then
    p ← v !! (first + parent)%nat;
    if comp p value then
      match fuel with
      | O => None
      | S fuel' =>
          v1 ← store (first + holeIndex) p v;
          push_heap fuel' first parent topIndex value v1
      end
    else store (first + holeIndex) value v
  else store (first + holeIndex) value v.

(** The [while] loop of [__adjust_heap]: the hole and [secondChild] after
    it, and the vector. *)
Fixpoint adjust_heap_loop (fuel : nat) (first holeIndex secondChild len : nat)
    (v : list A) : option (nat * nat * list A) :=
  if Z.of_nat secondChild <? Z.quot (Z.of_nat len - 1) 2 then
    match fuel with
    | O => None
    | S fuel' =>
        let secondChild1 := (2 * (secondChild + 1))%nat in
        c ← comp_iter v (first + secondChild1) (first + (secondChild1 - 1));
        let secondChild2 := if c : bool then (secondChild1 - 1)%nat
                            else secondChild1 in
        x ← v !! (first + secondChild2)%nat;
        v1 ← store (first + holeIndex) x v;
        adjust_heap_loop fuel' first secondChild2 secondChild2 len v1
    end
  else Some (holeIndex, secondChild, v).

Definition adjust_heap (first holeIndex len : nat) (value : A) (v : list A)
    : option (list A) :=
  let topIndex := holeIndex in
  '(holeIndex1, secondChild, v1) ←
     adjust_heap_loop (S len) first holeIndex holeIndex len v;
  '(holeIndex2, v2) ←
     (if Nat.even len
         && (Z.of_nat secondChild =? Z.quot (Z.of_nat len - 2) 2)
      then
        let secondChild1 := (2 * (secondChild + 1))%nat in
        x ← v1 !! (first + (secondChild1 - 1))%nat;
        v2 ← store (first + holeIndex1) x v1;
        Some ((secondChild1 - 1)%nat, v2)
      else Some (holeIndex1, v1));
  push_heap (S len) first holeIndex2 topIndex value v2.

Definition pop_heap (first last result : nat) (v : list A) : option (list A) :=
  value ← v !! result;
  x ← v !! first;
  v1 ← store result x v;
  adjust_heap first 0 (last - first) value v1.

(** The [while (true)] loop of [__make_heap], from [parent] down to 0. *)
Fixpoint make_heap_from (first len parent : nat) (v : list A)
    : option (list A) :=
  value ← v !! (first + parent)%nat;
  v1 ← adjust_heap first parent len value v;
  match parent with
  | O => Some v1
  | S parent' => make_heap_from first len parent' v1
  end.

Definition make_heap (first last : nat) (v : list A) : option (list A) :=
  if (last - first <? 2)%nat then Some v
  else
    let len := (last - first)%nat in
    make_heap_from first len ((len - 2) / 2)%nat v.

(** [__sort_heap]: [n] is [last - first]. *)
Fixpoint sort_heap_loop (n first : nat) (v : list A) : option (list A) :=
  match n with
  | O => Some v
  | S n' =>
      if (1 <? S n')%nat then
        v1 ← pop_heap first (first + n') (first + n') v;
        sort_heap_loop n' first v1
      else Some v
  end.

Definition sort_heap (first last : nat) (v : list A) : option (list A) :=
  sort_heap_loop (last - first) first v.

(** The [for] loop of [__heap_select], [n] turns left. *)
Fixpoint heap_select_loop (n first middle i : nat) (v : list A)
    : option (list A) :=
  match n with
  | O => Some v
  | S n' =>
      c ← comp_iter v i first;
      v1 ← (if c : bool then pop_heap first middle i v else Some v);
      heap_select_loop n' first middle (S i) v1
  end.

Definition heap_select (first middle last : nat) (v : list A)
    : option (list A) :=
  v1 ← make_heap first middle v;
  heap_select_loop (last - middle) first middle middle v1.

Definition partial_sort (first middle last : nat) (v : list A)
    : option (list A) :=
  v1 ← heap_select first middle last v;
  sort_heap first middle v1.

(** [__introsort_loop]: each turn of the [while] loop shortens the range. *)
Fixpoint introsort_loop (fuel : nat) (first last depth_limit : nat)
    (v : list A) : option (list A) :=
  match fuel with
  | O => None
  | S fuel' =>
      if (_S_threshold <? last - first)%nat then
        match depth_limit with
        | O => partial_sort first last last v
        | S depth_limit' =>
            '(cut, v1) ← unguarded_partition_pivot first last v;
            v2 ← introsort_loop fuel' cut last depth_limit' v1;
            introsort_loop fuel' first cut depth_limit' v2
        end
      else Some v
  end.

(** [std::__lg]: the position of the highest bit. *)
Definition __lg (n : nat) : nat := Nat.log2 n.

(** [std::sort(v.begin(), v.end(), comp)]. *)
Definition sort (v : list A) : option (list A) :=
  let first := 0%nat in
  let last := length v in
  if (first =? last)%nat then Some v
  else
    v1 ← introsort_loop (S (length v)) first last (__lg (last - first) * 2) v;
    final_insertion_sort first last v1.

End Sort.
End libstdcxx.

(* ===================================================================== *)
(** ** Data of the index *)
(* ===================================================================== *)

(** [core::FileInfo]: a path and its metadata.  The index reads only the path. *)
Record FileInfo := mkFileInfo {
  absolutePath : string;
  fi_isDirectory : bool;
  fi_size : Z;
  fi_lastWriteTime : Z
}.

Inductive FileChangeType := FileNone | FileAdded | FileModified | FileRemoved.

Record FileChangeEvent := mkEvent {
  ev_type : FileChangeType;
  ev_fileInfo : FileInfo
}.

Inductive RItemType := RNone | RFunction | RMethod | RClass.

(** [r_util::RSourceItem]. *)
Record RSourceItem := mkRItem {
  ri_type : RItemType;
  ri_name : string;
  ri_signature : list string;
  ri_braceLevel : Z;
  ri_line : Z;
  ri_column : Z;
  ri_context : string
}.

Definition withContext (ctx : string) (it : RSourceItem) : RSourceItem :=
  mkRItem (ri_type it) (ri_name it) (ri_signature it) (ri_braceLevel it)
          (ri_line it) (ri_column it) ctx.

(** [r_util::RSourceIndex]: the items parsed from one file or document, and
    the context (aliased path) they belong to. *)
Record RSourceIndex := mkRIndex {
  context : string;
  items : list RSourceItem
}.

(** [core::Error], as far as the index looks at it. *)
Record Error := mkError {
  err_isPathNotFound : bool;
  err_message : string;
  err_properties : list (string * string)
}.

Inductive ReadResult := ReadOk (code : string) | ReadFailed (error : Error).

Inductive CppDefinitionKind :=
  CppInvalidDefinition | CppNamespaceDefinition | CppClassDefinition
| CppStructDefinition | CppEnumDefinition | CppFunctionDefinition
| CppMemberFunctionDefinition.

Record CppDefinition := mkCppDef {
  cpp_kind : CppDefinitionKind;
  cpp_name : string;
  cpp_filePath : string;
  cpp_line : Z;
  cpp_column : Z
}.

(** What the file takes from the rest of the session: [FilePath] queries,
    [module_context], [projects::projectContext()], the R parser behind the
    [RSourceIndex] constructor, its term matcher, the wildcard matcher of
    [regex_utils] and the C++ definition index.  None of these is defined in
    the source file; every theorem holds for each of them. *)
Record Host := mkHost {
  fp_filename : string → string;
  fp_extensionLowerCase : string → string;
  fp_isDirectory : string → bool;
  fp_hasTextMimeType : string → bool;
  isUserFile : string → bool;
  createAliasedPath : string → string;
  resolveAliasedPath : string → string;
  hasProject : bool;
  isWithinProjectDirectory : string → bool;
  hasFileMonitor : bool;
  parseR : string → list RSourceItem;
  itemMatches : string → bool → bool → RSourceItem → bool;
  textMatches : string → string → bool → bool → bool;
  searchDefinitions : string → list CppDefinition
}.

(** Modelled from the spec: [r_util::RSourceIndex] (core r_util, not part of
    the source file).  "SourceItem: originContext (owning file/document
    identity)": an index holds its context and the items parsed from the
    text, and every item a search returns carries the context of its index.

    [RSourceIndex(context, code)]. *)
Definition newRSourceIndex (h : Host) (ctx code : string) : RSourceIndex :=
  mkRIndex ctx (parseR h code).

(** [pIndex->search(term, prefixOnly, caseSensitive, out)]: the matching items,
    in file order, each stamped with the context of its index. *)
Definition rsearch (h : Host) (idx : RSourceIndex) (term : string)
    (prefixOnly caseSensitive : bool) : list RSourceItem :=
  withContext (context idx)
    <$> filter (λ it, itemMatches h term prefixOnly caseSensitive it = true)
               (items idx).

(** [isGlobalFunctionNamed]: a function or method at brace level 0 with
    exactly this name. *)
Definition isGlobalFunctionNamed (sourceItem : RSourceItem) (name : string) : bool :=
  (ri_braceLevel sourceItem =? 0)%Z
  && match ri_type sourceItem with
     | RFunction | RMethod => true
     | RNone | RClass => false
     end
  && String.eqb (ri_name sourceItem) name.

(** Modelled from the spec: [pIndex->search(predicate, out)], the search by
    predicate of [r_util::RSourceIndex] (core r_util, not part of the source
    file).  "Find the first top-level function/method item with an exact name
    match ... first match wins": the items that satisfy the predicate, in
    file order, each stamped with the context of its index, as [rsearch]. *)
Definition rsearch_if (idx : RSourceIndex) (predicate : RSourceItem → bool)
    : list RSourceItem :=
  withContext (context idx) <$> filter (λ it, predicate it = true) (items idx).

(** [source_database::SourceDocument], as far as the indexes read it. *)
Record SourceDocument := mkDoc {
  doc_id : string;
  doc_path : string;
  doc_contents : string
}.

(* ===================================================================== *)
(** ** SourceFileIndex *)
(* ===================================================================== *)

Module Index.
Import string_utils.

(** [SourceFileIndex::Entry]; [pIndex] is the shared pointer, [None] when
    it is null. *)
Record Entry := mkEntry {
  fileInfo : FileInfo;
  pIndex : option RSourceIndex
}.

Definition hasIndex (e : Entry) : bool := bool_decide (is_Some (pIndex e)).

(** Modelled from the spec: [core::fileInfoPathLessThan] (core FileInfo,
    not part of the source file): "entries are kept in a set ordered by
    file identity", the order of the paths. *)
Definition fileInfoPathLessThan (a b : FileInfo) : bool :=
  String.ltb (absolutePath a) (absolutePath b).

(** [Entry::operator<]. *)
Definition entry_lt (a b : Entry) : bool :=
  fileInfoPathLessThan (fileInfo a) (fileInfo b).

(** *** [std::set<Entry>] as the list of its elements in iteration order.
    An iterator is a position in that list. *)

(** [set.insert(e)]: the set afterwards, the position of [e] or of the
    element that blocked it, and whether [e] went in. *)
Fixpoint set_insert (e : Entry) (s : list Entry) : list Entry * nat * bool :=
  match s with
  | [] => ([e], 0%nat, true)
  | x :: s' =>
      if entry_lt e x then (e :: x :: s', 0%nat, true)
      else if entry_lt x e then
        let '(r, i, b) := set_insert e s' in (x :: r, S i, b)
      else (x :: s', 0%nat, false)
  end.

(** [set.insert(hint, e)]: the hint changes the cost, not the result. *)
Definition set_insert_hint (hint : nat) (e : Entry) (s : list Entry)
    : list Entry :=
  (set_insert e s).1.1.

(** [set.erase(it)]. *)
Definition set_erase (it : nat) (s : list Entry) : list Entry := delete it s.

(** [set.find(e)]: the position of the element equivalent to [e]. *)
Fixpoint set_find (e : Entry) (s : list Entry) : option nat :=
  match s with
  | [] => None
  | x :: s' =>
      if entry_lt e x then None
      else if entry_lt x e then S <$> set_find e s'
      else Some 0%nat
  end.

Record SourceFileIndex := mkIndex {
  entries_ : list Entry;
  indexing_ : bool;
  indexingQueue_ : list FileChangeEvent
}.

(** The constructor: nothing indexed, nothing queued. *)
Definition empty_index : SourceFileIndex := mkIndex [] false [].

Definition isSourceFile (h : Host) (fi : FileInfo) : bool :=
  let filePath := absolutePath fi in
  if negb (isUserFile h filePath) then false
  else
    let ext := fp_extensionLowerCase h filePath in
    let filename := fp_filename h filePath in
    negb (fp_isDirectory h filePath)
    && (String.eqb ext ".r" || String.eqb ext ".rnw"
        || String.eqb ext ".rmd" || String.eqb ext ".rmarkdown"
        || String.eqb ext ".rhtml" || String.eqb ext ".rd"
        || String.eqb ext ".h" || String.eqb ext ".hpp"
        || String.eqb ext ".c" || String.eqb ext ".cpp"
        || String.eqb ext ".json"
        || String.eqb filename "DESCRIPTION"
        || String.eqb filename "NAMESPACE"
        || String.eqb filename "README"
        || String.eqb filename "NEWS"
        || String.eqb filename "Makefile"
        || String.eqb filename "configure"
        || String.eqb filename "cleanup"
        || String.eqb filename "Makevars"
        || fp_hasTextMimeType h filePath).

Definition isIndexableSourceFile (h : Host) (fi : FileInfo) : bool :=
  let filePath := absolutePath fi in
  negb (fp_isDirectory h filePath)
  && String.eqb (fp_extensionLowerCase h filePath) ".r".

(** [enqueFiles(begin, end)]: an Added event per source file; the flag is
    raised (and the 200ms/20ms work scheduled) when there is work and none
    is scheduled yet. *)
Definition enqueFiles (h : Host) (files : list FileInfo)
    (ix : SourceFileIndex) : SourceFileIndex :=
  let q := indexingQueue_ ix
           ++ (mkEvent FileAdded <$> filter (λ f, isSourceFile h f = true) files) in
  if negb (bool_decide (q = [])) && negb (indexing_ ix)
  then mkIndex (entries_ ix) true q
  else mkIndex (entries_ ix) (indexing_ ix) q.

(** [enqueFileChange(event)]. *)
Definition enqueFileChange (h : Host) (event : FileChangeEvent)
    (ix : SourceFileIndex) : SourceFileIndex :=
  if negb (isSourceFile h (ev_fileInfo event)) then ix
  else
    let q := indexingQueue_ ix ++ [event] in
    if negb (indexing_ ix)
    then mkIndex (entries_ ix) true q
    else mkIndex (entries_ ix) (indexing_ ix) q.

(** [clear()]. *)
Definition clear (ix : SourceFileIndex) : SourceFileIndex :=
  mkIndex [] false [].

(** The tail of [updateIndexEntry]: insert, and on a blocked insert erase
    the blocking element and insert again (with a hint unless it was the
    first element). *)
Definition replaceEntry (entry : Entry) (s : list Entry) : list Entry :=
  let '(s1, first, second) := set_insert entry s in
  if second then s1
  else if Nat.eqb first 0 then (set_insert entry (set_erase first s1)).1.1
  else
    let hintIter := Nat.pred first in
    set_insert_hint hintIter entry (set_erase first s1).

(** [updateIndexEntry(fileInfo)] against one answer [read] of
    [module_context::readAndDecodeFile]: the entries afterwards and the
    errors passed to [LOG_ERROR]. *)
Definition updateIndexEntry (h : Host) (read : string → ReadResult)
    (fi : FileInfo) (s : list Entry) : list Entry * list Error :=
  if isIndexableSourceFile h fi then
    let filePath := absolutePath fi in
    match read filePath with
    | ReadFailed error =>
        if negb (err_isPathNotFound error)
        then (s, [mkError (err_isPathNotFound error) (err_message error)
                          (err_properties error ++ [("src-file"%string, filePath)])])
        else (s, [])
    | ReadOk code =>
        let ctx := createAliasedPath h filePath in
        (replaceEntry (mkEntry fi (Some (newRSourceIndex h ctx code))) s, [])
    end
  else (replaceEntry (mkEntry fi None) s, []).

(** [removeIndexEntry(fileInfo)]. *)
Definition removeIndexEntry (fi : FileInfo) (s : list Entry) : list Entry :=
  match set_find (mkEntry fi None) s with
  | Some it => set_erase it s
  | None => s
  end.

(** The [switch (event.type())] of [dequeAndIndex]: the entries after the
    change was processed, and what was logged. *)
Definition processChange (h : Host) (read : string → ReadResult)
    (event : FileChangeEvent) (s : list Entry) : list Entry * list Error :=
  match ev_type event with
  | FileAdded | FileModified => updateIndexEntry h read (ev_fileInfo event) s
  | FileRemoved => (removeIndexEntry (ev_fileInfo event) s, [])
  | FileNone => (s, [])
  end.

(** [dequeAndIndex()]: one background step.  Returns the index afterwards,
    what was logged, and the status handed back to the scheduler (whether
    more work remains). *)
Definition dequeAndIndex (h : Host) (read : string → ReadResult)
    (ix : SourceFileIndex) : SourceFileIndex * list Error * bool :=
  match indexingQueue_ ix with
  | event :: q =>
      let processed := processChange h read event (entries_ ix) in
      let more := negb (bool_decide (q = [])) in
      (mkIndex processed.1 more q, processed.2, more)
  | [] => (mkIndex (entries_ ix) false [], [], false)
  end.

(** The scheduler of [scheduleIncrementalWork]: call the step again while it
    answers that work remains.  [reads k] is what the file system answers
    during step [k]; [fuel] bounds the number of steps. *)
Fixpoint drain (h : Host) (reads : nat → string → ReadResult) (k fuel : nat)
    (ix : SourceFileIndex) : option (SourceFileIndex * list Error) :=
  match fuel with
  | O => None
  | S fuel' =>
      let '(ix1, logged, more) := dequeAndIndex h (reads k) ix in
      if more then
        '(ix2, logged2) ← drain h reads (S k) fuel' ix1;
        Some (ix2, logged ++ logged2)
      else Some (ix1, logged)
  end.

(** [n] steps in a row, whatever they answer. *)
Fixpoint steps (h : Host) (reads : nat → string → ReadResult) (k n : nat)
    (ix : SourceFileIndex) : SourceFileIndex :=
  match n with
  | O => ix
  | S n' => steps h reads (S k) n' (dequeAndIndex h (reads k) ix).1.1
  end.

(** The entries stored for the path of [fi]. *)
Definition entriesFor (fi : FileInfo) (s : list Entry) : list Entry :=
  filter (λ e, absolutePath (fileInfo e) = absolutePath fi) s.

(** [SourceFileIndex::searchSource]: the loop over the entries, [pItems]
    being what was collected so far. *)
Fixpoint searchSource_loop (h : Host) (term : string) (maxResults : nat)
    (prefixOnly : bool) (excludeContexts : gset string) (s : list Entry)
    (pItems : list RSourceItem) : list RSourceItem :=
  match s with
  | [] => pItems
  | entry :: s' =>
      match pIndex entry with
      | None =>
          searchSource_loop h term maxResults prefixOnly excludeContexts s' pItems
      | Some idx =>
          if bool_decide (context idx ∈ excludeContexts) then
            searchSource_loop h term maxResults prefixOnly excludeContexts s' pItems
          else
            let pItems1 := pItems ++ rsearch h idx term prefixOnly false in
            if (maxResults <=? length pItems1)%nat
            then take maxResults pItems1
            else searchSource_loop h term maxResults prefixOnly
                                   excludeContexts s' pItems1
      end
  end.

Definition searchSource (h : Host) (ix : SourceFileIndex) (term : string)
    (maxResults : nat) (prefixOnly : bool) (excludeContexts : gset string)
    (pItems : list RSourceItem) : list RSourceItem :=
  searchSource_loop h term maxResults prefixOnly excludeContexts
                    (entries_ ix) pItems.

(** [enforceMaxResults]: the two vectors, the flag, and the return value. *)
Definition enforceMaxResults (maxResults : nat) (pNames pPaths : list string)
    (pMoreAvailable : bool) : list string * list string * bool * bool :=
  if (maxResults <? length pNames)%nat
  then (take maxResults pNames, take maxResults pPaths, true, true)
  else (pNames, pPaths, pMoreAvailable, false).

(** The match test of [searchFiles] for one file name. *)
Definition fileMatches (h : Host) (term : string) (prefixOnly : bool)
    (name : string) : bool :=
  if hasWildcard term then textMatches h name term prefixOnly false
  else if prefixOnly
  then String.prefix (to_lower_copy term) (to_lower_copy name)
  else isSubsequence name term (queryEnd term) true.

Fixpoint searchFiles_loop (h : Host) (term : string) (maxResults : nat)
    (prefixOnly : bool) (s : list Entry) (pNames pPaths : list string)
    (pMoreAvailable : bool) : list string * list string * bool :=
  match s with
  | [] => (pNames, pPaths, pMoreAvailable)
  | entry :: s' =>
      let filePath := absolutePath (fileInfo entry) in
      let name := fp_filename h filePath in
      if fileMatches h term prefixOnly name then
        let '(names, paths, more, stop) :=
          enforceMaxResults maxResults (pNames ++ [fp_filename h filePath])
                            (pPaths ++ [createAliasedPath h filePath])
                            pMoreAvailable in
        if stop then (names, paths, more)
        else searchFiles_loop h term maxResults prefixOnly s' names paths more
      else searchFiles_loop h term maxResults prefixOnly s' pNames pPaths
                            pMoreAvailable
  end.

(** [SourceFileIndex::searchFiles]; [*pMoreAvailable] starts at false. *)
Definition searchFiles (h : Host) (ix : SourceFileIndex) (term : string)
    (maxResults : nat) (prefixOnly : bool) (pNames pPaths : list string)
    : list string * list string * bool :=
  searchFiles_loop h term maxResults prefixOnly (entries_ ix)
                   pNames pPaths false.

(** [SourceFileIndex::findGlobalFunction]: [Some] item for a return of true
    (the item written to [*pFunctionItem]), [None] for false. *)
Fixpoint findGlobalFunction_loop (functionName : string)
    (excludeContexts : gset string) (s : list Entry) : option RSourceItem :=
  match s with
  | [] => None
  | entry :: s' =>
      match pIndex entry with
      | None => findGlobalFunction_loop functionName excludeContexts s'
      | Some idx =>
          if bool_decide (context idx ∈ excludeContexts) then
            findGlobalFunction_loop functionName excludeContexts s'
          else
            match rsearch_if idx (λ it, isGlobalFunctionNamed it functionName) with
            | sourceItem :: _ => Some sourceItem
            | [] => findGlobalFunction_loop functionName excludeContexts s'
            end
      end
  end.

Definition findGlobalFunction (ix : SourceFileIndex) (functionName : string)
    (excludeContexts : gset string) : option RSourceItem :=
  findGlobalFunction_loop functionName excludeContexts (entries_ ix).

End Index.

(* ===================================================================== *)
(** ** RSourceIndexes: the indexes of the open documents *)
(* ===================================================================== *)

Module RSourceIndexes.

(** The order of [std::map<std::string, ...>]: by document id. *)
Definition id_le (a b : string * RSourceIndex) : Prop :=
  String.leb a.1 b.1 = true.

#[global] Instance id_le_dec : RelDecision id_le.
Proof. intros a b. unfold id_le. apply _. Defined.

(** [update(pDoc)]: documents without a path or with an extension other than
    ".r" are passed over; otherwise [indexes_[pDoc->id()] = pIndex]. *)
Definition update (h : Host) (pDoc : SourceDocument)
    (indexes_ : gmap string RSourceIndex) : gmap string RSourceIndex :=
  if String.eqb (doc_path pDoc) ""
     || negb (String.eqb (fp_extensionLowerCase h (doc_path pDoc)) ".r")
  then indexes_
  else <[doc_id pDoc := newRSourceIndex h (doc_path pDoc) (doc_contents pDoc)]>
         indexes_.

(** [remove(id)]. *)
Definition remove (id : string) (indexes_ : gmap string RSourceIndex)
    : gmap string RSourceIndex :=
  delete id indexes_.

(** [removeAll()]. *)
Definition removeAll (indexes_ : gmap string RSourceIndex)
    : gmap string RSourceIndex := ∅.

(** [indexes()]: the indexes in the iteration order of the map. *)
Definition indexes (indexes_ : gmap string RSourceIndex) : list RSourceIndex :=
  snd <$> merge_sort id_le (map_to_list indexes_).

End RSourceIndexes.

(* ===================================================================== *)
(** ** The query side: live documents, merged search, [searchCode] *)
(* ===================================================================== *)

Module Query.
Import string_utils Scoring.

(** [sourceDatabaseFilter]: with a project active, only documents inside it. *)
Definition sourceDatabaseFilter (h : Host) (index : RSourceIndex) : bool :=
  if hasProject h
  then isWithinProjectDirectory h (resolveAliasedPath h (context index))
  else true.

(** [searchSourceDatabase] over [indexes], the snapshot returned by
    [rSourceIndex().indexes()]: the items collected and the contexts
    recorded in [*pContextsSearched]. *)
Fixpoint searchSourceDatabase (h : Host) (indexes : list RSourceIndex)
    (term : string) (maxResults : nat) (prefixOnly : bool)
    (pItems : list RSourceItem) (pContextsSearched : gset string)
    : list RSourceItem * gset string :=
  match indexes with
  | [] => (pItems, pContextsSearched)
  | idx :: rest =>
      if negb (sourceDatabaseFilter h idx) then
        searchSourceDatabase h rest term maxResults prefixOnly pItems
                             pContextsSearched
      else
        let ctxs := {[context idx]} ∪ pContextsSearched in
        let pItems1 := pItems ++ rsearch h idx term prefixOnly false in
        if (maxResults <=? length pItems1)%nat
        then (take maxResults pItems1, ctxs)
        else searchSourceDatabase h rest term maxResults prefixOnly pItems1 ctxs
  end.

(** The closing loop of [searchSource]: push the project items one by one,
    stop and flag when the vector grows past [maxResults]. *)
Fixpoint addProjectItems (maxResults : nat) (projItems pItems : list RSourceItem)
    (pMoreAvailable : bool) : list RSourceItem * bool :=
  match projItems with
  | [] => (pItems, pMoreAvailable)
  | sourceItem :: rest =>
      let pItems1 := pItems ++ [sourceItem] in
      if (maxResults <? length pItems1)%nat
      then (take maxResults pItems1, true)
      else addProjectItems maxResults rest pItems1 pMoreAvailable
  end.

(** The three values [searchSource] computes on the way: what the source
    database gave, the contexts it recorded, what the project index gave. *)
Definition searchSource_passes (h : Host) (indexes : list RSourceIndex)
    (ix : Index.SourceFileIndex) (term : string) (maxResults : nat)
    (prefixOnly : bool) (pItems : list RSourceItem)
    : list RSourceItem * gset string * list RSourceItem :=
  let '(dbItems, srcDBContexts) :=
    searchSourceDatabase h indexes term maxResults prefixOnly pItems ∅ in
  let maxProjResults := (maxResults - length dbItems)%nat in
  (dbItems, srcDBContexts,
   Index.searchSource h ix term maxProjResults prefixOnly srcDBContexts []).

(** [searchSource(term, maxResults, prefixOnly, pItems, pMoreAvailable)]. *)
Definition searchSource (h : Host) (indexes : list RSourceIndex)
    (ix : Index.SourceFileIndex) (term : string) (maxResults : nat)
    (prefixOnly : bool) (pItems : list RSourceItem)
    : list RSourceItem * bool :=
  let '(dbItems, srcDBContexts) :=
    searchSourceDatabase h indexes term maxResults prefixOnly pItems ∅ in
  if (maxResults <? length dbItems)%nat
  then (take maxResults dbItems, true)
  else
    let maxProjResults := (maxResults - length dbItems)%nat in
    let projItems :=
      Index.searchSource h ix term maxProjResults prefixOnly srcDBContexts [] in
    addProjectItems maxResults projItems dbItems false.

(** [searchSourceDatabaseFiles]. *)
Fixpoint searchSourceDatabaseFiles_loop (h : Host) (indexes : list RSourceIndex)
    (term : string) (maxResults : nat) (pNames pPaths : list string)
    (pMoreAvailable : bool) : list string * list string * bool :=
  match indexes with
  | [] => (pNames, pPaths, pMoreAvailable)
  | idx :: rest =>
      let ctx := context idx in
      if String.eqb ctx "" then
        searchSourceDatabaseFiles_loop h rest term maxResults pNames pPaths
                                       pMoreAvailable
      else
        let filename := fp_filename h (resolveAliasedPath h ctx) in
        let matches :=
          if hasWildcard term then textMatches h filename term true false
          else isSubsequence filename term (queryEnd term) false in
        if matches then
          let '(names, paths, more, stop) :=
            Index.enforceMaxResults maxResults (pNames ++ [filename])
                                    (pPaths ++ [ctx]) pMoreAvailable in
          if stop then (names, paths, more)
          else searchSourceDatabaseFiles_loop h rest term maxResults
                                              names paths more
        else searchSourceDatabaseFiles_loop h rest term maxResults pNames
                                            pPaths pMoreAvailable
  end.

Definition searchSourceDatabaseFiles (h : Host) (indexes : list RSourceIndex)
    (term : string) (maxResults : nat) (pNames pPaths : list string)
    : list string * list string * bool :=
  searchSourceDatabaseFiles_loop h indexes term maxResults pNames pPaths false.

(** [searchFiles]: the project index when a file monitor runs, the live
    documents otherwise. *)
Definition searchFiles (h : Host) (indexes : list RSourceIndex)
    (ix : Index.SourceFileIndex) (term : string) (maxResults : nat)
    (pNames pPaths : list string) : list string * list string * bool :=
  if hasFileMonitor h
  then Index.searchFiles h ix term maxResults false pNames pPaths
  else searchSourceDatabaseFiles h indexes term maxResults pNames pPaths.

Inductive SourceItemType :=
  SNone | SFunction | SMethod | SClass | SEnum | SNamespace.

(** The uniform [SourceItem] sent to the client. *)
Record SourceItem := mkSourceItem {
  si_type : SourceItemType;
  si_name : string;
  si_extraInfo : string;
  si_context : string;
  si_line : Z;
  si_column : Z
}.

Definition fromRSourceItem (rSourceItem : RSourceItem) : SourceItem :=
  let type :=
    match ri_type rSourceItem with
    | RFunction => SFunction
    | RMethod => SMethod
    | RClass => SClass
    | RNone => SNone
    end in
  let extraInfo :=
    match ri_signature rSourceItem with
    | [] => ""%string
    | sig => ("{" +:+ String.concat ", " sig +:+ "}")%string
    end in
  mkSourceItem type (ri_name rSourceItem) extraInfo (ri_context rSourceItem)
               (ri_line rSourceItem) (ri_column rSourceItem).

(** [safe_convert::numberTo<int>(value, defaultValue)]: the value when it
    fits an [int], the default otherwise. *)
Definition numberTo_int (value default : Z) : Z :=
  if (value <? -2147483648) || (2147483647 <? value) then default else value.

Definition fromCppDefinition (h : Host) (d : CppDefinition) : SourceItem :=
  let type :=
    match cpp_kind d with
    | CppInvalidDefinition => SNone
    | CppNamespaceDefinition => SNamespace
    | CppClassDefinition | CppStructDefinition => SClass
    | CppEnumDefinition => SEnum
    | CppFunctionDefinition => SFunction
    | CppMemberFunctionDefinition => SMethod
    end in
  mkSourceItem type (cpp_name d) "" (createAliasedPath h (cpp_filePath d))
               (numberTo_int (cpp_line d) 1) (numberTo_int (cpp_column d) 1).

(** The candidates [searchCode] collects before it scores anything. *)
Record Candidates := mkCandidates {
  names : list string;
  paths : list string;
  rSrcItems : list RSourceItem;
  srcItems : list SourceItem;
  collectedMoreFiles : bool;
  collectedMoreSourceItems : bool
}.

(** The collection phase of [searchCode], with its two caps of [1E2]. *)
Definition collect (h : Host) (indexes : list RSourceIndex)
    (ix : Index.SourceFileIndex) (term : string) : Candidates :=
  let '(names, paths, moreFilesAvailable) :=
    searchFiles h indexes ix term 100 [] [] in
  let '(rSrcItems, moreSourceItemsAvailable) :=
    searchSource h indexes ix term 100 false [] in
  let srcItems :=
    (fromRSourceItem <$> rSrcItems)
    ++ (fromCppDefinition h <$> searchDefinitions h term) in
  mkCandidates names paths rSrcItems srcItems moreFilesAvailable
               moreSourceItemsAvailable.

(** [for (i = ...) scores.push_back(make_pair(i, scoreMatch(name_i, term, isFile)))],
    [i] being the index of the head of [l]. *)
Fixpoint scoreCandidates (l : list string) (term : string) (isFile : bool)
    (i : Z) : option (list ScorePair) :=
  match l with
  | [] => Some []
  | name :: l' =>
      s ← scoreMatch name term isFile;
      r ← scoreCandidates l' term isFile (i + 1);
      Some ((i, s) :: r)
  end.

(** [v[pair.first]] for each pair. *)
Definition pick {A} (v : list A) (scores : list ScorePair) : option (list A) :=
  mapM (λ p : ScorePair, if p.1 <? 0 then None else v !! Z.to_nat p.1) scores.

Record Response := mkResponse {
  file_filename : list string;
  file_path : list string;
  source_items : list SourceItem;
  more_available : bool
}.

(** [safe_convert::numberTo<std::size_t>(maxResultsInt, 20)]. *)
Definition numberTo_size_t (n : Z) (default : nat) : nat :=
  if n <? 0 then default else Z.to_nat n.

(** What [std::sort(first, last, ScorePairComparator())] promises of its
    result: the same elements, no element ordered before an earlier one. *)
Definition std_sort_contract (sort : list ScorePair → list ScorePair) : Prop :=
  ∀ l, sort l ≡ₚ l
       ∧ StronglySorted (λ a b, ScorePairComparator b a = false) (sort l).

Section WithSort.
(** [std::sort] with [ScorePairComparator]. *)
Variable std_sort : list ScorePair → list ScorePair.

(** The two score vectors of [searchCode], sorted, before the merge. *)
Definition scorePhase (c : Candidates) (term : string)
    : option (list ScorePair * list ScorePair) :=
  fileScores ← scoreCandidates (names c) term true 0;
  srcItemScores ← scoreCandidates (si_name <$> srcItems c) term false 0;
  Some (std_sort fileScores, std_sort srcItemScores).

(** The ranking phase of [searchCode]: score, sort, merge under the cap,
    recompute the two flags, read the kept candidates back. *)
Definition rank (c : Candidates) (term : string) (maxResults : nat)
    : option Response :=
  '(fileScores, srcItemScores) ← scorePhase c term;
  let srcItemScoresSizeBefore := length srcItemScores in
  let fileScoresSizeBefore := length fileScores in
  let '(fileScores1, srcItemScores1) :=
    filterScores fileScores srcItemScores (Z.of_nat maxResults) in
  let moreFilesAvailable := (length fileScores1 <? fileScoresSizeBefore)%nat in
  let moreSourceItemsAvailable :=
    (length srcItemScores1 <? srcItemScoresSizeBefore)%nat in
  namesFiltered ← pick (names c) fileScores1;
  pathsFiltered ← pick (paths c) fileScores1;
  srcItemsFiltered ← pick (srcItems c) srcItemScores1;
  Some (mkResponse namesFiltered pathsFiltered srcItemsFiltered
                   (moreFilesAvailable || moreSourceItemsAvailable)).

(** [searchCode] for the decoded parameters [term] and [maxResultsInt]. *)
Definition searchCode (h : Host) (indexes : list RSourceIndex)
    (ix : Index.SourceFileIndex) (term : string) (maxResultsInt : Z)
    : option Response :=
  let maxResults := numberTo_size_t maxResultsInt 20 in
  rank (collect h indexes ix term) term maxResults.
End WithSort.

(** [onFileMonitorDisabled]. *)
Definition onFileMonitorDisabled (ix : Index.SourceFileIndex)
    : Index.SourceFileIndex :=
  Index.clear ix.

(** [onFilesChanged]: [std::for_each] of [enqueFileChange]. *)
Definition onFilesChanged (h : Host) (events : list FileChangeEvent)
    (ix : Index.SourceFileIndex) : Index.SourceFileIndex :=
  foldl (λ ix e, Index.enqueFileChange h e ix) ix events.

(** [findGlobalFunctionInSourceDatabase]: the item found, if any, and the
    contexts recorded in [*pContextsSearched]. *)
Fixpoint findGlobalFunctionInSourceDatabase (h : Host)
    (indexes : list RSourceIndex) (functionName : string)
    (pContextsSearched : gset string) : option RSourceItem * gset string :=
  match indexes with
  | [] => (None, pContextsSearched)
  | idx :: rest =>
      if negb (sourceDatabaseFilter h idx) then
        findGlobalFunctionInSourceDatabase h rest functionName pContextsSearched
      else
        let ctxs := {[context idx]} ∪ pContextsSearched in
        match rsearch_if idx (λ it, isGlobalFunctionNamed it functionName) with
        | sourceItem :: _ => (Some sourceItem, ctxs)
        | [] => findGlobalFunctionInSourceDatabase h rest functionName ctxs
        end
  end.

(** The lookup of [getFunctionDefinition]:
    [findGlobalFunctionInSourceDatabase(...) || s_projectIndex.findGlobalFunction(...)],
    the second call seeing the contexts the first one recorded. *)
Definition findGlobalFunctionInCode (h : Host) (indexes : list RSourceIndex)
    (ix : Index.SourceFileIndex) (functionName : string) : option RSourceItem :=
  match findGlobalFunctionInSourceDatabase h indexes functionName ∅ with
  | (Some sourceItem, _) => Some sourceItem
  | (None, contexts) => Index.findGlobalFunction ix functionName contexts
  end.

(** [s.substr(pos)]: the rest of the string from [pos] on. *)
Definition substr_from (pos : nat) (s : string) : string :=
  String.substring pos (String.length s - pos) s.

(** [namespaceIsPackage]: [Some] package for a return of true. *)
Definition namespaceIsPackage (namespaceName : string) : option string :=
  if String.eqb namespaceName "" then None
  else
    let pkgPrefix := "package:"%string in
    let pkgPrefixPos := String.index 0 pkgPrefix namespaceName in
    if bool_decide (pkgPrefixPos = Some 0%nat)
       && (String.length pkgPrefix <? String.length namespaceName)%nat
    then Some (substr_from (String.length pkgPrefix) namespaceName)
    else None.

(** The loop of [createS3MethodDefinition] over the "where" list of
    [getAnywhere]: the namespace name it leaves, empty when no element
    qualifies. *)
Fixpoint s3NamespaceName (whereList : list string) : string :=
  match whereList with
  | [] => ""
  | where_ :: rest =>
      let packagePrefix := "package:"%string in
      let namespacePrefix := "namespace:"%string in
      if String.prefix packagePrefix where_ then where_
      else if String.prefix namespacePrefix where_
              && (String.length namespacePrefix <? String.length where_)%nat
      then ("package:" +:+ substr_from (String.length namespacePrefix) where_)%string
      else s3NamespaceName rest
  end.

End Query.

(* ===================================================================== *)
(** ** A concrete session, for the examples *)
(* ===================================================================== *)

Module Demo.
Import string_utils Scoring Index Query.

(** The last path component. *)
Definition filename_of (path : string) : string :=
  let l := list_ascii_of_string path in
  match rfind_char "/"%char l with
  | Some i => string_of_list_ascii (drop (S i) l)
  | None => path
  end.

(** Glob matching, '*' standing for any run of characters. *)
Fixpoint glob (pattern text : list ascii) : bool :=
  match pattern with
  | [] => bool_decide (text = [])
  | c :: pattern' =>
      if Ascii.eqb c "*" then
        (fix any (t : list ascii) : bool :=
           glob pattern' t || match t with [] => false | _ :: t' => any t' end) text
      else
        match text with
        | [] => false
        | x :: text' => Ascii.eqb x c && glob pattern' text'
        end
  end.

(** A session without a project filter: every path is a user file, aliased
    paths are the paths themselves, an R file declares one function per
    source text, terms match symbol names as case-insensitive
    subsequences or prefixes. *)
Definition host (monitor : bool) (defs : string → list CppDefinition) : Host :=
  {| fp_filename := filename_of;
     fp_extensionLowerCase := λ p, to_lower_copy (getExtension (filename_of p));
     fp_isDirectory := λ _, false;
     fp_hasTextMimeType := λ _, false;
     isUserFile := λ _, true;
     createAliasedPath := λ p, p;
     resolveAliasedPath := λ p, p;
     hasProject := false;
     isWithinProjectDirectory := λ _, true;
     hasFileMonitor := monitor;
     parseR := λ code, [mkRItem RFunction code [] 0 1 1 ""];
     itemMatches := λ term prefixOnly caseSensitive it,
       if prefixOnly
       then String.prefix (to_lower_copy term) (to_lower_copy (ri_name it))
       else isSubsequence (ri_name it) term (String.length term)
                          (negb caseSensitive);
     textMatches := λ name term prefixOnly caseSensitive,
       glob (to_lower_list (list_ascii_of_string term))
            (to_lower_list (list_ascii_of_string name));
     searchDefinitions := defs |}.

Definition noDefinitions : string → list CppDefinition := λ _, [].

Definition file (path : string) : FileInfo := mkFileInfo path false 0 0.

(** A file system on which every read succeeds with the given text. *)
Definition readsOk (code : string) : string → ReadResult := λ _, ReadOk code.

Definition notFound : Error := mkError true "no such file" [].
Definition badEncoding : Error := mkError false "invalid byte sequence" [].

Definition readsFail (e : Error) : string → ReadResult := λ _, ReadFailed e.

(** [std::sort] as a stable merge sort. *)
Definition stableSort : list ScorePair → list ScorePair :=
  merge_sort score_le.

(** [std::sort(v.begin(), v.end(), ScorePairComparator())] as libstdc++
    runs it. *)
Definition gnuSort (v : list ScorePair) : list ScorePair :=
  default v (libstdcxx.sort ScorePairComparator v).

(** The index after the given files were added and indexed, one step each. *)
Definition indexed (h : Host) (read : string → ReadResult)
    (files : list FileInfo) : SourceFileIndex :=
  let ix := enqueFiles h files empty_index in
  steps h (λ _, read) 0 (length files) ix.

(** A live document with one function. *)
Definition liveDoc (path fn : string) : RSourceIndex :=
  mkRIndex path [mkRItem RFunction fn [] 0 1 1 ""].

(** A live document with [n] functions of the same name. *)
Definition liveDocMany (path fn : string) (n : nat) : RSourceIndex :=
  mkRIndex path (replicate n (mkRItem RFunction fn [] 0 1 1 "")).

(** [n] files "/p/f0.c" ... (unary numbering keeps the names in path order). *)
Fixpoint manyFiles (n : nat) (stem : string) : list FileInfo :=
  match n with
  | O => []
  | S n' => file ("/p/" +:+ stem +:+ ".c") :: manyFiles n' (stem +:+ "a")
  end.

Definition demoHost : Host := host true noDefinitions.

(** The same session with the file monitor off. *)
Definition unmonitoredHost : Host := host false noDefinitions.

(** A session whose C++ definition index knows one function. *)
Definition cppHost : Host :=
  host true (λ _, [mkCppDef CppFunctionDefinition "f" "/p/x.cpp" 1 1]).

(** One and two Added events for "/p/a.R" waiting in the queue. *)
Definition addedOnce : SourceFileIndex :=
  enqueFileChange demoHost (mkEvent FileAdded (file "/p/a.R")) empty_index.

Definition addedTwice : SourceFileIndex :=
  enqueFileChange demoHost (mkEvent FileAdded (file "/p/a.R")) addedOnce.

(** Project indexes: one R file declaring [abc]; two C files whose names
    score the same for the term "a"; 101 C files matching the term "f". *)
Definition oneRFile : SourceFileIndex :=
  indexed demoHost (readsOk "abc") [file "/p/ab.R"].

Definition tiedFiles : SourceFileIndex :=
  indexed demoHost (readsOk "f") [file "/p/xa.c"; file "/p/ya.c"].

Definition manyMatches : SourceFileIndex :=
  indexed demoHost (readsOk "f") (manyFiles 101 "f").

(** Twenty C files "/p/ba.c" ... "/p/ua.c": for the term "a" every name
    matches at position 1. *)
Definition twentyFiles : list FileInfo :=
  (λ c, file ("/p/" +:+ String c "a.c"))
    <$> list_ascii_of_string "bcdefghijklmnopqrstu".

Definition twentyTied : SourceFileIndex :=
  indexed demoHost (readsOk "f") twentyFiles.

End Demo.

(* ===================================================================== *)
(** ** Vocabulary of the statements *)
(* ===================================================================== *)

Import string_utils Scoring Index Query Demo.

(** The file identity of an entry: the path [Entry::operator<] compares. *)
Definition path_of (e : Entry) : string := absolutePath (fileInfo e).

(** The representation invariant of [entries_]: strictly ascending paths. *)
Definition entries_sorted (s : list Entry) : Prop :=
  StronglySorted (λ a b, entry_lt a b = true) s.

(** The entries of every path but [p]. *)
Definition without (p : string) (s : list Entry) : list Entry :=
  filter (λ x, path_of x ≠ p) s.

(** The states the index can be in: what the constructor builds, closed under
    the public operations and the background step, whatever the file system
    answers. *)
Inductive reachable (h : Host) : SourceFileIndex → Prop :=
| reach_init : reachable h empty_index
| reach_enqueFiles files ix :
    reachable h ix → reachable h (enqueFiles h files ix)
| reach_enqueFileChange event ix :
    reachable h ix → reachable h (enqueFileChange h event ix)
| reach_dequeAndIndex read ix :
    reachable h ix → reachable h (dequeAndIndex h read ix).1.1
| reach_clear ix :
    reachable h ix → reachable h (clear ix).

(** Whether [updateIndexEntry] gets as far as the insert: the file is not
    indexable (nothing is read), or the read succeeds. *)
Definition updates (h : Host) (read : string → ReadResult) (f : FileInfo) : bool :=
  negb (isIndexableSourceFile h f)
  || match read (absolutePath f) with ReadOk _ => true | ReadFailed _ => false end.

(** [c1] items of the first list and [c2] of the second are kept, and nothing
    kept from one list scores above something dropped from the other. *)
Definition split_ok (pScore1 pScore2 : list ScorePair) (c1 c2 : nat) : Prop :=
  (c1 ≤ length pScore1)%nat ∧ (c2 ≤ length pScore2)%nat
  ∧ (∀ i j a b, (i < c1)%nat → (c2 ≤ j)%nat →
       pScore1 !! i = Some a → pScore2 !! j = Some b → a.2 ≤ b.2)
  ∧ (∀ i j a b, (i < c2)%nat → (c1 ≤ j)%nat →
       pScore2 !! i = Some a → pScore1 !! j = Some b → a.2 ≤ b.2).

(** The matched character at [matchPos] immediately follows a delimiter. *)
Definition followsDelimiter (suggestion : string) (isFile : bool) (matchPos : Z) : bool :=
  (1 <=? matchPos)
  && match char_at suggestion (matchPos - 1) with
     | Some prevChar => isDelim isFile prevChar
     | None => false
     end.

(** +3 per matched character for a suggestion with the extension ".rd". *)
Definition lowValuePenalty (suggestion : string) : Z :=
  if String.eqb (to_lower_copy (getExtension suggestion)) ".rd" then 3 else 0.

Definition Zsum (l : list Z) : Z := foldr Z.add 0 l.

(** The positions at which the query matches the suggestion, case-insensitively. *)
Definition matchPositions (suggestion query : string) : list Z :=
  subsequenceIndices (to_lower_copy suggestion) (to_lower_copy query).

(** The scoring in closed form, as the code computes it: a delimiter turns the
    position of the [j]-th query character (counted from 0) into [j + 1]. *)
Definition scoreMatch_queryIndexPlusOne (suggestion query : string)
    (isFile : bool) : Z :=
  if String.eqb suggestion query then 0
  else
    Zsum (imap (λ j matchPos,
                  (if followsDelimiter suggestion isFile matchPos
                   then Z.of_nat j + 1 else matchPos)
                  + lowValuePenalty suggestion)
               (matchPositions suggestion query))
    + (if isFile then 1 else 0).

(** The scoring in closed form, as the specification words it: a delimiter
    turns the position into the query index [j]. *)
Definition scoreMatch_documented (suggestion query : string) (isFile : bool) : Z :=
  if String.eqb suggestion query then 0
  else
    Zsum (imap (λ j matchPos,
                  (if followsDelimiter suggestion isFile matchPos
                   then Z.of_nat j else matchPos)
                  + lowValuePenalty suggestion)
               (matchPositions suggestion query))
    + (if isFile then 1 else 0).

(** The pair [p] is (index, score) of a candidate of [v] named by [nm]. *)
Definition scoredFrom {A} (v : list A) (nm : A → string) (term : string)
    (isFile : bool) (p : ScorePair) : Prop :=
  0 ≤ p.1 ∧ ∃ x, v !! Z.to_nat p.1 = Some x
                 ∧ scoreMatch (nm x) term isFile = Some p.2.

(** The files of the project index whose name matches [term]. *)
Definition matchingFiles (h : Host) (ix : SourceFileIndex) (term : string)
    : list Entry :=
  filter (λ e, fileMatches h term false (fp_filename h (path_of e)) = true)
         (entries_ ix).

(** The entries whose file name [SourceFileIndex::searchFiles] matches. *)
Definition fileHits (h : Host) (term : string) (prefixOnly : bool)
    (s : list Entry) : list Entry :=
  filter (λ e, fileMatches h term prefixOnly (fp_filename h (path_of e)) = true) s.

(** The match test of [searchSourceDatabaseFiles] for one live document. *)
Definition documentMatches (h : Host) (term : string) (idx : RSourceIndex) : bool :=
  negb (String.eqb (context idx) "")
  && let filename := fp_filename h (resolveAliasedPath h (context idx)) in
     if hasWildcard term then textMatches h filename term true false
     else isSubsequence filename term (queryEnd term) false.

(** The live documents that pass [sourceDatabaseFilter]. *)
Definition liveIndexes (h : Host) (indexes : list RSourceIndex)
    : list RSourceIndex :=
  filter (λ idx, sourceDatabaseFilter h idx = true) indexes.

(** The symbol data of the entries the project pass looks at: entries with
    an index whose context is not excluded. *)
Definition searchedIndexes (excludeContexts : gset string) (s : list Entry)
    : list RSourceIndex :=
  filter (λ idx, context idx ∉ excludeContexts) (omap pIndex s).

(** Every match of [term] in the given indexes, index by index. *)
Definition allMatches (h : Host) (term : string) (prefixOnly : bool)
    (l : list RSourceIndex) : list RSourceItem :=
  concat ((λ idx, rsearch h idx term prefixOnly false) <$> l).

Definition contextsOf (l : list RSourceIndex) : gset string :=
  list_to_set (context <$> l).

(** The global functions called [name] that an index declares. *)
Definition globalFunctions (name : string) (idx : RSourceIndex)
    : list RSourceItem :=
  rsearch_if idx (λ it, isGlobalFunctionNamed it name).

(** The entries after the events of [q] were processed in order, step [k]
    first. *)
Fixpoint processAll (h : Host) (reads : nat → string → ReadResult) (k : nat)
    (q : list FileChangeEvent) (s : list Entry) : list Entry :=
  match q with
  | [] => s
  | event :: q' =>
      processAll h reads (S k) q' (processChange h (reads k) event s).1
  end.

(** What the queue filter and [updateIndexEntry] establish of a stored
    entry: it is a source file; it carries symbol data exactly when it is
    indexable, parsed under the aliased path of the file. *)
Definition entry_wf (h : Host) (e : Entry) : Prop :=
  isSourceFile h (fileInfo e) = true
  ∧ match pIndex e with
    | Some idx =>
        isIndexableSourceFile h (fileInfo e) = true
        ∧ ∃ code, idx = newRSourceIndex h (createAliasedPath h (path_of e)) code
    | None => isIndexableSourceFile h (fileInfo e) = false
    end.

(** What a change event puts in the place of the entries of its file: the
    new entry after an update that gets as far as the insert, nothing after a
    removal; [None] when the event leaves the entries alone. *)
Definition replacement (h : Host) (read : string → ReadResult)
    (event : FileChangeEvent) : option (list Entry) :=
  let fi := ev_fileInfo event in
  match ev_type event with
  | FileAdded | FileModified =>
      if isIndexableSourceFile h fi then
        match read (absolutePath fi) with
        | ReadOk code =>
            Some [mkEntry fi (Some (newRSourceIndex h
                                      (createAliasedPath h (absolutePath fi)) code))]
        | ReadFailed _ => None
        end
      else Some [mkEntry fi None]
  | FileRemoved => Some []
  | FileNone => None
  end.

(* ===================================================================== *)
(** ** The entry set *)
(* ===================================================================== *)

Lemma ltb_lt (a b : string) : String.ltb a b = true ↔ String_as_OT.lt a b.
Proof.
  unfold String.ltb. rewrite <- String_as_OT.cmp_lt. unfold String_as_OT.cmp.
  destruct (String.compare a b); split; congruence.
Qed.

Lemma ltb_irrefl (a : string) : String.ltb a a = false.
Proof.
  destruct (String.ltb a a) eqn:E; [|done].
  apply ltb_lt in E. by apply String_as_OT.lt_not_eq in E.
Qed.

Lemma ltb_trans (a b c : string) :
  String.ltb a b = true → String.ltb b c = true → String.ltb a c = true.
Proof. rewrite !ltb_lt. apply String_as_OT.lt_trans. Qed.

Lemma ltb_trichotomy (a b : string) :
  String.ltb a b = false → String.ltb b a = false → a = b.
Proof.
  unfold String.ltb. rewrite (String.compare_antisym a b).
  destruct (String.compare b a) eqn:E; simpl; try congruence.
  intros _ _. symmetry. by apply String.compare_eq_iff.
Qed.

Lemma ltb_asym (a b : string) : String.ltb a b = true → String.ltb b a = false.
Proof.
  intros H. destruct (String.ltb b a) eqn:E; [|done].
  pose proof (ltb_trans _ _ _ H E) as T. by rewrite ltb_irrefl in T.
Qed.

Lemma entry_lt_ne a b : entry_lt a b = true → path_of a ≠ path_of b.
Proof.
  unfold entry_lt, fileInfoPathLessThan, path_of. intros H E.
  rewrite E in H. by rewrite ltb_irrefl in H.
Qed.

Lemma entry_lt_trans a b c :
  entry_lt a b = true → entry_lt b c = true → entry_lt a c = true.
Proof. apply ltb_trans. Qed.

Lemma entry_equiv a b :
  entry_lt a b = false → entry_lt b a = false → path_of a = path_of b.
Proof. apply ltb_trichotomy. Qed.

Lemma entry_lt_path a a' b :
  path_of a = path_of a' → entry_lt a b = entry_lt a' b.
Proof. unfold entry_lt, fileInfoPathLessThan, path_of. by intros ->. Qed.

Lemma entry_lt_path_r a b b' :
  path_of b = path_of b' → entry_lt a b = entry_lt a b'.
Proof. unfold entry_lt, fileInfoPathLessThan, path_of. by intros ->. Qed.

Lemma sorted_above e x s :
  entries_sorted (x :: s) → entry_lt e x = true →
  Forall (λ y, path_of y ≠ path_of e) (x :: s).
Proof.
  intros Hs He. apply StronglySorted_cons in Hs as [Hx _].
  constructor.
  - intros E. symmetry in E. by apply entry_lt_ne in He.
  - eapply Forall_impl; [exact Hx|]. intros y Hy E.
    pose proof (entry_lt_trans _ _ _ He Hy) as T.
    apply entry_lt_ne in T. by symmetry in E.
Qed.

Lemma without_fresh_id p s :
  Forall (λ y, path_of y ≠ p) s → without p s = s.
Proof.
  unfold without. induction 1 as [|y s Hy _ IH]; [done|].
  rewrite filter_cons_True by done. by rewrite IH.
Qed.

Lemma without_sorted p s : entries_sorted s → entries_sorted (without p s).
Proof.
  unfold entries_sorted, without. induction 1 as [|x s Hs IH Hx]; [constructor|].
  rewrite filter_cons. case_decide; [|done].
  constructor; [done|]. apply Forall_forall. intros y [_ Hy]%list_elem_of_filter.
  by eapply Forall_forall in Hx.
Qed.

Lemma without_fresh p s : Forall (λ y, path_of y ≠ p) (without p s).
Proof. apply Forall_forall. by intros y [? _]%list_elem_of_filter. Qed.

(** A fresh path always goes in, and the set stays ordered. *)
Lemma set_insert_fresh e s :
  entries_sorted s → Forall (λ y, path_of y ≠ path_of e) s →
  ∃ r i, set_insert e s = (r, i, true) ∧ entries_sorted r ∧ r ≡ₚ e :: s.
Proof.
  induction s as [|x s IH]; intros Hs Hf; simpl.
  - exists [e], 0%nat. repeat split; [|done]. repeat constructor.
  - destruct (entry_lt e x) eqn:Hex.
    + exists (e :: x :: s), 0%nat. repeat split; [|done].
      constructor; [done|].
      pose proof Hs as Hs'. apply StronglySorted_cons in Hs' as [Hx _].
      constructor; [done|]. eapply Forall_impl; [exact Hx|].
      intros y Hy. by eapply entry_lt_trans.
    + apply Forall_cons in Hf as [Hxe Hf].
      destruct (entry_lt x e) eqn:Hxe'.
      2:{ by apply entry_equiv in Hxe'; [|done]. }
      pose proof Hs as Hs'. apply StronglySorted_cons in Hs' as [Hx Hs'].
      destruct (IH Hs' Hf) as (r & i & -> & Hr & Hp).
      exists (x :: r), (S i). repeat split.
      * constructor; [done|]. rewrite Hp. by constructor.
      * rewrite Hp. apply Permutation_swap.
Qed.

(** What [set_insert] answers on an ordered set. *)
Lemma set_insert_spec e s :
  entries_sorted s →
  ∀ r i b, set_insert e s = (r, i, b) →
    if b then Forall (λ y, path_of y ≠ path_of e) s
    else r = s ∧ set_erase i s = without (path_of e) s
         ∧ ∃ x, s !! i = Some x ∧ path_of x = path_of e.
Proof.
  induction s as [|x s IH]; intros Hs r i b; simpl.
  - intros [= <- <- <-]. constructor.
  - destruct (entry_lt e x) eqn:Hex.
    + intros [= <- <- <-]. by apply sorted_above.
    + pose proof Hs as Hs'. apply StronglySorted_cons in Hs' as [Hx Hs'].
      destruct (entry_lt x e) eqn:Hxe.
      * destruct (set_insert e s) as [[r' i'] b'] eqn:Hi.
        intros [= <- <- <-]. specialize (IH Hs' _ _ _ eq_refl).
        destruct b'.
        -- constructor; [by apply entry_lt_ne|done].
        -- destruct IH as (-> & Hd & y & Hy & Hp). split; [done|]. split.
           ++ unfold set_erase, without in *. simpl.
              rewrite filter_cons_True by by apply entry_lt_ne.
              f_equal. exact Hd.
           ++ by exists y.
      * intros [= <- <- <-]. split; [done|].
        pose proof (entry_equiv _ _ Hxe Hex) as Hp. split; [|by exists x].
        unfold set_erase, without. simpl. rewrite filter_cons_False by (by intros ?).
        symmetry. apply without_fresh_id.
        eapply Forall_impl; [exact Hx|]. intros y Hy E.
        apply entry_lt_ne in Hy. congruence.
Qed.

Lemma replaceEntry_spec e s :
  entries_sorted s →
  entries_sorted (replaceEntry e s)
  ∧ replaceEntry e s ≡ₚ e :: without (path_of e) s.
Proof.
  intros Hs. unfold replaceEntry.
  destruct (set_insert e s) as [[s1 first] second] eqn:Hi.
  pose proof (set_insert_spec e s Hs _ _ _ Hi) as Hspec.
  destruct second.
  - destruct (set_insert_fresh e s Hs Hspec) as (r & i & Hi' & Hr & Hp).
    rewrite Hi in Hi'. injection Hi' as -> ->.
    by rewrite without_fresh_id.
  - destruct Hspec as (-> & Hd & _).
    assert (∃ r i, set_insert e (without (path_of e) s) = (r, i, true)
                   ∧ entries_sorted r ∧ r ≡ₚ e :: without (path_of e) s)
      as (r & i & Hi' & Hr & Hp).
    { apply set_insert_fresh; [by apply without_sorted|apply without_fresh]. }
    unfold set_insert_hint. rewrite Hd, Hi'. simpl. by destruct (Nat.eqb first 0).
Qed.

Lemma set_find_spec e s :
  entries_sorted s →
  match set_find e s with
  | Some i => set_erase i s = without (path_of e) s
  | None => without (path_of e) s = s
  end.
Proof.
  induction s as [|x s IH]; intros Hs; simpl; [done|].
  pose proof Hs as Hs'. apply StronglySorted_cons in Hs' as [Hx Hs'].
  destruct (entry_lt e x) eqn:Hex.
  - apply without_fresh_id. by apply sorted_above.
  - destruct (entry_lt x e) eqn:Hxe.
    + specialize (IH Hs'). destruct (set_find e s) as [i|]; simpl;
        unfold set_erase, without in *; simpl;
        rewrite filter_cons_True by (by apply entry_lt_ne); f_equal; exact IH.
    + pose proof (entry_equiv _ _ Hxe Hex) as Hp.
      unfold set_erase, without. simpl. rewrite filter_cons_False by (by intros ?).
      symmetry. apply without_fresh_id.
      eapply Forall_impl; [exact Hx|]. intros y Hy E.
      apply entry_lt_ne in Hy. congruence.
Qed.

Lemma removeIndexEntry_spec fi s :
  entries_sorted s → removeIndexEntry fi s = without (absolutePath fi) s.
Proof.
  intros Hs. unfold removeIndexEntry.
  pose proof (set_find_spec (mkEntry fi None) s Hs) as H.
  destruct (set_find _ s); [exact H|by symmetry].
Qed.

Lemma entriesFor_without fi s : entriesFor fi (without (absolutePath fi) s) = [].
Proof.
  unfold entriesFor, without. induction s as [|x s IH]; [done|].
  rewrite filter_cons. case_decide as Hx; [|done].
  rewrite filter_cons_False; [done|]. intros E. by apply Hx.
Qed.

Lemma entriesFor_without_ne fi p s :
  absolutePath fi ≠ p → entriesFor fi (without p s) = entriesFor fi s.
Proof.
  intros Hne. unfold entriesFor, without. induction s as [|x s IH]; [done|].
  rewrite !filter_cons. case_decide as Hx.
  - rewrite filter_cons. case_decide; by rewrite IH.
  - rewrite decide_False; [done|].
    unfold path_of in Hx. congruence.
Qed.

Lemma entriesFor_sorted fi s :
  entries_sorted s → (length (entriesFor fi s) ≤ 1)%nat.
Proof.
  unfold entriesFor. induction 1 as [|x s Hs IH Hx]; [simpl; lia|].
  rewrite filter_cons. case_decide as E; [|done].
  assert (filter (λ e, absolutePath (fileInfo e) = absolutePath fi) s = []) as ->.
  { clear IH Hs. induction Hx as [|y s Hy Hx' IH']; [done|].
    rewrite filter_cons_False; [exact IH'|].
    intros E'. apply entry_lt_ne in Hy. unfold path_of in Hy. congruence. }
  simpl. lia.
Qed.

Lemma updateIndexEntry_sorted h read fi s :
  entries_sorted s → entries_sorted (updateIndexEntry h read fi s).1.
Proof.
  intros Hs. unfold updateIndexEntry.
  destruct (isIndexableSourceFile h fi); [|by apply replaceEntry_spec].
  destruct (read (absolutePath fi)) as [code|error]; [by apply replaceEntry_spec|].
  by destruct (negb (err_isPathNotFound error)).
Qed.

Lemma processChange_sorted h read event s :
  entries_sorted s → entries_sorted (processChange h read event s).1.
Proof.
  intros Hs. unfold processChange. destruct (ev_type event); simpl; try done.
  - by apply updateIndexEntry_sorted.
  - by apply updateIndexEntry_sorted.
  - rewrite removeIndexEntry_spec by done. by apply without_sorted.
Qed.

Lemma dequeAndIndex_sorted h read ix :
  entries_sorted (entries_ ix) →
  entries_sorted (entries_ (dequeAndIndex h read ix).1.1).
Proof.
  intros Hs. unfold dequeAndIndex. destruct (indexingQueue_ ix); simpl; [done|].
  by apply processChange_sorted.
Qed.

Lemma reachable_sorted h ix : reachable h ix → entries_sorted (entries_ ix).
Proof.
  induction 1 as [|files ix _ IH|event ix _ IH|read ix _ IH|ix _ IH].
  - constructor.
  - unfold enqueFiles. by destruct (_ && _).
  - unfold enqueFileChange. destruct (negb (isSourceFile _ _)); [done|].
    by destruct (negb (indexing_ ix)).
  - by apply dequeAndIndex_sorted.
  - constructor.
Qed.

Lemma entriesFor_replaceEntry e s :
  entries_sorted s → entriesFor (fileInfo e) (replaceEntry e s) = [e].
Proof.
  intros Hs. destruct (replaceEntry_spec e s Hs) as [_ Hp].
  apply Permutation_singleton_r. unfold entriesFor at 1. rewrite Hp.
  rewrite filter_cons_True by done.
  pose proof (entriesFor_without (fileInfo e) s) as Hw.
  unfold entriesFor, path_of in *. by rewrite Hw.
Qed.

Lemma updateIndexEntry_updates h read f s :
  entries_sorted s → updates h read f = true →
  ∃ e, entriesFor f (updateIndexEntry h read f s).1 = [e] ∧ fileInfo e = f.
Proof.
  intros Hs Hu. unfold updates in Hu. unfold updateIndexEntry.
  destruct (isIndexableSourceFile h f); simpl in Hu.
  - destruct (read (absolutePath f)) as [code|error]; [|done]. simpl.
    set (e := mkEntry f (Some _)). exists e. split; [|done].
    exact (entriesFor_replaceEntry e s Hs).
  - simpl. exists (mkEntry f None). split; [|done].
    exact (entriesFor_replaceEntry (mkEntry f None) s Hs).
Qed.

Lemma updateIndexEntry_fails h read f s :
  updates h read f = false → (updateIndexEntry h read f s).1 = s.
Proof.
  unfold updates, updateIndexEntry.
  destruct (isIndexableSourceFile h f); [|done]. simpl.
  destruct (read (absolutePath f)) as [code|error]; [done|]. intros _.
  by destruct (negb (err_isPathNotFound error)).
Qed.

(** C4, as amended.  In every reachable state the Entry Store holds at most
    one entry per file identity (path), and still does after an update, a
    removal or a clear.  Processing the same Added event twice in a row
    leaves at most one entry for the file: exactly one, carrying the event's
    file info, when one of the two updates got as far as the insert (the file
    is not indexable, or its read succeeded), and the entries as they were
    when both reads failed. *)
Theorem entry_store_unique_per_file (h : Host) (ix : SourceFileIndex) :
  reachable h ix →
  (∀ fi, (length (entriesFor fi (entries_ ix)) ≤ 1)%nat)
  ∧ (∀ read f fi,
       (length (entriesFor fi (updateIndexEntry h read f (entries_ ix)).1) ≤ 1)%nat)
  ∧ (∀ f fi, (length (entriesFor fi (removeIndexEntry f (entries_ ix))) ≤ 1)%nat)
  ∧ (∀ fi, (length (entriesFor fi (entries_ (clear ix))) ≤ 1)%nat)
  ∧ ∀ f q read1 read2,
      indexingQueue_ ix = mkEvent FileAdded f :: mkEvent FileAdded f :: q →
      let ix2 := (dequeAndIndex h read2 (dequeAndIndex h read1 ix).1.1).1.1 in
      (length (entriesFor f (entries_ ix2)) ≤ 1)%nat
      ∧ (updates h read1 f || updates h read2 f = true →
         ∃ e, entriesFor f (entries_ ix2) = [e] ∧ fileInfo e = f)
      ∧ (updates h read1 f || updates h read2 f = false →
         entries_ ix2 = entries_ ix).
Proof.
  intros Hr. pose proof (reachable_sorted h ix Hr) as Hs.
  split; [intros fi; by apply entriesFor_sorted|].
  split; [intros read f fi; by apply entriesFor_sorted, updateIndexEntry_sorted|].
  split.
  { intros f fi. apply entriesFor_sorted.
    rewrite removeIndexEntry_spec by done. by apply without_sorted. }
  split; [intros fi; simpl; lia|].
  intros f q read1 read2 Hq ix2.
  assert (entries_ ix2
          = (updateIndexEntry h read2 f
               (updateIndexEntry h read1 f (entries_ ix)).1).1) as Hix2.
  { unfold ix2, dequeAndIndex. rewrite Hq. simpl. done. }
  pose proof (updateIndexEntry_sorted h read1 f _ Hs) as Hs1.
  rewrite Hix2. split; [|split].
  - apply entriesFor_sorted. by apply updateIndexEntry_sorted.
  - intros Hu. destruct (updates h read2 f) eqn:H2.
    + by apply updateIndexEntry_updates.
    + rewrite (updateIndexEntry_fails h read2) by done.
      apply updateIndexEntry_updates; [done|].
      by rewrite orb_false_r in Hu.
  - intros [H1 H2]%orb_false_elim.
    by rewrite (updateIndexEntry_fails h read2), (updateIndexEntry_fails h read1).
Qed.

(** Two Added events for "/p/a.R", both read successfully: one entry. *)
Lemma entry_store_unique_per_file_witness :
  ∃ e, entriesFor (file "/p/a.R")
         (entries_ (dequeAndIndex demoHost (readsOk "f")
                      (dequeAndIndex demoHost (readsOk "f") addedTwice).1.1).1.1)
       = [e] ∧ fileInfo e = file "/p/a.R".
Proof.
  refine (proj1 (proj2 (proj2 (proj2 (proj2 (proj2
            (entry_store_unique_per_file demoHost addedTwice _))))
            (file "/p/a.R") [] (readsOk "f") (readsOk "f") eq_refl)) eq_refl).
  unfold addedTwice. do 2 apply reach_enqueFileChange. apply reach_init.
Defined.

(** C4, the counterexample.  Two Added events for "/p/a.R" are processed in
    a row while the file cannot be read: the Entry Store has no entry for it,
    not one. *)
Lemma added_twice_unreadable_leaves_no_entry :
  reachable demoHost addedTwice
  ∧ indexingQueue_ addedTwice
    = [mkEvent FileAdded (file "/p/a.R"); mkEvent FileAdded (file "/p/a.R")]
  ∧ entriesFor (file "/p/a.R")
      (entries_ (dequeAndIndex demoHost (readsFail notFound)
                   (dequeAndIndex demoHost (readsFail notFound) addedTwice).1.1).1.1)
    = [].
Proof.
  split; [|split; reflexivity].
  unfold addedTwice. do 2 apply reach_enqueFileChange. apply reach_init.
Qed.

(** C3, as amended.  When the step processes an Added or Modified event for
    an indexable file and the read fails, the entries stay exactly as they
    were (no entry is added or replaced), the step returns its usual status,
    and the error is logged, with the path attached, unless it is a
    path-not-found error, which is not logged. *)
Theorem failed_read_leaves_store_unchanged (h : Host) (read : string → ReadResult)
    (ix : SourceFileIndex) (event : FileChangeEvent) (q : list FileChangeEvent)
    (error : Error) :
  indexingQueue_ ix = event :: q →
  ev_type event = FileAdded ∨ ev_type event = FileModified →
  isIndexableSourceFile h (ev_fileInfo event) = true →
  read (absolutePath (ev_fileInfo event)) = ReadFailed error →
  let more := negb (bool_decide (q = [])) in
  dequeAndIndex h read ix
  = (mkIndex (entries_ ix) more q,
     (if err_isPathNotFound error then []
      else [mkError false (err_message error)
              (err_properties error
               ++ [("src-file"%string, absolutePath (ev_fileInfo event))])]),
     more).
Proof.
  intros Hq Ht Hi Hr more. unfold dequeAndIndex. rewrite Hq.
  assert (processChange h read event (entries_ ix)
          = updateIndexEntry h read (ev_fileInfo event) (entries_ ix)) as ->.
  { unfold processChange. by destruct Ht as [-> | ->]. }
  unfold updateIndexEntry. rewrite Hi, Hr.
  by destruct (err_isPathNotFound error) eqn:E.
Qed.

(** An Added event for "/p/a.R", whose content cannot be decoded. *)
Lemma failed_read_leaves_store_unchanged_witness :
  dequeAndIndex demoHost (readsFail badEncoding) addedOnce
  = (mkIndex [] false [],
     [mkError false "invalid byte sequence" [("src-file"%string, "/p/a.R"%string)]],
     false).
Proof.
  apply (failed_read_leaves_store_unchanged demoHost (readsFail badEncoding)
           addedOnce (mkEvent FileAdded (file "/p/a.R")) [] badEncoding);
    [reflexivity | left; reflexivity | reflexivity | reflexivity].
Defined.

(** C3, the counterexample.  A trackable, indexable file whose content cannot
    be decoded is added: the failure is logged and the Entry Store holds no
    entry for the file, with or without symbol data. *)
Lemma undecodable_file_gets_no_entry :
  let after := dequeAndIndex demoHost (readsFail badEncoding) addedOnce in
  isSourceFile demoHost (file "/p/a.R") = true
  ∧ isIndexableSourceFile demoHost (file "/p/a.R") = true
  ∧ after.1.2 ≠ []
  ∧ ¬ ∃ e, e ∈ entries_ after.1.1
           ∧ absolutePath (fileInfo e) = "/p/a.R"%string ∧ pIndex e = None.
Proof.
  simpl. repeat split; try done. intros (e & He & _). by apply elem_of_nil in He.
Qed.

Lemma steps_idle h reads k n ix :
  indexingQueue_ ix = [] →
  entries_ (steps h reads k n ix) = entries_ ix
  ∧ indexingQueue_ (steps h reads k n ix) = [].
Proof.
  revert k ix. induction n as [|n IH]; intros k ix Hq; simpl; [done|].
  unfold dequeAndIndex at 1 2. rewrite Hq. simpl.
  by destruct (IH (S k) (mkIndex (entries_ ix) false []) eq_refl) as [-> ->].
Qed.

Lemma entriesFor_removed f s :
  entries_sorted s → entriesFor f (removeIndexEntry f s) = [].
Proof.
  intros Hs. rewrite removeIndexEntry_spec by done. apply entriesFor_without.
Qed.

Lemma steps_until_removed h reads f q :
  ∀ ix k n,
    entries_sorted (entries_ ix) →
    indexingQueue_ ix = q ++ [mkEvent FileRemoved f] →
    (length q + 1 ≤ n)%nat →
    entriesFor f (entries_ (steps h reads k n ix)) = []
    ∧ indexingQueue_ (steps h reads k n ix) = [].
Proof.
  induction q as [|ev q IH]; intros ix k n Hs Hq Hn.
  - destruct n as [|n]; [simpl in Hn; lia|]. simpl.
    destruct (steps_idle h reads (S k) n (dequeAndIndex h (reads k) ix).1.1)
      as [-> ->].
    { unfold dequeAndIndex. by rewrite Hq. }
    split; [|done]. unfold dequeAndIndex. rewrite Hq. simpl.
    by apply entriesFor_removed.
  - destruct n as [|n]; [simpl in Hn; lia|]. simpl in *.
    apply IH.
    + by apply dequeAndIndex_sorted.
    + unfold dequeAndIndex. by rewrite Hq.
    + lia.
Qed.

Lemma drain_until_removed h reads f q :
  ∀ ix k fuel,
    entries_sorted (entries_ ix) →
    indexingQueue_ ix = q ++ [mkEvent FileRemoved f] →
    (length q + 1 ≤ fuel)%nat →
    ∃ ix' logged,
      drain h reads k fuel ix = Some (ix', logged)
      ∧ entriesFor f (entries_ ix') = []
      ∧ indexingQueue_ ix' = [] ∧ indexing_ ix' = false.
Proof.
  induction q as [|ev q IH]; intros ix k fuel Hs Hq Hn.
  - destruct fuel as [|fuel]; [simpl in Hn; lia|]. simpl.
    unfold dequeAndIndex. rewrite Hq. simpl.
    eexists _, _. split; [done|]. simpl. split; [|done]. by apply entriesFor_removed.
  - destruct fuel as [|fuel]; [simpl in Hn; lia|]. simpl in *.
    destruct (IH (dequeAndIndex h (reads k) ix).1.1 (S k) fuel)
      as (ix' & logged & Hd & He & Hq' & Hi).
    + by apply dequeAndIndex_sorted.
    + unfold dequeAndIndex. by rewrite Hq.
    + lia.
    + unfold dequeAndIndex in *. rewrite Hq in *. simpl in *.
      assert (bool_decide (q ++ [mkEvent FileRemoved f] = []) = false) as Hne.
      { apply bool_decide_eq_false. by destruct q. }
      rewrite Hne in *. simpl in *. rewrite Hd. simpl. by eexists _, _.
Qed.

Lemma onFilesChanged_queue h evs ix :
  Forall (λ e, isSourceFile h (ev_fileInfo e) = true) evs →
  indexingQueue_ (onFilesChanged h evs ix) = indexingQueue_ ix ++ evs
  ∧ entries_ (onFilesChanged h evs ix) = entries_ ix.
Proof.
  unfold onFilesChanged. intros Hf. revert ix.
  induction Hf as [|e evs He _ IH]; intros ix; simpl.
  - by rewrite app_nil_r.
  - destruct (IH (enqueFileChange h e ix)) as [-> ->].
    unfold enqueFileChange. rewrite He. simpl.
    destruct (negb (indexing_ ix)); simpl; by rewrite <- app_assoc.
Qed.

(** C5.  In a reachable state, the events Added(f), Modified(f), Removed(f)
    of a trackable file are enqueued in that order, behind whatever is queued
    already.  The scheduler, calling the step while it answers that work
    remains, stops within as many steps as there are queued events, with an
    empty queue and no entry for [f]; and after any number of steps not below
    the queue length, whatever the file system answers during them, there is
    no entry for [f]. *)
Theorem added_modified_removed_leaves_no_entry (h : Host)
    (reads : nat → string → ReadResult) (ix : SourceFileIndex) (f : FileInfo) :
  reachable h ix →
  isSourceFile h f = true →
  let ix1 := onFilesChanged h [mkEvent FileAdded f; mkEvent FileModified f;
                               mkEvent FileRemoved f] ix in
  indexingQueue_ ix1
  = indexingQueue_ ix ++ [mkEvent FileAdded f; mkEvent FileModified f;
                          mkEvent FileRemoved f]
  ∧ (∀ k fuel, (length (indexingQueue_ ix1) ≤ fuel)%nat →
       ∃ ix2 logged,
         drain h reads k fuel ix1 = Some (ix2, logged)
         ∧ entriesFor f (entries_ ix2) = []
         ∧ indexingQueue_ ix2 = [] ∧ indexing_ ix2 = false)
  ∧ (∀ k n, (length (indexingQueue_ ix1) ≤ n)%nat →
       entriesFor f (entries_ (steps h reads k n ix1)) = []
       ∧ indexingQueue_ (steps h reads k n ix1) = []).
Proof.
  intros Hr Hf ix1.
  destruct (onFilesChanged_queue h
              [mkEvent FileAdded f; mkEvent FileModified f; mkEvent FileRemoved f] ix)
    as [Hq He]; [by repeat constructor|].
  fold ix1 in Hq, He.
  assert (entries_sorted (entries_ ix1)) as Hs.
  { rewrite He. by apply reachable_sorted in Hr. }
  assert (indexingQueue_ ix1
          = (indexingQueue_ ix ++ [mkEvent FileAdded f; mkEvent FileModified f])
            ++ [mkEvent FileRemoved f]) as Hq'.
  { rewrite Hq, <- app_assoc. done. }
  split; [done|]. split.
  - intros k fuel Hfuel. eapply drain_until_removed; [done|exact Hq'|].
    rewrite Hq' in Hfuel. by rewrite length_app in Hfuel.
  - intros k n Hn. eapply steps_until_removed; [done|exact Hq'|].
    rewrite Hq' in Hn. by rewrite length_app in Hn.
Qed.

(** The three events for "/p/a.R" on a fresh index, drained in three steps. *)
Lemma added_modified_removed_leaves_no_entry_witness :
  entriesFor (file "/p/a.R")
    (entries_ (steps demoHost (λ _, readsOk "f") 0 3
                 (onFilesChanged demoHost
                    [mkEvent FileAdded (file "/p/a.R");
                     mkEvent FileModified (file "/p/a.R");
                     mkEvent FileRemoved (file "/p/a.R")] empty_index))) = [].
Proof.
  refine (proj1 (proj2 (proj2 (added_modified_removed_leaves_no_entry demoHost
            (λ _, readsOk "f") empty_index (file "/p/a.R") _ eq_refl)) 0%nat 3%nat _)).
  - apply reach_init.
  - simpl. lia.
Defined.

(* ===================================================================== *)
(** ** The scorer and the merge *)
(* ===================================================================== *)

Section Merge.
Variables pScore1 pScore2 : list ScorePair.
Hypothesis sorted1 : StronglySorted score_le pScore1.
Hypothesis sorted2 : StronglySorted score_le pScore2.

Lemma sorted_lookup (l : list ScorePair) i j a b :
  StronglySorted score_le l → (i ≤ j)%nat →
  l !! i = Some a → l !! j = Some b → a.2 ≤ b.2.
Proof.
  intros Hl. revert i j. induction Hl as [|x l Hl IH Hx]; intros i j Hij Hi Hj.
  - by rewrite lookup_nil in Hi.
  - destruct i as [|i], j as [|j]; simpl in *; try lia.
    + assert (a = b) by congruence. subst. lia.
    + injection Hi as ->. apply list_elem_of_lookup_2 in Hj.
      by eapply Forall_forall in Hx.
    + eapply IH; [|done..]. lia.
Qed.

Lemma split_ok_take1 c1 c2 x :
  split_ok pScore1 pScore2 c1 c2 → pScore1 !! c1 = Some x →
  (c2 = length pScore2 ∨ ∃ y, pScore2 !! c2 = Some y ∧ x.2 ≤ y.2) →
  split_ok pScore1 pScore2 (S c1) c2.
Proof.
  intros (H1 & H2 & Hc1 & Hc2) Hx Hy.
  apply lookup_lt_Some in Hx as Hlt.
  split; [lia|]. split; [done|]. split.
  - intros i j a b Hi Hj Ha Hb.
    destruct (decide (i = c1)) as [->|]; [|eapply Hc1; [| |done..]; lia].
    assert (a = x) by congruence. subst a.
    destruct Hy as [->|(y & Hy & Hxy)].
    + apply lookup_lt_Some in Hb. lia.
    + pose proof (sorted_lookup pScore2 c2 j y b sorted2 Hj Hy Hb). lia.
  - intros i j a b Hi Hj Ha Hb. eapply Hc2; [| |done..]; lia.
Qed.

Lemma split_ok_take2 c1 c2 y :
  split_ok pScore1 pScore2 c1 c2 → pScore2 !! c2 = Some y →
  (c1 = length pScore1 ∨ ∃ x, pScore1 !! c1 = Some x ∧ y.2 ≤ x.2) →
  split_ok pScore1 pScore2 c1 (S c2).
Proof.
  intros (H1 & H2 & Hc1 & Hc2) Hy Hx.
  apply lookup_lt_Some in Hy as Hlt.
  split; [done|]. split; [lia|]. split.
  - intros i j a b Hi Hj Ha Hb. eapply Hc1; [| |done..]; lia.
  - intros i j a b Hi Hj Ha Hb.
    destruct (decide (i = c2)) as [->|]; [|eapply Hc2; [| |done..]; lia].
    assert (a = y) by congruence. subst a.
    destruct Hx as [->|(x & Hx & Hxy)].
    + apply lookup_lt_Some in Hb. lia.
    + pose proof (sorted_lookup pScore1 c1 j x b sorted1 Hj Hx Hb). lia.
Qed.

Lemma filterScores_loop_spec n :
  ∀ c1 c2, split_ok pScore1 pScore2 c1 c2 →
  ∃ c1' c2',
    filterScores_loop pScore1 pScore2 n c1 c2 = (c1', c2')
    ∧ split_ok pScore1 pScore2 c1' c2'
    ∧ (c1' + c2' = (c1 + c2 + n) `min` (length pScore1 + length pScore2))%nat.
Proof.
  induction n as [|n IH]; intros c1 c2 Hok.
  - exists c1, c2. pose proof Hok as (? & ? & _). simpl. split; [done|]. split; [done|]. lia.
  - pose proof Hok as (H1 & H2 & _). simpl.
    destruct (Nat.eqb_spec c1 (length pScore1)) as [E1|E1].
    { destruct (Nat.ltb_spec c2 (length pScore2)) as [L2|L2].
      - destruct (lookup_lt_is_Some_2 pScore2 c2 L2) as [y Hy].
        destruct (IH c1 (S c2)) as (c1' & c2' & -> & Hok' & Hsum).
        { eapply split_ok_take2; [done..|by left]. }
        exists c1', c2'. split; [done|]. split; [done|]. lia.
      - destruct (IH c1 c2 Hok) as (c1' & c2' & -> & Hok' & Hsum).
        exists c1', c2'. split; [done|]. split; [done|]. lia. }
    destruct (Nat.eqb_spec c2 (length pScore2)) as [E2|E2].
    { destruct (Nat.ltb_spec c1 (length pScore1)) as [L1|L1]; [|lia].
      destruct (lookup_lt_is_Some_2 pScore1 c1 L1) as [x Hx].
      destruct (IH (S c1) c2) as (c1' & c2' & -> & Hok' & Hsum).
      { eapply split_ok_take1; [done..|by left]. }
      exists c1', c2'. split; [done|]. split; [done|]. lia. }
    destruct (lookup_lt_is_Some_2 pScore1 c1) as [x Hx]; [lia|].
    destruct (lookup_lt_is_Some_2 pScore2 c2) as [y Hy]; [lia|].
    rewrite (nth_lookup_Some _ _ _ _ Hx), (nth_lookup_Some _ _ _ _ Hy).
    destruct (Z.leb_spec x.2 y.2) as [Hle|Hgt].
    + destruct (IH (S c1) c2) as (c1' & c2' & -> & Hok' & Hsum).
      { eapply split_ok_take1; [done..|]. right. by exists y. }
      exists c1', c2'. split; [done|]. split; [done|]. lia.
    + destruct (IH c1 (S c2)) as (c1' & c2' & -> & Hok' & Hsum).
      { eapply split_ok_take2; [done..|]. right. exists x. split; [done|lia]. }
      exists c1', c2'. split; [done|]. split; [done|]. lia.
Qed.

Lemma split_ok_kept_below_dropped c1 c2 a b :
  split_ok pScore1 pScore2 c1 c2 →
  a ∈ take c1 pScore1 ++ take c2 pScore2 →
  b ∈ drop c1 pScore1 ++ drop c2 pScore2 →
  a.2 ≤ b.2.
Proof.
  intros (H1 & H2 & Hc1 & Hc2) Ha Hb.
  apply elem_of_app in Ha as [Ha|Ha]; apply elem_of_take in Ha as (i & Ha & Hi);
    apply elem_of_app in Hb as [Hb|Hb];
    apply list_elem_of_lookup in Hb as (j & Hb); rewrite lookup_drop in Hb.
  - eapply (sorted_lookup pScore1 i (c1 + j)); [done| |done..]. lia.
  - eapply Hc1; [| |done..]; lia.
  - eapply Hc2; [| |done..]; lia.
  - eapply (sorted_lookup pScore2 i (c2 + j)); [done| |done..]. lia.
Qed.

Lemma filterScores_spec (K : Z) :
  0 ≤ K ≤ Z.of_nat (length pScore1 + length pScore2) →
  ∃ c1 c2 : nat,
    filterScores pScore1 pScore2 K = (take c1 pScore1, take c2 pScore2)
    ∧ (c1 ≤ length pScore1)%nat ∧ (c2 ≤ length pScore2)%nat
    ∧ Z.of_nat (c1 + c2) = K
    ∧ ∀ a b, a ∈ take c1 pScore1 ++ take c2 pScore2 →
             b ∈ drop c1 pScore1 ++ drop c2 pScore2 → a.2 ≤ b.2.
Proof.
  intros HK. unfold filterScores.
  destruct (filterScores_loop_spec (Z.to_nat K) 0 0) as (c1 & c2 & -> & Hok & Hsum).
  { repeat split; try lia; intros; lia. }
  exists c1, c2. pose proof Hok as (H1 & H2 & _).
  split; [done|]. split; [done|]. split; [done|]. split; [lia|].
  intros a b. by apply split_ok_kept_below_dropped.
Qed.
End Merge.

Lemma find_char_lt c s i : find_char c s = Some i → (i < length s)%nat.
Proof.
  revert i. induction s as [|x s IH]; intros i; simpl; [done|].
  destruct (Ascii.eqb x c); [intros [= <-]; lia|].
  destruct (find_char c s) as [k|]; simpl; [|done].
  intros [= <-]. specialize (IH k eq_refl). lia.
Qed.

Lemma subsequenceIndices_from_length_le q :
  ∀ rest off, (length (subsequenceIndices_from rest off q) ≤ length q)%nat.
Proof.
  induction q as [|c q IH]; intros rest off; simpl; [done|].
  destruct (find_char c rest) as [i|]; simpl.
  - specialize (IH (drop (S i) rest) (off + S i)%nat). lia.
  - specialize (IH rest off). lia.
Qed.

Lemma subsequenceIndices_from_length q :
  ∀ rest off,
    if isSubsequence_list rest q
    then length (subsequenceIndices_from rest off q) = length q
    else (length (subsequenceIndices_from rest off q) < length q)%nat.
Proof.
  induction q as [|c q IH]; intros rest off; simpl; [done|].
  destruct (find_char c rest) as [i|]; simpl.
  - specialize (IH (drop (S i) rest) (off + S i)%nat).
    destruct (isSubsequence_list _ q); lia.
  - pose proof (subsequenceIndices_from_length_le q rest off). lia.
Qed.

Lemma subsequenceIndices_from_range q :
  ∀ rest off p,
    p ∈ subsequenceIndices_from rest off q →
    Z.of_nat off ≤ p < Z.of_nat (off + length rest).
Proof.
  induction q as [|c q IH]; intros rest off p; simpl.
  - by intros ?%elem_of_nil.
  - destruct (find_char c rest) as [i|] eqn:Hf; [|by apply IH].
    apply find_char_lt in Hf.
    intros [->|Hp]%elem_of_cons; [lia|].
    apply IH in Hp. rewrite length_drop in Hp. lia.
Qed.

Lemma length_list_ascii_of_string s :
  length (list_ascii_of_string s) = String.length s.
Proof. induction s; simpl; congruence. Qed.

Lemma length_to_lower_copy s : String.length (to_lower_copy s) = String.length s.
Proof.
  unfold to_lower_copy, to_lower_list.
  rewrite <- !length_list_ascii_of_string, list_ascii_of_string_of_list_ascii.
  by rewrite length_map.
Qed.

Lemma get_is_Some s n : (n < String.length s)%nat → is_Some (String.get n s).
Proof.
  revert n. induction s as [|c s IH]; intros n; simpl; [lia|].
  destruct n; [by eexists|]. intros. apply IH. lia.
Qed.

Lemma matchPositions_unfold s q :
  matchPositions s q
  = subsequenceIndices_from (to_lower_list (list_ascii_of_string s)) 0
      (to_lower_list (list_ascii_of_string q)).
Proof.
  unfold matchPositions, subsequenceIndices, to_lower_copy.
  by rewrite !list_ascii_of_string_of_list_ascii.
Qed.

Lemma isSubsequence_whole s q :
  isSubsequence s q (String.length q) true
  = isSubsequence_list (to_lower_list (list_ascii_of_string s))
                       (to_lower_list (list_ascii_of_string q)).
Proof.
  unfold isSubsequence.
  by rewrite take_ge by (by rewrite length_list_ascii_of_string).
Qed.

Lemma matchPositions_range s q p :
  p ∈ matchPositions s q → 0 ≤ p < Z.of_nat (String.length s).
Proof.
  rewrite matchPositions_unfold. intros Hp%subsequenceIndices_from_range.
  unfold to_lower_list in Hp.
  rewrite length_map, length_list_ascii_of_string in Hp. lia.
Qed.

Lemma matchPositions_length s q :
  if isSubsequence s q (String.length q) true
  then length (matchPositions s q) = String.length q
  else (length (matchPositions s q) < String.length q)%nat.
Proof.
  rewrite isSubsequence_whole, matchPositions_unfold.
  pose proof (subsequenceIndices_from_length
                (to_lower_list (list_ascii_of_string q))
                (to_lower_list (list_ascii_of_string s)) 0) as H.
  unfold to_lower_list in *.
  by rewrite length_map, length_list_ascii_of_string in H.
Qed.

Lemma int_wrap_range z : -2147483648 ≤ int_wrap z < 2147483648.
Proof.
  unfold int_wrap.
  pose proof (Z.mod_pos_bound (z + 2147483648) 4294967296). lia.
Qed.

Lemma int_wrap_small z : -2147483648 ≤ z < 2147483648 → int_wrap z = z.
Proof. intros Hz. unfold int_wrap. rewrite Z.mod_small by lia. lia. Qed.

Lemma int_wrap_add_l a b : int_wrap (int_wrap a + b) = int_wrap (a + b).
Proof.
  unfold int_wrap. f_equal.
  replace ((a + 2147483648) mod 4294967296 - 2147483648 + b + 2147483648)
    with ((a + 2147483648) mod 4294967296 + b) by lia.
  rewrite Zplus_mod_idemp_l. f_equal. lia.
Qed.

Lemma int_wrap_add_r a b : int_wrap (a + int_wrap b) = int_wrap (a + b).
Proof. by rewrite Z.add_comm, int_wrap_add_l, Z.add_comm. Qed.

Lemma int_wrap_idemp a : int_wrap (int_wrap a) = int_wrap a.
Proof.
  replace (int_wrap a) with (int_wrap a + 0) at 1 by lia.
  rewrite int_wrap_add_l. f_equal. lia.
Qed.

(** What one matched character adds to the score, before any wrap-around. *)
Lemma scoreStep_in_range s isFile ms (j : nat) p :
  ms !! j = Some p → 0 ≤ p < Z.of_nat (String.length s) →
  ∃ d, scoreStep s isFile ms (Z.of_nat j) = Some d
       ∧ int_wrap d
         = int_wrap ((if followsDelimiter s isFile p then Z.of_nat j + 1 else p)
                     + lowValuePenalty s).
Proof.
  intros Hj Hp. unfold scoreStep, followsDelimiter, lowValuePenalty.
  rewrite Nat2Z.id, Hj. simpl.
  destruct (Z.leb_spec 1 p) as [H1|H1]; simpl.
  - destruct (get_is_Some s (Z.to_nat (p - 1))) as [c Hc]; [lia|].
    unfold char_at. destruct (Z.ltb_spec (p - 1) 0); [lia|]. rewrite Hc. simpl.
    eexists. split; [done|].
    destruct (isDelim isFile c), (String.eqb _ ".rd");
      rewrite ?int_wrap_add_l, ?int_wrap_idemp, ?Z.add_0_r; done.
  - eexists. split; [done|].
    destruct (String.eqb _ ".rd");
      rewrite ?int_wrap_idemp, ?Z.add_0_r; done.
Qed.

Lemma scoreLoop_sum s isFile ms :
  (∀ p, p ∈ ms → 0 ≤ p < Z.of_nat (String.length s)) →
  ∀ n j result,
    (j + n ≤ length ms)%nat →
    int_wrap result = result →
    scoreLoop s isFile ms n (Z.of_nat j) result
    = Some (int_wrap
              (result
               + Zsum (take n (drop j
                   (imap (λ j matchPos,
                            (if followsDelimiter s isFile matchPos
                             then Z.of_nat j + 1 else matchPos)
                            + lowValuePenalty s) ms))))).
Proof.
  intros Hr. induction n as [|n IH]; intros j result Hn Hres; simpl.
  - f_equal. unfold Zsum. simpl. by rewrite Z.add_0_r, Hres.
  - destruct (lookup_lt_is_Some_2 ms j) as [p Hp]; [lia|].
    destruct (scoreStep_in_range s isFile ms j p Hp) as (d & -> & Hd);
      [apply Hr; by eapply list_elem_of_lookup_2|].
    simpl. replace (Z.of_nat j + 1) with (Z.of_nat (S j)) by lia.
    rewrite IH by (lia || apply int_wrap_idemp). f_equal.
    erewrite (drop_S _ _ j); [|by rewrite list_lookup_imap, Hp].
    unfold Zsum. simpl. fold (Zsum (take n (drop (S j)
      (imap (λ j matchPos,
               (if followsDelimiter s isFile matchPos
                then Z.of_nat j + 1 else matchPos) + lowValuePenalty s) ms)))).
    set (rest := Zsum _).
    rewrite int_wrap_add_l.
    replace (result + d + rest) with (result + rest + d) by lia.
    rewrite <- int_wrap_add_r, Hd, int_wrap_add_r. f_equal. lia.
Qed.

Lemma scoreLoop_needs_matches s isFile ms :
  ∀ n j result,
    (j ≤ length ms)%nat →
    is_Some (scoreLoop s isFile ms n (Z.of_nat j) result) →
    (j + n ≤ length ms)%nat.
Proof.
  induction n as [|n IH]; intros j result Hj; simpl; [intros _; lia|].
  destruct (scoreStep s isFile ms (Z.of_nat j)) as [d|] eqn:Hd; simpl;
    [|by intros [? ?]].
  unfold scoreStep in Hd. rewrite Nat2Z.id in Hd.
  destruct (ms !! j) as [p|] eqn:Hp; [|done].
  apply lookup_lt_Some in Hp.
  replace (Z.of_nat j + 1) with (Z.of_nat (S j)) by lia.
  intros H%IH; lia.
Qed.

(** The score of a subsequence match, whatever the lengths: the sum of the
    closed form as a 32-bit [int] holds it. *)
Lemma scoreMatch_closed_form_wrapped (suggestion query : string) (isFile : bool) :
  isSubsequence suggestion query (String.length query) true = true →
  scoreMatch suggestion query isFile
  = Some (int_wrap (scoreMatch_queryIndexPlusOne suggestion query isFile)).
Proof.
  intros Hsub.
  unfold scoreMatch, scoreMatch_queryIndexPlusOne.
  destruct (String.eqb suggestion query); [done|].
  pose proof (matchPositions_length suggestion query) as Hlen.
  rewrite Hsub in Hlen. fold (matchPositions suggestion query).
  pose proof (scoreLoop_sum suggestion isFile (matchPositions suggestion query)
                (matchPositions_range suggestion query)
                (String.length query) 0%nat 0) as Hsum.
  change (Z.of_nat 0) with 0 in Hsum. rewrite Hsum by (simpl; lia || done).
  simpl. rewrite drop_0, take_ge by (rewrite length_imap; lia).
  f_equal. destruct isFile; [by rewrite int_wrap_add_l|by rewrite Z.add_0_r].
Qed.

Lemma scoreMatch_total_iff (suggestion query : string) (isFile : bool) :
  is_Some (scoreMatch suggestion query isFile)
  ↔ suggestion = query
    ∨ isSubsequence suggestion query (String.length query) true = true.
Proof.
  split.
  - unfold scoreMatch. destruct (String.eqb_spec suggestion query); [by left|].
    intros H. right.
    fold (matchPositions suggestion query) in H.
    destruct (scoreLoop _ _ _ _ 0 0) as [r|] eqn:Hl; [|by destruct H].
    pose proof (scoreLoop_needs_matches suggestion isFile
                  (matchPositions suggestion query) (String.length query) 0 0) as Hn.
    change (Z.of_nat 0) with 0 in Hn. rewrite Hl in Hn.
    specialize (Hn (Nat.le_0_l _) (mk_is_Some _ _ eq_refl)). simpl in Hn.
    pose proof (matchPositions_length suggestion query) as Hlen.
    destruct (isSubsequence _ _ _ _); [done|lia].
  - intros [->|Hsub].
    + unfold scoreMatch. rewrite String.eqb_refl. by eexists.
    + rewrite (scoreMatch_closed_form_wrapped _ _ isFile Hsub). by eexists.
Qed.

Lemma isSubsequence_list_length q :
  ∀ s, isSubsequence_list s q = true → (length q ≤ length s)%nat.
Proof.
  induction q as [|c q IH]; intros s; simpl; [lia|].
  destruct (find_char c s) as [i|] eqn:Hf; [|done].
  apply find_char_lt in Hf. intros H%IH. rewrite length_drop in H. lia.
Qed.

Lemma Zsum_bounds (B : Z) (l : list Z) :
  Forall (λ x, 0 ≤ x ≤ B) l → 0 ≤ Zsum l ≤ Z.of_nat (length l) * B.
Proof.
  induction 1 as [|x l Hx _ IH]; unfold Zsum in *; simpl; [lia|]. nia.
Qed.

(** The sum of the closed form is at most
    [|query| * (|suggestion| + 3) + 1]. *)
Lemma closed_form_bounds (suggestion query : string) (isFile : bool) :
  isSubsequence suggestion query (String.length query) true = true →
  0 ≤ scoreMatch_queryIndexPlusOne suggestion query isFile
    ≤ Z.of_nat (String.length query) * (Z.of_nat (String.length suggestion) + 3) + 1.
Proof.
  intros Hsub.
  unfold scoreMatch_queryIndexPlusOne.
  destruct (String.eqb suggestion query); [lia|].
  pose proof (matchPositions_length suggestion query) as Hlen. rewrite Hsub in Hlen.
  assert (String.length query ≤ String.length suggestion)%nat as Hle.
  { rewrite isSubsequence_whole in Hsub. apply isSubsequence_list_length in Hsub.
    unfold to_lower_list in Hsub.
    by rewrite !length_map, !length_list_ascii_of_string in Hsub. }
  pose proof (Zsum_bounds (Z.of_nat (String.length suggestion) + 3)
    (imap (λ j matchPos,
             (if followsDelimiter suggestion isFile matchPos
              then Z.of_nat j + 1 else matchPos) + lowValuePenalty suggestion)
          (matchPositions suggestion query))) as Hb.
  rewrite length_imap, Hlen in Hb.
  assert (0 ≤ (if isFile then 1 else 0) ≤ 1) by (destruct isFile; lia).
  enough (Forall (λ x, 0 ≤ x ≤ Z.of_nat (String.length suggestion) + 3)
            (imap (λ j matchPos,
               (if followsDelimiter suggestion isFile matchPos
                then Z.of_nat j + 1 else matchPos) + lowValuePenalty suggestion)
               (matchPositions suggestion query))) as HF
    by (specialize (Hb HF); lia).
  apply Forall_lookup. intros j x Hx.
  rewrite list_lookup_imap in Hx.
  destruct (matchPositions suggestion query !! j) as [p|] eqn:Hp; [|done].
  injection Hx as <-.
  apply lookup_lt_Some in Hp as Hj.
  apply list_elem_of_lookup_2, matchPositions_range in Hp.
  unfold lowValuePenalty.
  destruct (followsDelimiter _ _ _), (String.eqb _ ".rd"); lia.
Qed.

(** While [|query| * (|suggestion| + 3) + 1] fits an [int] nothing wraps:
    the score is the sum of the closed form. *)
Lemma scoreMatch_closed_form (suggestion query : string) (isFile : bool) :
  isSubsequence suggestion query (String.length query) true = true →
  Z.of_nat (String.length query) * (Z.of_nat (String.length suggestion) + 3) + 1
    ≤ 2147483647 →
  scoreMatch suggestion query isFile
  = Some (scoreMatch_queryIndexPlusOne suggestion query isFile).
Proof.
  intros Hsub Hfit. rewrite (scoreMatch_closed_form_wrapped _ _ _ Hsub).
  pose proof (closed_form_bounds suggestion query isFile Hsub).
  rewrite int_wrap_small by lia. done.
Qed.

(** A score is a 32-bit [int]; while [|query| * (|suggestion| + 3) + 1] fits
    an [int] it lies between 0 and that number. *)
Lemma scoreMatch_bounds (suggestion query : string) (isFile : bool) (score : Z) :
  scoreMatch suggestion query isFile = Some score →
  -2147483648 ≤ score < 2147483648
  ∧ (Z.of_nat (String.length query) * (Z.of_nat (String.length suggestion) + 3) + 1
       ≤ 2147483647 →
     0 ≤ score
       ≤ Z.of_nat (String.length query)
         * (Z.of_nat (String.length suggestion) + 3) + 1).
Proof.
  intros Hs.
  assert (is_Some (scoreMatch suggestion query isFile)) as [->|Hsub]%scoreMatch_total_iff
    by by eexists.
  { unfold scoreMatch in Hs. rewrite String.eqb_refl in Hs. injection Hs as <-. lia. }
  rewrite (scoreMatch_closed_form_wrapped _ _ _ Hsub) in Hs. injection Hs as <-.
  split; [apply int_wrap_range|]. intros Hfit.
  pose proof (closed_form_bounds suggestion query isFile Hsub).
  rewrite int_wrap_small by lia. done.
Qed.

(** C6, as amended.  For a query that is a case-insensitive subsequence of
    the suggestion, and names short enough that
    [|query| * (|suggestion| + 3) + 1] fits a 32-bit [int], [scoreMatch]
    returns 0 on an exact match and otherwise the sum over the matched
    positions of the position, or of the query index plus one when the
    matched character follows '_' or '-' (or '.' for a non-file), plus 3 per
    matched character for the extension ".rd" in any case, plus 1 for a
    file.  In particular [scoreMatch "foo" "foo"] is 0. *)
Theorem scoreMatch_sums_positions (suggestion query : string) (isFile : bool) :
  isSubsequence suggestion query (String.length query) true = true →
  Z.of_nat (String.length query) * (Z.of_nat (String.length suggestion) + 3) + 1
    ≤ 2147483647 →
  scoreMatch suggestion query isFile
  = Some (scoreMatch_queryIndexPlusOne suggestion query isFile)
  ∧ scoreMatch query query isFile = Some 0
  ∧ scoreMatch "foo" "foo" isFile = Some 0.
Proof.
  intros Hsub Hfit. split; [by apply scoreMatch_closed_form|]. split; [|done].
  unfold scoreMatch. by rewrite String.eqb_refl.
Qed.

(** The query "gv" against "get_value". *)
Lemma scoreMatch_sums_positions_witness :
  scoreMatch "get_value" "gv" false
  = Some (scoreMatch_queryIndexPlusOne "get_value" "gv" false)
  ∧ scoreMatch "gv" "gv" false = Some 0
  ∧ scoreMatch "foo" "foo" false = Some 0.
Proof.
  apply (scoreMatch_sums_positions "get_value" "gv" false);
    [reflexivity|vm_compute; discriminate].
Defined.

(** C6, the counterexample.  In "get_value" the 'v' of the query "gv" follows
    '_': the code adds 2 for it (query index 1, plus one), the scoring as
    documented adds the query index 1. *)
Lemma delimiter_bonus_is_query_index_plus_one :
  isSubsequence "get_value" "gv" 2 true = true
  ∧ scoreMatch "get_value" "gv" false = Some 2
  ∧ scoreMatch_documented "get_value" "gv" false = 1.
Proof. repeat split. Qed.

(* ===================================================================== *)
(** ** The query side *)
(* ===================================================================== *)

Lemma StronglySorted_impl {A} (R1 R2 : relation A) l :
  (∀ x y, R1 x y → R2 x y) → StronglySorted R1 l → StronglySorted R2 l.
Proof.
  intros HR. induction 1 as [|x l _ IH Hx]; constructor; [done|].
  eapply Forall_impl; [exact Hx|]. auto.
Qed.

Lemma comparator_score_le a b : ScorePairComparator b a = false ↔ score_le a b.
Proof. unfold ScorePairComparator, score_le. rewrite Z.ltb_ge. done. Qed.

#[local] Instance score_le_trans : Transitive score_le.
Proof. unfold score_le. intros a b c. lia. Qed.
#[local] Instance score_le_total : Total score_le.
Proof. unfold score_le. intros a b. lia. Qed.

Lemma stableSort_contract : std_sort_contract stableSort.
Proof.
  intros l. split; [apply merge_sort_Permutation|].
  eapply StronglySorted_impl; [|apply (StronglySorted_merge_sort score_le)].
  intros x y. by rewrite comparator_score_le.
Qed.

Lemma scoreCandidates_spec {A} (nm : A → string) term isFile (v : list A) :
  ∀ (pre : list A) sc,
    scoreCandidates (nm <$> v) term isFile (Z.of_nat (length pre)) = Some sc →
    length sc = length v
    ∧ Forall (scoredFrom (pre ++ v) nm term isFile) sc.
Proof.
  induction v as [|x v IH]; intros pre sc; simpl.
  - intros [= <-]. split; [done|constructor].
  - destruct (scoreMatch (nm x) term isFile) as [s|] eqn:Hs; simpl; [|done].
    replace (Z.of_nat (length pre) + 1) with (Z.of_nat (length (pre ++ [x])))
      by (rewrite length_app; simpl; lia).
    destruct (scoreCandidates _ _ _ _) as [r|] eqn:Hr; simpl; [|done].
    intros [= <-]. apply IH in Hr as [Hlen Hall].
    rewrite <- app_assoc in Hall. simpl in *. split; [by rewrite Hlen|].
    constructor; [|done]. split; [simpl; lia|]. exists x. simpl.
    rewrite Nat2Z.id. split; [|done]. by rewrite list_lookup_middle.
Qed.

Lemma scoreCandidates_items {A} (nm : A → string) term isFile (v : list A) sc :
  scoreCandidates (nm <$> v) term isFile 0 = Some sc →
  length sc = length v ∧ Forall (scoredFrom v nm term isFile) sc.
Proof. apply (scoreCandidates_spec nm term isFile v []). Qed.

Lemma scoreCandidates_names term isFile (v : list string) sc :
  scoreCandidates v term isFile 0 = Some sc →
  length sc = length v ∧ Forall (scoredFrom v id term isFile) sc.
Proof.
  intros H. apply scoreCandidates_items. by rewrite list_fmap_id.
Qed.

Lemma pick_scores {A} (nm : A → string) term isFile (v : list A) sc picked :
  Forall (scoredFrom v nm term isFile) sc →
  pick v sc = Some picked →
  mapM (λ x, scoreMatch (nm x) term isFile) picked = Some (snd <$> sc).
Proof.
  unfold pick. intros Hall Hp. apply mapM_Some in Hp. apply mapM_Some.
  induction Hp as [|p x sc picked Hpx _ IH]; [constructor|].
  apply Forall_cons in Hall as [(H0 & y & Hy & Hs) Hall]. simpl.
  constructor; [|by apply IH].
  destruct (Z.ltb_spec p.1 0); [done|]. by assert (x = y) as -> by congruence.
Qed.

Lemma pick_is_Some {A} (nm : A → string) term isFile (v : list A) sc :
  Forall (scoredFrom v nm term isFile) sc → is_Some (pick v sc).
Proof.
  intros Hall. apply mapM_is_Some. eapply Forall_impl; [exact Hall|].
  intros p (H0 & y & Hy & _). simpl. destruct (Z.ltb_spec p.1 0); [lia|]. by eexists.
Qed.

(** What [rank] computed when it answers. *)
Lemma rank_inv sort c term maxResults r :
  rank sort c term maxResults = Some r →
  ∃ fs0 ss0 c1 c2,
    scoreCandidates (names c) term true 0 = Some fs0
    ∧ scoreCandidates (si_name <$> srcItems c) term false 0 = Some ss0
    ∧ pick (names c) (take c1 (sort fs0)) = Some (file_filename r)
    ∧ pick (paths c) (take c1 (sort fs0)) = Some (file_path r)
    ∧ pick (srcItems c) (take c2 (sort ss0)) = Some (source_items r)
    ∧ more_available r
      = (length (take c1 (sort fs0)) <? length (sort fs0))%nat
        || (length (take c2 (sort ss0)) <? length (sort ss0))%nat.
Proof.
  unfold rank, scorePhase, filterScores.
  destruct (scoreCandidates (names c) term true 0) as [fs0|]; simpl; [|done].
  destruct (scoreCandidates (si_name <$> srcItems c) term false 0) as [ss0|];
    simpl; [|done].
  destruct (filterScores_loop _ _ _ 0 0) as [c1 c2].
  destruct (pick (names c) _) as [nf|] eqn:Hn; simpl; [|done].
  destruct (pick (paths c) _) as [pf|] eqn:Hp; simpl; [|done].
  destruct (pick (srcItems c) _) as [sf|] eqn:Hs; simpl; [|done].
  intros [= <-]. simpl. by exists fs0, ss0, c1, c2.
Qed.

Lemma rank_more_available sort c term maxResults r :
  std_sort_contract sort →
  rank sort c term maxResults = Some r →
  more_available r = true
  ↔ (length (file_filename r) + length (source_items r)
     < length (names c) + length (srcItems c))%nat.
Proof.
  intros Hsort (fs0 & ss0 & c1 & c2 & Hf & Hs & Hpn & _ & Hps & ->)%rank_inv.
  apply length_mapM in Hpn, Hps. rewrite <- Hpn, <- Hps.
  apply scoreCandidates_names in Hf as [Hlf _].
  apply scoreCandidates_items in Hs as [Hls _].
  destruct (Hsort fs0) as [Hpf _], (Hsort ss0) as [Hpss _].
  apply Permutation_length in Hpf, Hpss.
  rewrite orb_true_iff, !Nat.ltb_lt, !length_take. lia.
Qed.

Lemma rank_ascending sort c term maxResults r :
  std_sort_contract sort →
  rank sort c term maxResults = Some r →
  ∃ fileScores srcItemScores,
    mapM (λ name, scoreMatch name term true) (file_filename r) = Some fileScores
    ∧ StronglySorted Z.le fileScores
    ∧ mapM (λ it, scoreMatch (si_name it) term false) (source_items r)
      = Some srcItemScores
    ∧ StronglySorted Z.le srcItemScores.
Proof.
  intros Hsort (fs0 & ss0 & c1 & c2 & Hf & Hs & Hpn & _ & Hps & _)%rank_inv.
  apply scoreCandidates_names in Hf as [_ Hf].
  apply scoreCandidates_items in Hs as [_ Hs].
  destruct (Hsort fs0) as [Hpf Hsf], (Hsort ss0) as [Hpss Hss].
  exists (snd <$> take c1 (sort fs0)), (snd <$> take c2 (sort ss0)).
  assert (∀ l n, StronglySorted (λ a b : ScorePair, ScorePairComparator b a = false) l →
                 StronglySorted Z.le (snd <$> take n l)) as Hsorted.
  { intros l n Hl. apply StronglySorted_fmap with (R1 := score_le); [by intros ???|].
    rewrite <- (take_drop n l) in Hl. apply StronglySorted_app_1_l in Hl.
    eapply StronglySorted_impl; [|exact Hl]. intros x y. by rewrite comparator_score_le. }
  split; [|split; [by apply Hsorted|split; [|by apply Hsorted]]].
  - apply (pick_scores id term true (names c)); [|done].
    apply Forall_take. by rewrite Hpf.
  - apply (pick_scores si_name term false (srcItems c)); [|done].
    apply Forall_take. by rewrite Hpss.
Qed.

(** ** Collection bounds *)

Lemma enforceMaxResults_length maxResults pNames pPaths more :
  length pPaths = length pNames →
  let '(names, paths, _, _) :=
    enforceMaxResults maxResults pNames pPaths more in
  length paths = length names
  ∧ (length names ≤ maxResults `max` length pNames)%nat
  ∧ (length names ≤ length pNames)%nat.
Proof.
  intros Hl. unfold enforceMaxResults.
  destruct (Nat.ltb_spec maxResults (length pNames)); simpl.
  - rewrite !length_take. lia.
  - lia.
Qed.

Lemma searchFiles_loop_length h term maxResults prefixOnly s :
  ∀ pNames pPaths more,
    length pPaths = length pNames → (length pNames ≤ maxResults)%nat →
    let r := searchFiles_loop h term maxResults prefixOnly s pNames pPaths more in
    length r.1.2 = length r.1.1 ∧ (length r.1.1 ≤ maxResults)%nat.
Proof.
  induction s as [|entry s IH]; intros pNames pPaths more Hl Hm; simpl; [done|].
  destruct (fileMatches _ _ _ _); [|by apply IH].
  unfold enforceMaxResults. rewrite !length_app. simpl.
  destruct (Nat.ltb_spec maxResults (length pNames + 1)); simpl.
  - rewrite !length_take, !length_app. simpl. lia.
  - apply IH; rewrite !length_app; simpl; lia.
Qed.

Lemma searchSourceDatabaseFiles_loop_length h term maxResults indexes :
  ∀ pNames pPaths more,
    length pPaths = length pNames → (length pNames ≤ maxResults)%nat →
    let r := searchSourceDatabaseFiles_loop h indexes term maxResults
               pNames pPaths more in
    length r.1.2 = length r.1.1 ∧ (length r.1.1 ≤ maxResults)%nat.
Proof.
  induction indexes as [|idx rest IH]; intros pNames pPaths more Hl Hm; simpl; [done|].
  destruct (String.eqb (context idx) ""); [by apply IH|].
  destruct (if hasWildcard term then _ else _); [|by apply IH].
  unfold enforceMaxResults. rewrite !length_app. simpl.
  destruct (Nat.ltb_spec maxResults (length pNames + 1)); simpl.
  - rewrite !length_take, !length_app. simpl. lia.
  - apply IH; rewrite !length_app; simpl; lia.
Qed.

Lemma searchFiles_length h indexes ix term maxResults :
  let r := Query.searchFiles h indexes ix term maxResults [] [] in
  length r.1.2 = length r.1.1 ∧ (length r.1.1 ≤ maxResults)%nat.
Proof.
  unfold Query.searchFiles. destruct (hasFileMonitor h).
  - apply searchFiles_loop_length; simpl; [done|lia].
  - apply searchSourceDatabaseFiles_loop_length; simpl; [done|lia].
Qed.

Lemma searchSourceDatabase_length h term maxResults prefixOnly indexes :
  ∀ pItems ctxs,
    (length pItems ≤ maxResults)%nat →
    (length (searchSourceDatabase h indexes term maxResults prefixOnly
               pItems ctxs).1 ≤ maxResults)%nat.
Proof.
  induction indexes as [|idx rest IH]; intros pItems ctxs Hl; simpl; [done|].
  destruct (negb (sourceDatabaseFilter h idx)); [by apply IH|].
  destruct (Nat.leb_spec maxResults (length (pItems ++ rsearch h idx term prefixOnly false))).
  - simpl. rewrite length_take. lia.
  - apply IH. lia.
Qed.

Lemma addProjectItems_take maxResults projItems :
  ∀ pItems more,
    (length pItems ≤ maxResults)%nat →
    (addProjectItems maxResults projItems pItems more).1
    = take maxResults (pItems ++ projItems).
Proof.
  induction projItems as [|x rest IH]; intros pItems more Hl; simpl.
  - rewrite app_nil_r, take_ge; [done|lia].
  - destruct (Nat.ltb_spec maxResults (length (pItems ++ [x]))) as [Hlt|Hge]; simpl.
    + rewrite (cons_middle x pItems rest), app_assoc.
      rewrite (take_app_le (pItems ++ [x])) by lia. done.
    + rewrite IH by done. by rewrite <- app_assoc.
Qed.

Lemma searchSource_take h indexes ix term maxResults prefixOnly :
  let passes := searchSource_passes h indexes ix term maxResults prefixOnly [] in
  (Query.searchSource h indexes ix term maxResults prefixOnly []).1
  = take maxResults (passes.1.1 ++ passes.2).
Proof.
  unfold Query.searchSource, searchSource_passes.
  pose proof (searchSourceDatabase_length h term maxResults prefixOnly indexes [] ∅)
    as Hl.
  destruct (searchSourceDatabase h indexes term maxResults prefixOnly [] ∅)
    as [dbItems ctxs]. simpl in *. specialize (Hl (Nat.le_0_l _)).
  destruct (Nat.ltb_spec maxResults (length dbItems)); [lia|].
  by apply addProjectItems_take.
Qed.

Lemma searchSource_length h indexes ix term maxResults prefixOnly :
  (length (Query.searchSource h indexes ix term maxResults prefixOnly []).1
   ≤ maxResults)%nat.
Proof. rewrite searchSource_take, length_take. lia. Qed.

(** ** The exclusion set *)

Lemma rsearch_context h idx term prefixOnly cs it :
  it ∈ rsearch h idx term prefixOnly cs → ri_context it = context idx.
Proof.
  unfold rsearch. intros (x & -> & _)%list_elem_of_fmap. done.
Qed.

Lemma searchSource_loop_excludes h term maxResults prefixOnly exclude s :
  ∀ pItems,
    Forall (λ it, ri_context it ∉ exclude) pItems →
    Forall (λ it, ri_context it ∉ exclude)
      (searchSource_loop h term maxResults prefixOnly exclude s pItems).
Proof.
  induction s as [|entry s IH]; intros pItems Hp; simpl; [done|].
  destruct (pIndex entry) as [idx|]; [|by apply IH].
  case_bool_decide as Hin; [by apply IH|].
  assert (Forall (λ it, ri_context it ∉ exclude)
            (pItems ++ rsearch h idx term prefixOnly false)) as Hp1.
  { apply Forall_app. split; [done|]. apply Forall_forall.
    intros it Hit. by rewrite (rsearch_context _ _ _ _ _ _ Hit). }
  destruct (_ <=? _)%nat; [by apply Forall_take|by apply IH].
Qed.

Lemma searchSource_loop_no_budget h term prefixOnly exclude s :
  searchSource_loop h term 0 prefixOnly exclude s [] = [].
Proof.
  induction s as [|entry s IH]; simpl; [done|].
  destruct (pIndex entry) as [idx|]; [|done].
  by case_bool_decide.
Qed.

(** The source-database pass either recorded every document that passes the
    filter, or used up the whole budget. *)
Lemma searchSourceDatabase_covers h term maxResults prefixOnly indexes :
  ∀ pItems ctxs,
    let r := searchSourceDatabase h indexes term maxResults prefixOnly pItems ctxs in
    ctxs ⊆ r.2
    ∧ ((∀ idx, idx ∈ indexes → sourceDatabaseFilter h idx = true →
               context idx ∈ r.2)
       ∨ (maxResults ≤ length r.1)%nat).
Proof.
  induction indexes as [|idx rest IH]; intros pItems ctxs; simpl.
  - split; [done|]. left. by intros idx ?%elem_of_nil.
  - destruct (sourceDatabaseFilter h idx) eqn:Hf; simpl.
    + destruct (Nat.leb_spec maxResults
                  (length (pItems ++ rsearch h idx term prefixOnly false))).
      * simpl. split; [apply union_subseteq_r|]. right. rewrite length_take. lia.
      * destruct (IH (pItems ++ rsearch h idx term prefixOnly false)
                     ({[context idx]} ∪ ctxs)) as [Hsub Hcov].
        split; [etrans; [apply union_subseteq_r|exact Hsub]|].
        destruct Hcov as [Hcov|Hfull]; [left|by right].
        intros idx' [->|Hin]%elem_of_cons Hf'; [|by apply Hcov].
        apply Hsub, elem_of_union_l. by apply elem_of_singleton.
    + destruct (IH pItems ctxs) as [Hsub Hcov]. split; [done|].
      destruct Hcov as [Hcov|Hfull]; [left|by right].
      intros idx' [->|Hin]%elem_of_cons Hf'; [congruence|by apply Hcov].
Qed.

Lemma filter_none {A} (P : A → Prop) `{∀ x, Decision (P x)} (l : list A) :
  Forall (λ x, ¬ P x) l → filter P l = [].
Proof.
  induction 1 as [|x l Hx _ IH]; [done|]. by rewrite filter_cons_False.
Qed.

(** What the Entry Store pass of [searchSource] returns beside a live
    document [L] in scope: nothing with a context recorded by the
    source-database pass, and nothing with the context of [L], whether or not
    the budget let the first pass reach [L]. *)
Lemma entry_store_pass_skips_live_contexts (h : Host)
    (indexes : list RSourceIndex) (ix : SourceFileIndex) (term : string)
    (maxResults : nat) (prefixOnly : bool) (L : RSourceIndex) :
  L ∈ indexes →
  sourceDatabaseFilter h L = true →
  let passes := searchSource_passes h indexes ix term maxResults prefixOnly [] in
  (∀ it, it ∈ passes.2 → ri_context it ∉ passes.1.2)
  ∧ (∀ it, it ∈ passes.2 → ri_context it ≠ context L).
Proof.
  intros HL Hf passes.
  assert (∀ it, it ∈ passes.2 → ri_context it ∉ passes.1.2) as Hex.
  { unfold passes, searchSource_passes.
    destruct (searchSourceDatabase _ _ _ _ _ _ _) as [db ctxs]. simpl.
    apply Forall_forall. by apply searchSource_loop_excludes. }
  split; [done|].
  pose proof (searchSourceDatabase_covers h term maxResults prefixOnly
                indexes [] ∅) as [_ Hcov].
  pose proof (searchSourceDatabase_length h term maxResults prefixOnly
                indexes [] ∅ (Nat.le_0_l _)) as Hlen.
  revert Hex. unfold passes, searchSource_passes.
  destruct (searchSourceDatabase _ _ _ _ _ _ _) as [db ctxs]. simpl in *.
  intros Hex it Hit E. destruct Hcov as [Hcov|Hfull].
  - apply (Hex it Hit). rewrite E. by apply Hcov.
  - replace (maxResults - length db)%nat with 0%nat in Hit by lia.
    unfold Index.searchSource in Hit.
    rewrite searchSource_loop_no_budget in Hit. by apply elem_of_nil in Hit.
Qed.

(** C7, as amended.  Whatever order [std::sort] leaves equal scores in, each
    bucket of a [searchCode] response is in ascending order of the score that
    [scoreMatch] gives its candidates. *)
Theorem buckets_ascend_by_score (sort : list ScorePair → list ScorePair)
    (h : Host) (indexes : list RSourceIndex) (ix : SourceFileIndex)
    (term : string) (maxResultsInt : Z) (r : Response) :
  std_sort_contract sort →
  searchCode sort h indexes ix term maxResultsInt = Some r →
  ∃ fileScores srcItemScores,
    mapM (λ name, scoreMatch name term true) (file_filename r) = Some fileScores
    ∧ StronglySorted Z.le fileScores
    ∧ mapM (λ it, scoreMatch (si_name it) term false) (source_items r)
      = Some srcItemScores
    ∧ StronglySorted Z.le srcItemScores.
Proof. intros Hsort Hr. by eapply rank_ascending. Qed.

(** Two files of equal score, sorted by a stable sort. *)
Lemma buckets_ascend_by_score_witness :
  ∃ fileScores srcItemScores,
    mapM (λ name, scoreMatch name "a" true) ["xa.c"; "ya.c"]%string
    = Some fileScores
    ∧ StronglySorted Z.le fileScores
    ∧ mapM (λ it, scoreMatch (si_name it) "a" false) [] = Some srcItemScores
    ∧ StronglySorted Z.le srcItemScores.
Proof.
  apply (buckets_ascend_by_score stableSort demoHost [] tiedFiles "a" 20
           (mkResponse ["xa.c"; "ya.c"]%string ["/p/xa.c"; "/p/ya.c"]%string
                       [] false)).
  - apply stableSort_contract.
  - vm_compute. reflexivity.
Defined.

(** C7, the counterexample.  Twenty files whose names score the same for
    the term "a", in a request for 20 results: [std::sort] partitions a
    vector of more than sixteen elements around a pivot, which exchanges
    equal elements, and the files come back in an order that is not their
    scan order. *)
Lemma equal_scores_may_leave_scan_order :
  names (collect demoHost [] twentyTied "a")
  = ["ba.c"; "ca.c"; "da.c"; "ea.c"; "fa.c"; "ga.c"; "ha.c"; "ia.c"; "ja.c";
     "ka.c"; "la.c"; "ma.c"; "na.c"; "oa.c"; "pa.c"; "qa.c"; "ra.c"; "sa.c";
     "ta.c"; "ua.c"]%string
  ∧ mapM (λ name, scoreMatch name "a" true)
         (names (collect demoHost [] twentyTied "a"))
    = Some (replicate 20 2)
  ∧ (λ v : list ScorePair, v.*1)
      <$> libstdcxx.sort ScorePairComparator
            ((λ i, (Z.of_nat i, 2)) <$> seq 0 20)
    = Some [10; 19; 18; 17; 16; 15; 14; 13; 12; 11; 0; 9; 8; 7; 6; 5; 4; 3; 2; 1]
  ∧ file_filename <$> searchCode gnuSort demoHost [] twentyTied "a" 20
    = Some ["la.c"; "ua.c"; "ta.c"; "sa.c"; "ra.c"; "qa.c"; "pa.c"; "oa.c";
            "na.c"; "ma.c"; "ba.c"; "ka.c"; "ja.c"; "ia.c"; "ha.c"; "ga.c";
            "fa.c"; "ea.c"; "da.c"; "ca.c"]%string.
Proof. repeat split; vm_compute; reflexivity. Qed.

Lemma filterScores_nil K : filterScores [] [] K = ([], []).
Proof.
  unfold filterScores.
  assert (∀ n, filterScores_loop [] [] n 0 0 = (0%nat, 0%nat)) as ->; [|done].
  induction n as [|n IH]; [done|]. simpl. exact IH.
Qed.

(** C8, the counterexample.  The file monitor is disabled, the project index
    cleared, and the query issued next still returns a file and a symbol:
    those of the document open in the editor.  (Were the monitor still
    reported as running, the symbol would be returned all the same.) *)
Lemma live_documents_answer_after_disabling :
  entries_ oneRFile ≠ []
  ∧ searchCode stableSort unmonitoredHost [liveDoc "/p/ab.R" "abd"]
      (onFileMonitorDisabled oneRFile) "ab" 20
    = Some (mkResponse ["ab.R"]%string ["/p/ab.R"]%string
              [mkSourceItem SFunction "abd" "" "/p/ab.R" 1 1] false)
  ∧ searchCode stableSort demoHost [liveDoc "/p/ab.R" "abd"]
      (onFileMonitorDisabled oneRFile) "ab" 20
    = Some (mkResponse [] []
              [mkSourceItem SFunction "abd" "" "/p/ab.R" 1 1] false).
Proof. split; [done|]. split; vm_compute; reflexivity. Qed.

Lemma collect_bounds (sort : list ScorePair → list ScorePair) (h : Host)
    (indexes : list RSourceIndex) (ix : SourceFileIndex) (term : string)
    (maxResultsInt : Z) :
  std_sort_contract sort →
  let c := collect h indexes ix term in
  (length (names c) ≤ 100)%nat
  ∧ length (paths c) = length (names c)
  ∧ (length (rSrcItems c) ≤ 100)%nat
  ∧ length (srcItems c)
    = (length (rSrcItems c) + length (searchDefinitions h term))%nat
  ∧ (∀ r, searchCode sort h indexes ix term maxResultsInt = Some r →
          more_available r = true
          ↔ (length (file_filename r) + length (source_items r)
             < length (names c) + length (srcItems c))%nat).
Proof.
  intros Hsort c.
  pose proof (searchFiles_length h indexes ix term 100) as [Hp Hn].
  pose proof (searchSource_length h indexes ix term 100 false) as Hs.
  split; [|split; [|split; [|split]]].
  - unfold c, collect.
    destruct (Query.searchFiles h indexes ix term 100 [] []) as [[ns ps] mf].
    by destruct (Query.searchSource h indexes ix term 100 false [])  as [rs ms].
  - unfold c, collect.
    destruct (Query.searchFiles h indexes ix term 100 [] []) as [[ns ps] mf].
    by destruct (Query.searchSource h indexes ix term 100 false [])  as [rs ms].
  - unfold c, collect.
    destruct (Query.searchFiles h indexes ix term 100 [] []) as [[ns ps] mf].
    by destruct (Query.searchSource h indexes ix term 100 false [])  as [rs ms].
  - unfold c, collect.
    destruct (Query.searchFiles h indexes ix term 100 [] []) as [[ns ps] mf].
    destruct (Query.searchSource h indexes ix term 100 false [])  as [rs ms].
    cbn [srcItems rSrcItems]. by rewrite length_app, !length_fmap.
  - intros r Hr. by eapply rank_more_available.
Qed.

Lemma truncated_collection_example :
  length (matchingFiles demoHost manyMatches "f") = 101%nat
  ∧ collectedMoreFiles (collect demoHost [] manyMatches "f") = true
  ∧ more_available <$> searchCode stableSort demoHost [] manyMatches "f" 200
    = Some false.
Proof. split; [vm_compute; reflexivity|]. split; vm_compute; reflexivity. Qed.

(** C10, as amended.  [searchCode] collects at most 100 file candidates and at
    most 100 R symbols; the C++ definitions are appended to the symbol
    candidates without a cap.  The [more_available] flag of the response says
    whether the merge dropped a candidate, and nothing else: with 101 matching
    files in the index and a cap of 200 the collection reports a truncation
    and the response says that no more is available. *)
Theorem collection_is_capped_and_flag_recomputed
    (sort : list ScorePair → list ScorePair) (h : Host)
    (indexes : list RSourceIndex) (ix : SourceFileIndex) (term : string)
    (maxResultsInt : Z) :
  std_sort_contract sort →
  let c := collect h indexes ix term in
  ((length (names c) ≤ 100)%nat
   ∧ length (paths c) = length (names c)
   ∧ (length (rSrcItems c) ≤ 100)%nat
   ∧ length (srcItems c)
     = (length (rSrcItems c) + length (searchDefinitions h term))%nat
   ∧ (∀ r, searchCode sort h indexes ix term maxResultsInt = Some r →
           more_available r = true
           ↔ (length (file_filename r) + length (source_items r)
              < length (names c) + length (srcItems c))%nat))
  ∧ (length (matchingFiles demoHost manyMatches "f") = 101%nat
     ∧ collectedMoreFiles (collect demoHost [] manyMatches "f") = true
     ∧ more_available <$> searchCode stableSort demoHost [] manyMatches "f" 200
       = Some false).
Proof.
  intros Hsort c. split.
  - by apply collect_bounds.
  - exact truncated_collection_example.
Qed.

(** The index of 101 matching files, queried with a cap of 200. *)
Lemma collection_is_capped_and_flag_recomputed_witness :
  let c := collect demoHost [] manyMatches "f" in
  ((length (names c) ≤ 100)%nat
   ∧ length (paths c) = length (names c)
   ∧ (length (rSrcItems c) ≤ 100)%nat
   ∧ length (srcItems c)
     = (length (rSrcItems c) + length (searchDefinitions demoHost "f"))%nat
   ∧ (∀ r, searchCode stableSort demoHost [] manyMatches "f" 200 = Some r →
           more_available r = true
           ↔ (length (file_filename r) + length (source_items r)
              < length (names c) + length (srcItems c))%nat))
  ∧ (length (matchingFiles demoHost manyMatches "f") = 101%nat
     ∧ collectedMoreFiles (collect demoHost [] manyMatches "f") = true
     ∧ more_available <$> searchCode stableSort demoHost [] manyMatches "f" 200
       = Some false).
Proof.
  apply (collection_is_capped_and_flag_recomputed stableSort demoHost []
           manyMatches "f" 200).
  apply stableSort_contract.
Defined.

(** C10, the counterexample.  A live document gives 100 matching R symbols and
    the C++ definition index one more: 101 symbol candidates are collected,
    and 101 are scored. *)
Lemma cpp_definitions_pass_the_symbol_cap :
  let c := collect cppHost [liveDocMany "/p/a.R" "f" 100] empty_index "f" in
  length (rSrcItems c) = 100%nat
  ∧ length (srcItems c) = 101%nat
  ∧ (λ scores, length scores.2) <$> scorePhase stableSort c "f" = Some 101%nat.
Proof. split; [vm_compute; reflexivity|]. split; vm_compute; reflexivity. Qed.

Lemma scoreCandidates_is_Some term isFile (l : list string) :
  ∀ i, is_Some (scoreCandidates l term isFile i)
       ↔ Forall (λ name, is_Some (scoreMatch name term isFile)) l.
Proof.
  induction l as [|name l IH]; intros i; simpl.
  - split; [constructor|by eexists].
  - rewrite Forall_cons, <- (IH (i + 1)).
    destruct (scoreMatch name term isFile) as [s|]; simpl.
    + destruct (scoreCandidates l term isFile (i + 1)) as [r|]; simpl.
      * split; [intros _; split; by eexists|by eexists].
      * split; [by intros [? ?]|by intros [_ [? ?]]].
    + split; [by intros [? ?]|by intros [[? ?] _]].
Qed.

Lemma pick_in_range {A} (v : list A) (sc : list ScorePair) :
  Forall (λ p, 0 ≤ p.1 < Z.of_nat (length v)) sc → is_Some (pick v sc).
Proof.
  intros Hall. apply mapM_is_Some. eapply Forall_impl; [exact Hall|].
  intros p Hp. simpl in *. destruct (Z.ltb_spec p.1 0); [lia|].
  apply lookup_lt_is_Some_2. lia.
Qed.

Lemma scoredFrom_in_range {A} (v : list A) nm term isFile p :
  scoredFrom v nm term isFile p → 0 ≤ p.1 < Z.of_nat (length v).
Proof.
  intros (H0 & x & Hx & _). apply lookup_lt_Some in Hx. lia.
Qed.

(** Under the contract of [std::sort], [searchCode] reads no vector out of
    bounds exactly when [scoreMatch] does not for any collected candidate. *)
Lemma searchCode_is_Some sort h indexes ix term maxResultsInt :
  std_sort_contract sort →
  let c := collect h indexes ix term in
  is_Some (searchCode sort h indexes ix term maxResultsInt)
  ↔ Forall (λ name, is_Some (scoreMatch name term true)) (names c)
    ∧ Forall (λ it, is_Some (scoreMatch (si_name it) term false)) (srcItems c).
Proof.
  intros Hsort c. unfold searchCode. fold c.
  rewrite <- (scoreCandidates_is_Some term true (names c) 0).
  rewrite <- (Forall_fmap si_name (λ name, is_Some (scoreMatch name term false))).
  rewrite <- (scoreCandidates_is_Some term false (si_name <$> srcItems c) 0).
  assert (length (paths c) = length (names c)) as Hpaths.
  { apply (collect_bounds sort h indexes ix term maxResultsInt Hsort). }
  unfold rank, scorePhase, filterScores.
  destruct (scoreCandidates (names c) term true 0) as [fs0|] eqn:Hf; simpl;
    [|split; [by intros [? ?]|by intros [[? ?] _]]].
  destruct (scoreCandidates (si_name <$> srcItems c) term false 0) as [ss0|] eqn:Hs;
    simpl; [|split; [by intros [? ?]|by intros [_ [? ?]]]].
  split; [intros _; split; by eexists|intros _].
  apply scoreCandidates_names in Hf as [_ Hf].
  apply scoreCandidates_items in Hs as [_ Hs].
  destruct (Hsort fs0) as [Hpf _], (Hsort ss0) as [Hps _].
  destruct (filterScores_loop _ _ _ 0 0) as [c1 c2].
  assert (Forall (λ p, 0 ≤ p.1 < Z.of_nat (length (names c))) (take c1 (sort fs0)))
    as Hrange.
  { apply Forall_take. rewrite Hpf. eapply Forall_impl; [exact Hf|].
    intros p. apply scoredFrom_in_range. }
  destruct (pick_in_range (names c) _ Hrange) as [nf ->].
  rewrite <- Hpaths in Hrange.
  destruct (pick_in_range (paths c) _ Hrange) as [pf ->].
  destruct (pick_in_range (srcItems c) (take c2 (sort ss0))) as [sf ->].
  { apply Forall_take. rewrite Hps. eapply Forall_impl; [exact Hs|].
    intros p. apply scoredFrom_in_range. }
  simpl. by eexists.
Qed.

(** C9.  [scoreMatch] answers exactly when the suggestion is the query or
    contains it as a case-insensitive subsequence; otherwise its loop reads
    [matches] past its end.  [searchCode] calls it outside that condition: the
    file search matches only the part of the term before ':', the scorer is
    given the whole term, and the request for "ab:1" with a file "ab.R" in
    the index reads [matches[2]] of a vector of two.  That read is the only
    one [searchCode] can make out of bounds. *)
Theorem locator_query_is_scored_past_its_matches :
  (∀ suggestion query isFile,
     is_Some (scoreMatch suggestion query isFile)
     ↔ suggestion = query
       ∨ isSubsequence suggestion query (String.length query) true = true)
  ∧ names (collect demoHost [] oneRFile "ab:1") = ["ab.R"]%string
  ∧ matchPositions "ab.R" "ab:1" = [0; 1]
  ∧ scoreMatch "ab.R" "ab:1" true = None
  ∧ (∀ sort, searchCode sort demoHost [] oneRFile "ab:1" 20 = None)
  ∧ ∀ sort h indexes ix term maxResultsInt,
      std_sort_contract sort →
      is_Some (searchCode sort h indexes ix term maxResultsInt)
      ↔ Forall (λ name, is_Some (scoreMatch name term true))
               (names (collect h indexes ix term))
        ∧ Forall (λ it, is_Some (scoreMatch (si_name it) term false))
                 (srcItems (collect h indexes ix term)).
Proof.
  split; [apply scoreMatch_total_iff|].
  split; [|split; [|split; [|split]]]; [..|apply searchCode_is_Some].
  1-3: vm_compute; reflexivity.
  intros sort. unfold searchCode, rank, scorePhase.
  assert (scoreCandidates (names (collect demoHost [] oneRFile "ab:1")) "ab:1"
            true 0 = None) as -> by (vm_compute; reflexivity).
  done.
Qed.

(* ===================================================================== *)
(** ** The searches in closed form *)
(* ===================================================================== *)

Lemma take_app_snoc {A} (n : nat) (l rest : list A) x :
  (n ≤ length l)%nat → take n (l ++ [x]) = take n (l ++ x :: rest).
Proof. intros. rewrite !take_app_le by done. done. Qed.

Lemma searchFiles_loop_closed_form h term maxResults prefixOnly s :
  ∀ pNames pPaths,
    length pPaths = length pNames → (length pNames ≤ maxResults)%nat →
    let hits := fileHits h term prefixOnly s in
    searchFiles_loop h term maxResults prefixOnly s pNames pPaths false
    = (take maxResults (pNames ++ (fp_filename h ∘ path_of <$> hits)),
       take maxResults (pPaths ++ (createAliasedPath h ∘ path_of <$> hits)),
       (maxResults <? length pNames + length hits)%nat).
Proof.
  induction s as [|e s IH]; intros pNames pPaths Hl Hn; simpl.
  - rewrite !app_nil_r, !take_ge by lia.
    replace (maxResults <? _)%nat with false; [done|].
    symmetry. apply Nat.ltb_ge. lia.
  - unfold fileHits. rewrite filter_cons.
    fold (path_of e).
    destruct (fileMatches h term prefixOnly (fp_filename h (path_of e))) eqn:Hm.
    + rewrite decide_True by done. simpl.
      unfold enforceMaxResults. rewrite length_app. simpl.
      destruct (maxResults <? length pNames + 1)%nat eqn:Hc.
      * apply Nat.ltb_lt in Hc.
        rewrite !take_app_le by lia.
        replace (maxResults <? _)%nat with true; [done|].
        symmetry. apply Nat.ltb_lt. lia.
      * apply Nat.ltb_ge in Hc.
        specialize (IH (pNames ++ [fp_filename h (path_of e)])
                       (pPaths ++ [createAliasedPath h (path_of e)])).
        simpl in IH. rewrite IH by (rewrite ?length_app; simpl; lia).
        rewrite <- !app_assoc. simpl. rewrite length_app. simpl.
        unfold fileHits.
        f_equal. f_equal. lia.
    + rewrite decide_False by done.
      apply IH; done.
Qed.

(** X1.  [SourceFileIndex::searchFiles], started on empty result vectors,
    returns the file names and aliased paths of the first [maxResults]
    entries whose file name matches the term, in the iteration order of the
    entry set, and raises [*pMoreAvailable] exactly when more than
    [maxResults] entries match. *)
Theorem project_file_search_closed_form (h : Host) (ix : SourceFileIndex)
    (term : string) (maxResults : nat) (prefixOnly : bool) :
  let hits := fileHits h term prefixOnly (entries_ ix) in
  Index.searchFiles h ix term maxResults prefixOnly [] []
  = (take maxResults (fp_filename h ∘ path_of <$> hits),
     take maxResults (createAliasedPath h ∘ path_of <$> hits),
     (maxResults <? length hits)%nat).
Proof.
  intros hits. unfold Index.searchFiles.
  rewrite searchFiles_loop_closed_form by (simpl; lia). done.
Qed.

Lemma searchSourceDatabaseFiles_loop_closed_form h term maxResults indexes :
  ∀ pNames pPaths,
    length pPaths = length pNames → (length pNames ≤ maxResults)%nat →
    let hits := filter (λ idx, documentMatches h term idx = true) indexes in
    searchSourceDatabaseFiles_loop h indexes term maxResults pNames pPaths false
    = (take maxResults
         (pNames ++ (fp_filename h ∘ resolveAliasedPath h ∘ context <$> hits)),
       take maxResults (pPaths ++ (context <$> hits)),
       (maxResults <? length pNames + length hits)%nat).
Proof.
  induction indexes as [|idx indexes IH]; intros pNames pPaths Hl Hn.
  - simpl. rewrite !app_nil_r, !take_ge by lia.
    replace (maxResults <? _)%nat with false; [done|].
    symmetry. apply Nat.ltb_ge. lia.
  - cbn [searchSourceDatabaseFiles_loop]. cbv zeta.
    rewrite filter_cons.
    destruct (documentMatches h term idx) eqn:Hd; unfold documentMatches in Hd.
    + apply andb_true_iff in Hd as [He Hm]. apply negb_true_iff in He.
      cbv zeta in Hm. rewrite He, Hm, decide_True by done.
      unfold enforceMaxResults. rewrite length_app. simpl.
      destruct (maxResults <? length pNames + 1)%nat eqn:Hc.
      * apply Nat.ltb_lt in Hc.
        rewrite !take_app_le by lia.
        replace (maxResults <? _)%nat with true; [done|].
        symmetry. apply Nat.ltb_lt. lia.
      * apply Nat.ltb_ge in Hc.
        rewrite IH by (rewrite ?length_app; simpl; lia).
        rewrite <- !app_assoc. simpl. rewrite length_app. simpl.
        f_equal. f_equal. lia.
    + rewrite decide_False by done.
      apply andb_false_iff in Hd as [He|Hm].
      * apply negb_false_iff in He. rewrite He. apply IH; done.
      * cbv zeta in Hm. rewrite Hm.
        destruct (String.eqb (context idx) ""); apply IH; done.
Qed.

(** X2.  [searchFiles] asks the project index when a file monitor runs and
    the open documents otherwise.  [searchSourceDatabaseFiles] passes over
    documents without a path, matches the file name of the resolved path (a
    wildcard term by prefix, any other term as a case-sensitive subsequence of
    the part before ':'), returns the first [maxResults] matching documents
    with their contexts as paths, and raises the flag exactly when more than
    [maxResults] documents match. *)
Theorem file_search_closed_form (h : Host) (indexes : list RSourceIndex)
    (ix : SourceFileIndex) (term : string) (maxResults : nat) :
  let entryHits := fileHits h term false (entries_ ix) in
  let docHits := filter (λ idx, documentMatches h term idx = true) indexes in
  Query.searchFiles h indexes ix term maxResults [] []
  = if hasFileMonitor h
    then (take maxResults (fp_filename h ∘ path_of <$> entryHits),
          take maxResults (createAliasedPath h ∘ path_of <$> entryHits),
          (maxResults <? length entryHits)%nat)
    else (take maxResults
            (fp_filename h ∘ resolveAliasedPath h ∘ context <$> docHits),
          take maxResults (context <$> docHits),
          (maxResults <? length docHits)%nat).
Proof.
  intros. unfold Query.searchFiles. destruct (hasFileMonitor h).
  - unfold Index.searchFiles.
    rewrite searchFiles_loop_closed_form by (simpl; lia). done.
  - unfold searchSourceDatabaseFiles.
    rewrite searchSourceDatabaseFiles_loop_closed_form by (simpl; lia). done.
Qed.

Lemma searchSource_loop_closed_form h term maxResults prefixOnly exclude s :
  ∀ pItems,
    (length pItems ≤ maxResults)%nat →
    searchSource_loop h term maxResults prefixOnly exclude s pItems
    = take maxResults
        (pItems ++ allMatches h term prefixOnly (searchedIndexes exclude s)).
Proof.
  unfold allMatches, searchedIndexes.
  induction s as [|e s IH]; intros pItems Hn; simpl.
  - rewrite app_nil_r, take_ge by lia. done.
  - destruct (pIndex e) as [idx|]; [|by apply IH].
    rewrite filter_cons. case_bool_decide as Hx.
    + rewrite decide_False by (intros Hc; by apply Hc). by apply IH.
    + rewrite decide_True by done. simpl.
      destruct (maxResults <=? _)%nat eqn:Hc.
      * apply Nat.leb_le in Hc. rewrite app_assoc.
        rewrite (take_app_le (pItems ++ _)) by done. done.
      * apply Nat.leb_gt in Hc. rewrite IH by lia. by rewrite <- app_assoc.
Qed.

(** X3.  [SourceFileIndex::searchSource], started on an empty result vector,
    returns the first [maxResults] matches of the entries that carry symbol
    data and whose context is not excluded, entry by entry in the order of
    the set. *)
Theorem project_symbol_search_closed_form (h : Host) (ix : SourceFileIndex)
    (term : string) (maxResults : nat) (prefixOnly : bool)
    (excludeContexts : gset string) :
  Index.searchSource h ix term maxResults prefixOnly excludeContexts []
  = take maxResults
      (allMatches h term prefixOnly (searchedIndexes excludeContexts (entries_ ix))).
Proof.
  unfold Index.searchSource.
  rewrite searchSource_loop_closed_form by (simpl; lia). done.
Qed.

Lemma contextsOf_cons idx l : contextsOf (idx :: l) = {[context idx]} ∪ contextsOf l.
Proof. done. Qed.

Lemma union_shuffle (c : string) (ctxs X : gset string) :
  {[c]} ∪ ctxs ∪ X = ctxs ∪ ({[c]} ∪ X).
Proof. by rewrite (comm_L (∪) {[c]} ctxs), <- (assoc_L (∪)). Qed.

Lemma union_contextsOf_nil (ctxs : gset string) : ctxs ∪ contextsOf [] = ctxs.
Proof. unfold contextsOf. simpl. apply (right_id_L ∅ (∪)). Qed.

Lemma searchSourceDatabase_closed_form h term maxResults prefixOnly indexes :
  ∀ pItems ctxs,
    (length pItems ≤ maxResults)%nat →
    let r := searchSourceDatabase h indexes term maxResults prefixOnly pItems ctxs in
    r.1 = take maxResults
            (pItems ++ allMatches h term prefixOnly (liveIndexes h indexes))
    ∧ r.2 ⊆ ctxs ∪ contextsOf (liveIndexes h indexes)
    ∧ ((length r.1 < maxResults)%nat →
       r.2 = ctxs ∪ contextsOf (liveIndexes h indexes))
    ∧ ∀ it, it ∈ r.1 → it ∈ pItems ∨ ri_context it ∈ r.2.
Proof.
  unfold allMatches, liveIndexes.
  induction indexes as [|idx indexes IH]; intros pItems ctxs Hn; simpl.
  - rewrite app_nil_r, take_ge by lia. rewrite union_contextsOf_nil.
    split; [done|]. split; [done|]. split; [done|]. auto.
  - rewrite filter_cons.
    destruct (sourceDatabaseFilter h idx) eqn:Hf.
    + rewrite decide_True by done. rewrite contextsOf_cons, <- union_shuffle. simpl.
      destruct (maxResults <=? _)%nat eqn:Hc; simpl.
      * apply Nat.leb_le in Hc. rewrite app_assoc.
        rewrite (take_app_le (pItems ++ _)) by done.
        split; [done|]. split; [apply union_subseteq_l|].
        split; [rewrite length_take; lia|].
        intros it Hit. apply elem_of_take in Hit as (i & Hit & _).
        apply list_elem_of_lookup_2, elem_of_app in Hit as [Hit|Hit]; [by left|].
        right. apply rsearch_context in Hit. rewrite Hit.
        by apply elem_of_union_l, elem_of_singleton.
      * apply Nat.leb_gt in Hc.
        destruct (IH (pItems ++ rsearch h idx term prefixOnly false)
                     ({[context idx]} ∪ ctxs)) as (E1 & E2 & E3 & E4); [lia|].
        split; [by rewrite E1, <- app_assoc|].
        split; [done|]. split; [done|].
        intros it Hit. apply E4 in Hit as [Hit|Hit]; [|by right].
        apply elem_of_app in Hit as [Hit|Hit]; [by left|].
        right. apply rsearch_context in Hit.
        pose proof (searchSourceDatabase_covers h term maxResults prefixOnly
                      indexes (pItems ++ rsearch h idx term prefixOnly false)
                      ({[context idx]} ∪ ctxs)) as [Hsub _].
        apply Hsub. rewrite Hit. by apply elem_of_union_l, elem_of_singleton.
    + rewrite decide_False by done. by apply IH.
Qed.

(** X4.  [searchSourceDatabase], started on an empty result vector and an
    empty context set, returns the first [maxResults] matches of the open
    documents that pass the scope filter.  It records contexts of such
    documents only, all of them unless the scan ended with a full result, and
    every item it returns carries a recorded context. *)
Theorem live_symbol_search_closed_form (h : Host) (indexes : list RSourceIndex)
    (term : string) (maxResults : nat) (prefixOnly : bool) :
  let r := searchSourceDatabase h indexes term maxResults prefixOnly [] ∅ in
  r.1 = take maxResults (allMatches h term prefixOnly (liveIndexes h indexes))
  ∧ r.2 ⊆ contextsOf (liveIndexes h indexes)
  ∧ ((length r.1 < maxResults)%nat → r.2 = contextsOf (liveIndexes h indexes))
  ∧ ∀ it, it ∈ r.1 → ri_context it ∈ r.2.
Proof.
  intros r.
  destruct (searchSourceDatabase_closed_form h term maxResults prefixOnly
              indexes [] ∅) as (E1 & E2 & E3 & E4); [simpl; lia|].
  fold r in E1, E2, E3, E4. rewrite (left_id_L ∅ (∪)) in E2, E3.
  split; [done|]. split; [done|]. split; [done|].
  intros it Hit. apply E4 in Hit as [Hit|Hit]; [|done]. by apply elem_of_nil in Hit.
Qed.

Lemma addProjectItems_flag maxResults projItems :
  ∀ pItems more,
    (length pItems + length projItems ≤ maxResults)%nat →
    (addProjectItems maxResults projItems pItems more).2 = more.
Proof.
  induction projItems as [|x projItems IH]; intros pItems more Hn; simpl; [done|].
  simpl in Hn. rewrite length_app. simpl.
  replace (maxResults <? _)%nat with false
    by (symmetry; apply Nat.ltb_ge; lia).
  apply IH. rewrite length_app. simpl. lia.
Qed.

Lemma searchSource_merged (h : Host) (indexes : list RSourceIndex)
    (ix : SourceFileIndex) (term : string) (maxResults : nat) (prefixOnly : bool) :
  let live := liveIndexes h indexes in
  Query.searchSource h indexes ix term maxResults prefixOnly []
  = (take maxResults
       (allMatches h term prefixOnly live
        ++ allMatches h term prefixOnly
             (searchedIndexes (contextsOf live) (entries_ ix))),
     false).
Proof.
  intros live. unfold Query.searchSource.
  destruct (searchSourceDatabase_closed_form h term maxResults prefixOnly
              indexes [] ∅) as (E1 & _ & E3 & _); [simpl; lia|].
  destruct (searchSourceDatabase h indexes term maxResults prefixOnly [] ∅)
    as [dbItems srcDBContexts]. simpl in E1, E3. fold live in E1, E3.
  assert (length dbItems ≤ maxResults)%nat as Hle
    by (rewrite E1, length_take; lia).
  replace (maxResults <? length dbItems)%nat with false
    by (symmetry; apply Nat.ltb_ge; lia).
  unfold Index.searchSource.
  rewrite searchSource_loop_closed_form by (simpl; lia). rewrite app_nil_l.
  rewrite (surjective_pairing (addProjectItems _ _ _ _)).
  rewrite addProjectItems_take by done.
  rewrite addProjectItems_flag by (rewrite length_take; lia).
  f_equal.
  destruct (decide (length dbItems < maxResults)%nat) as [Hlt|Hge].
  - rewrite E3 by done. rewrite (left_id_L ∅ (∪)).
    rewrite E1 in Hlt. rewrite length_take in Hlt.
    assert (length (allMatches h term prefixOnly live) < maxResults)%nat by lia.
    rewrite E1. rewrite (take_ge (allMatches h term prefixOnly live)) by lia.
    rewrite !take_app_ge by lia. by rewrite take_take, Nat.min_id.
  - replace (maxResults - length dbItems)%nat with 0%nat by lia.
    rewrite take_0, app_nil_r, E1, take_take, Nat.min_id.
    rewrite E1, length_take in Hle, Hge.
    rewrite take_app_le by lia. done.
Qed.

(** X5.  [searchSource] returns the first [maxResults] items of: every match
    in the open documents in scope, followed by every match in the project
    entries whose context is not the context of such a document.  It never
    raises [*pMoreAvailable]: the flag is false however many matches were
    left out. *)
Theorem symbol_search_closed_form (h : Host) (indexes : list RSourceIndex)
    (ix : SourceFileIndex) (term : string) (maxResults : nat) (prefixOnly : bool) :
  let live := liveIndexes h indexes in
  Query.searchSource h indexes ix term maxResults prefixOnly []
  = (take maxResults
       (allMatches h term prefixOnly live
        ++ allMatches h term prefixOnly
             (searchedIndexes (contextsOf live) (entries_ ix))),
     false).
Proof. apply searchSource_merged. Qed.



(* ===================================================================== *)
(** ** Looking up a global function *)
(* ===================================================================== *)

Lemma head_concat_cons {A} (l : list A) (ls : list (list A)) :
  head (concat (l :: ls)) = match l with x :: _ => Some x | [] => head (concat ls) end.
Proof. by destruct l. Qed.

Lemma findGlobalFunction_loop_closed_form functionName excludeContexts s :
  findGlobalFunction_loop functionName excludeContexts s
  = head (concat (globalFunctions functionName
                    <$> searchedIndexes excludeContexts s)).
Proof.
  unfold searchedIndexes.
  induction s as [|e s IH]; simpl; [done|].
  destruct (pIndex e) as [idx|]; [|done].
  rewrite filter_cons. case_bool_decide as Hx.
  - rewrite decide_False by (intros Hc; by apply Hc). done.
  - rewrite decide_True by done. rewrite fmap_cons, head_concat_cons.
    unfold globalFunctions at 1.
    destruct (rsearch_if idx _); done.
Qed.

Lemma findGlobalFunctionInSourceDatabase_closed_form h functionName indexes :
  ∀ ctxs,
    let r := findGlobalFunctionInSourceDatabase h indexes functionName ctxs in
    r.1 = head (concat (globalFunctions functionName <$> liveIndexes h indexes))
    ∧ r.2 ⊆ ctxs ∪ contextsOf (liveIndexes h indexes)
    ∧ (r.1 = None → r.2 = ctxs ∪ contextsOf (liveIndexes h indexes)).
Proof.
  unfold liveIndexes.
  induction indexes as [|idx indexes IH]; intros ctxs; simpl.
  - rewrite union_contextsOf_nil. by split.
  - rewrite filter_cons.
    destruct (sourceDatabaseFilter h idx) eqn:Hf.
    + rewrite decide_True by done.
      rewrite fmap_cons, head_concat_cons, contextsOf_cons, <- union_shuffle. simpl.
      unfold globalFunctions at 1.
      destruct (rsearch_if idx _) as [|x l]; simpl.
      * apply IH.
      * split; [done|]. split; [apply union_subseteq_l|done].
    + rewrite decide_False by done. apply IH.
Qed.

Lemma findGlobalFunctionInCode_closed_form h indexes ix functionName :
  let live := liveIndexes h indexes in
  findGlobalFunctionInCode h indexes ix functionName
  = head (concat (globalFunctions functionName
                    <$> live ++ searchedIndexes (contextsOf live) (entries_ ix))).
Proof.
  intros live.
  destruct (findGlobalFunctionInSourceDatabase_closed_form h functionName
              indexes ∅) as (E1 & _ & E3).
  unfold findGlobalFunctionInCode.
  destruct (findGlobalFunctionInSourceDatabase h indexes functionName ∅)
    as [found contexts]. simpl in E1, E3. fold live in E1, E3.
  rewrite fmap_app, concat_app.
  destruct found as [it|].
  - destruct (concat (globalFunctions functionName <$> live)); [done|].
    simpl in *. done.
  - rewrite E3 by done. rewrite (left_id_L ∅ (∪)).
    destruct (concat (globalFunctions functionName <$> live)); [|done].
    apply findGlobalFunction_loop_closed_form.
Qed.

(** X6.  The lookups of a global function by name in closed form:
    [SourceFileIndex::findGlobalFunction] returns the first global function of
    that name in the first entry that has symbol data, is not excluded and
    declares one; [findGlobalFunctionInSourceDatabase] does the same over the
    open documents in scope; the lookup of [getFunctionDefinition] tries the
    open documents first and then the project entries whose context is not
    the context of an open document in scope. *)
Theorem global_function_lookup_closed_form (h : Host)
    (indexes : list RSourceIndex) (ix : SourceFileIndex) (functionName : string)
    (excludeContexts : gset string) :
  let live := liveIndexes h indexes in
  Index.findGlobalFunction ix functionName excludeContexts
  = head (concat (globalFunctions functionName
                    <$> searchedIndexes excludeContexts (entries_ ix)))
  ∧ (findGlobalFunctionInSourceDatabase h indexes functionName ∅).1
    = head (concat (globalFunctions functionName <$> live))
  ∧ findGlobalFunctionInCode h indexes ix functionName
    = head (concat (globalFunctions functionName
                      <$> live ++ searchedIndexes (contextsOf live) (entries_ ix))).
Proof.
  intros live.
  split; [apply findGlobalFunction_loop_closed_form|].
  split; [|apply findGlobalFunctionInCode_closed_form].
  by destruct (findGlobalFunctionInSourceDatabase_closed_form h functionName
                 indexes ∅) as (E1 & _).
Qed.

Lemma isGlobalFunctionNamed_withContext ctx it name :
  isGlobalFunctionNamed (withContext ctx it) name = isGlobalFunctionNamed it name.
Proof. done. Qed.

Lemma elem_of_globalFunctions name idx it :
  it ∈ globalFunctions name idx
  ↔ ∃ raw, raw ∈ items idx ∧ isGlobalFunctionNamed raw name = true
           ∧ it = withContext (context idx) raw.
Proof.
  unfold globalFunctions, rsearch_if. rewrite list_elem_of_fmap.
  split.
  - intros (raw & -> & Hr). apply list_elem_of_filter in Hr as [? ?]. eauto.
  - intros (raw & ? & ? & ->). exists raw. split; [done|].
    by apply list_elem_of_filter.
Qed.

Lemma head_concat_spec {A} (ls : list (list A)) :
  match head (concat ls) with
  | Some x => ∃ l, l ∈ ls ∧ x ∈ l
  | None => ∀ l, l ∈ ls → l = []
  end.
Proof.
  induction ls as [|l ls IH]; simpl.
  - intros l Hl. by apply elem_of_nil in Hl.
  - destruct l as [|x l]; simpl.
    + destruct (head (concat ls)) as [y|].
      * destruct IH as (l' & ? & ?). exists l'. split; [by right|done].
      * intros l Hl. apply elem_of_cons in Hl as [->|Hl]; [done|by apply IH].
    + exists (x :: l). split; [by left|by left].
Qed.

(** X7.  The lookup of [getFunctionDefinition] is sound and complete: an
    item it returns is a function or method at brace level 0 with exactly the
    requested name, taken from one of the indexes consulted and stamped with
    its context; it returns nothing only when no index consulted declares
    such an item.  An item reported for the context of an open document in
    scope is read from an open document, never from the project entry of the
    same file. *)
Theorem global_function_lookup_sound_and_complete (h : Host)
    (indexes : list RSourceIndex) (ix : SourceFileIndex) (functionName : string) :
  let live := liveIndexes h indexes in
  let consulted := live ++ searchedIndexes (contextsOf live) (entries_ ix) in
  match findGlobalFunctionInCode h indexes ix functionName with
  | Some sourceItem =>
      ri_braceLevel sourceItem = 0
      ∧ (ri_type sourceItem = RFunction ∨ ri_type sourceItem = RMethod)
      ∧ ri_name sourceItem = functionName
      ∧ ∃ idx raw, idx ∈ consulted ∧ raw ∈ items idx
                   ∧ sourceItem = withContext (context idx) raw
  | None =>
      ∀ idx raw, idx ∈ consulted → raw ∈ items idx →
                 isGlobalFunctionNamed raw functionName = false
  end
  ∧ ∀ L sourceItem,
      L ∈ live →
      findGlobalFunctionInCode h indexes ix functionName = Some sourceItem →
      ri_context sourceItem = context L →
      ∃ L' raw, L' ∈ live ∧ raw ∈ items L'
                ∧ sourceItem = withContext (context L') raw.
Proof.
  intros live consulted. split.
  - rewrite findGlobalFunctionInCode_closed_form. fold live. fold consulted.
    pose proof (head_concat_spec (globalFunctions functionName <$> consulted)) as Hs.
    destruct (head _) as [it|].
    + destruct Hs as (l & Hl & Hit).
      apply list_elem_of_fmap in Hl as (idx & -> & Hidx).
      apply elem_of_globalFunctions in Hit as (raw & Hraw & Hg & ->).
      unfold isGlobalFunctionNamed in Hg.
      apply andb_true_iff in Hg as [Hg Hname].
      apply andb_true_iff in Hg as [Hlevel Htype].
      apply Z.eqb_eq in Hlevel. apply String.eqb_eq in Hname.
      simpl. split; [done|].
      split; [destruct (ri_type raw); auto; done|].
      split; [done|]. eauto.
    + intros idx raw Hidx Hraw.
      destruct (isGlobalFunctionNamed raw functionName) eqn:Hg; [|done].
      assert (globalFunctions functionName idx = []) as Hnil
        by (apply Hs, list_elem_of_fmap; eauto).
      assert (withContext (context idx) raw ∈ globalFunctions functionName idx) as Hin
        by (apply elem_of_globalFunctions; eauto).
      rewrite Hnil in Hin. by apply elem_of_nil in Hin.
  - intros L it HL Hfound Hc.
    rewrite findGlobalFunctionInCode_closed_form in Hfound. fold live in Hfound.
    pose proof (head_concat_spec
                  (globalFunctions functionName
                     <$> live ++ searchedIndexes (contextsOf live) (entries_ ix)))
      as Hs.
    rewrite Hfound in Hs. destruct Hs as (l & Hl & Hit).
    apply list_elem_of_fmap in Hl as (idx & -> & Hidx).
    apply elem_of_globalFunctions in Hit as (raw & Hraw & _ & ->).
    apply elem_of_app in Hidx as [Hidx|Hidx]; [eauto|].
    apply list_elem_of_filter in Hidx as [Hout _]. exfalso. apply Hout.
    simpl in Hc. rewrite Hc.
    unfold contextsOf. apply elem_of_list_to_set, list_elem_of_fmap. eauto.
Qed.

(* ===================================================================== *)
(** ** The indexes of the open documents *)
(* ===================================================================== *)

Lemma indexes_perm (m : gmap string RSourceIndex) :
  RSourceIndexes.indexes m ≡ₚ (map_to_list m).*2.
Proof. unfold RSourceIndexes.indexes. by rewrite merge_sort_Permutation. Qed.

(** X8.  [RSourceIndexes]: updating with a document that has a path ending in
    ".r" leaves one index for its id, the new one, beside the indexes of the
    other documents; updating with any other document changes nothing, so an
    index stored earlier under that id stays.  Removing the id afterwards
    gives the same map as removing it before the update.  The snapshot
    [indexes()] has one element per document id, and none after
    [removeAll()]. *)
Theorem document_indexes_lifecycle (h : Host) (pDoc : SourceDocument)
    (indexes_ : gmap string RSourceIndex) :
  let indexable :=
    negb (String.eqb (doc_path pDoc) "")
    && String.eqb (fp_extensionLowerCase h (doc_path pDoc)) ".r" in
  let updated := RSourceIndexes.update h pDoc indexes_ in
  (if indexable
   then RSourceIndexes.indexes updated
        ≡ₚ newRSourceIndex h (doc_path pDoc) (doc_contents pDoc)
           :: RSourceIndexes.indexes (RSourceIndexes.remove (doc_id pDoc) indexes_)
   else updated = indexes_)
  ∧ RSourceIndexes.remove (doc_id pDoc) updated
    = RSourceIndexes.remove (doc_id pDoc) indexes_
  ∧ length (RSourceIndexes.indexes indexes_) = size indexes_
  ∧ RSourceIndexes.indexes (RSourceIndexes.removeAll indexes_) = [].
Proof.
  intros indexable updated. subst indexable updated.
  unfold RSourceIndexes.update, RSourceIndexes.remove, RSourceIndexes.removeAll.
  split; [|split; [|split]].
  - destruct (String.eqb (doc_path pDoc) ""); simpl; [done|].
    destruct (String.eqb (fp_extensionLowerCase h (doc_path pDoc)) ".r");
      simpl; [|done].
    rewrite !indexes_perm.
    rewrite <- insert_delete_eq.
    rewrite map_to_list_insert by apply lookup_delete_eq. done.
  - destruct (_ || _); [done|]. apply delete_insert_eq.
  - rewrite indexes_perm, length_fmap. apply length_map_to_list.
  - unfold RSourceIndexes.indexes. by rewrite map_to_list_empty.
Qed.

(* ===================================================================== *)
(** ** Package environments *)
(* ===================================================================== *)

Lemma append_String (a : ascii) (p rest : string) :
  (String a p +:+ rest)%string = String a (p +:+ rest)%string.
Proof. reflexivity. Qed.

Lemma append_empty (rest : string) : ("" +:+ rest)%string = rest.
Proof. reflexivity. Qed.

Lemma prefix_true_iff (p s : string) :
  String.prefix p s = true ↔ ∃ rest, s = (p +:+ rest)%string.
Proof.
  revert s. induction p as [|a p IH]; intros s.
  - split; [intros _; by exists s|]. intros _. by destruct s.
  - setoid_rewrite append_String.
    destruct s as [|b s]; simpl.
    + split; [done|]. by intros (rest & ?).
    + destruct (ascii_dec a b) as [->|Hne].
      * rewrite IH. split; intros (rest & Hr); exists rest; congruence.
      * split; [done|]. intros (rest & Hr). congruence.
Qed.

Lemma index_0_iff_prefix (p s : string) :
  String.index 0 p s = Some 0%nat ↔ String.prefix p s = true.
Proof.
  destruct s as [|b s].
  - destruct p; simpl; split; congruence.
  - cbn [String.index].
    destruct (String.prefix p (String b s)); [done|].
    destruct (String.index 0 p s); split; congruence.
Qed.

Lemma substring_whole (s : string) : String.substring 0 (String.length s) s = s.
Proof. induction s; simpl; congruence. Qed.

Lemma substr_from_app (p rest : string) :
  substr_from (String.length p) (p +:+ rest) = rest.
Proof.
  unfold substr_from. induction p as [|a p IH].
  - rewrite append_empty. simpl. rewrite Nat.sub_0_r. apply substring_whole.
  - rewrite append_String. simpl. exact IH.
Qed.

Lemma length_append (p rest : string) :
  String.length (p +:+ rest) = (String.length p + String.length rest)%nat.
Proof.
  induction p as [|a p IH]; [done|].
  rewrite append_String. simpl. congruence.
Qed.

Lemma namespaceIsPackage_iff (namespaceName pkg : string) :
  namespaceIsPackage namespaceName = Some pkg
  ↔ namespaceName = ("package:" +:+ pkg)%string ∧ pkg ≠ ""%string.
Proof.
  unfold namespaceIsPackage. split.
  - destruct (String.eqb namespaceName ""); [done|].
    cbv zeta. case_bool_decide as Hi; cbn [andb]; [|done].
    destruct (_ <? _)%nat eqn:Hlen; [|done].
    apply index_0_iff_prefix, prefix_true_iff in Hi as (rest & ->).
    apply Nat.ltb_lt in Hlen. rewrite length_append in Hlen.
    rewrite (substr_from_app "package:" rest).
    intros [= <-]. split; [done|]. intros ->. simpl in Hlen. lia.
  - intros [-> Hne]. rewrite append_String at 1. cbn [String.eqb]. cbv zeta.
    rewrite bool_decide_true by (apply index_0_iff_prefix, prefix_true_iff; eauto).
    rewrite length_append, (substr_from_app "package:" pkg).
    destruct pkg; [done|]. done.
Qed.

(** X9.  [namespaceIsPackage] accepts exactly the names "package:" followed
    by a non-empty package name, and returns that package name. *)
Theorem namespaceIsPackage_spec (namespaceName pkg : string) :
  namespaceIsPackage namespaceName = Some pkg
  ↔ namespaceName = ("package:" +:+ pkg)%string ∧ pkg ≠ ""%string.
Proof. apply namespaceIsPackage_iff. Qed.

(** X10.  The namespace name left by the loop of [createS3MethodDefinition]
    over the "where" list is: empty, when no element starts with "package:"
    and none is "namespace:" followed by something; or the bare prefix
    "package:", taken from an element equal to it; or a name that
    [namespaceIsPackage] accepts, whose package was read from an element
    "package:pkg" or "namespace:pkg" of the list. *)
Theorem s3NamespaceName_spec (whereList : list string) :
  let namespaceName := s3NamespaceName whereList in
  (namespaceName = ""%string
   ∧ ∀ w, w ∈ whereList →
          String.prefix "package:" w = false
          ∧ (String.prefix "namespace:" w = true → w = "namespace:"%string))
  ∨ (namespaceName = "package:"%string ∧ "package:"%string ∈ whereList)
  ∨ ∃ pkg, namespaceIsPackage namespaceName = Some pkg
           ∧ (("package:" +:+ pkg)%string ∈ whereList
              ∨ ("namespace:" +:+ pkg)%string ∈ whereList).
Proof.
  induction whereList as [|w l IH]; cbn [s3NamespaceName]; cbv zeta.
  - left. split; [done|]. intros w Hw. by apply elem_of_nil in Hw.
  - destruct (String.prefix "package:" w) eqn:Hp.
    + apply prefix_true_iff in Hp as (rest & ->).
      destruct (decide (rest = ""%string)) as [->|Hne].
      * right; left. split; [done|]. by left.
      * right; right. exists rest. split; [by apply namespaceIsPackage_iff|].
        left. by left.
    + destruct (String.prefix "namespace:" w) eqn:Hn; cbn [andb].
      * apply prefix_true_iff in Hn as (rest & ->).
        rewrite length_append.
        destruct rest as [|c rest].
        -- change (String.length "namespace:" <? _)%nat with false. cbv iota.
           destruct IH as [[E Hall]|[[E Hin]|(pkg & E & Hin)]].
           ++ left. split; [done|]. intros w Hw.
              apply elem_of_cons in Hw as [->|Hw]; [done|by apply Hall].
           ++ right; left. split; [done|]. by right.
           ++ right; right. exists pkg. split; [done|].
              destruct Hin; [left|right]; by right.
        -- replace (String.length "namespace:" <? _)%nat with true
             by (symmetry; apply Nat.ltb_lt; simpl; lia).
           right; right. exists (String c rest).
           rewrite (substr_from_app "namespace:" (String c rest)).
           split; [by apply namespaceIsPackage_iff|]. right. by left.
      * destruct IH as [[E Hall]|[[E Hin]|(pkg & E & Hin)]].
        -- left. split; [done|]. intros w' Hw.
           apply elem_of_cons in Hw as [->|Hw]; [|by apply Hall].
           split; [done|]. congruence.
        -- right; left. split; [done|]. by right.
        -- right; right. exists pkg. split; [done|].
           destruct Hin; [left|right]; by right.
Qed.

(* ===================================================================== *)
(** ** Invariants of the index *)
(* ===================================================================== *)

Lemma reachable_flag (h : Host) (ix : SourceFileIndex) :
  reachable h ix →
  indexing_ ix = negb (bool_decide (indexingQueue_ ix = [])).
Proof.
  induction 1 as [|files ix _ IH|event ix _ IH|read ix _ IH|ix _ IH].
  - done.
  - unfold enqueFiles.
    set (q := indexingQueue_ ix ++ _) in *.
    destruct (negb (bool_decide (q = []))) eqn:Hq; simpl.
    + destruct (indexing_ ix) eqn:Hi; simpl; by rewrite ?Hq.
    + rewrite Hq, IH. apply negb_false_iff, bool_decide_eq_true in Hq.
      subst q. apply app_eq_nil in Hq as [-> _]. done.
  - unfold enqueFileChange. destruct (negb (isSourceFile _ _)); [done|].
    assert (bool_decide (indexingQueue_ ix ++ [event] = []) = false) as Hne.
    { apply bool_decide_eq_false. by destruct (indexingQueue_ ix). }
    destruct (indexing_ ix) eqn:Hi; simpl; by rewrite Hne.
  - unfold dequeAndIndex. destruct (indexingQueue_ ix) as [|event q]; done.
  - done.
Qed.

(** X11.  In every reachable state of the index the flag [indexing_] is true
    exactly when the queue holds events.  (The flag only: the callbacks
    handed to the scheduler are not part of the state.) *)
Theorem indexing_flag_tracks_queue (h : Host) (ix : SourceFileIndex) :
  reachable h ix →
  indexing_ ix = negb (bool_decide (indexingQueue_ ix = [])).
Proof. apply reachable_flag. Qed.

Lemma indexing_flag_tracks_queue_witness :
  indexing_ addedTwice = negb (bool_decide (indexingQueue_ addedTwice = [])).
Proof.
  apply (indexing_flag_tracks_queue demoHost addedTwice).
  apply reach_enqueFileChange, reach_enqueFileChange, reach_init.
Defined.

Lemma without_wf h p s : Forall (entry_wf h) s → Forall (entry_wf h) (without p s).
Proof.
  intros Hs. apply Forall_forall. intros x Hx.
  apply list_elem_of_filter in Hx as [_ Hx].
  rewrite Forall_forall in Hs. by apply Hs.
Qed.

Lemma replaceEntry_wf h e s :
  entries_sorted s → entry_wf h e → Forall (entry_wf h) s →
  Forall (entry_wf h) (replaceEntry e s).
Proof.
  intros Hs He Hall. destruct (replaceEntry_spec e s Hs) as [_ Hp].
  rewrite Hp. constructor; [done|]. by apply without_wf.
Qed.

Lemma processChange_wf h read event s :
  entries_sorted s → isSourceFile h (ev_fileInfo event) = true →
  Forall (entry_wf h) s → Forall (entry_wf h) (processChange h read event s).1.
Proof.
  intros Hs Hsrc Hall. unfold processChange.
  assert (Forall (entry_wf h) (updateIndexEntry h read (ev_fileInfo event) s).1)
    as Hupd.
  { unfold updateIndexEntry.
    destruct (isIndexableSourceFile h (ev_fileInfo event)) eqn:Hi.
    - destruct (read _) as [code|error]; simpl.
      + apply replaceEntry_wf; [done| |done].
        split; [done|]. simpl. split; [done|]. by exists code.
      + by destruct (negb _).
    - simpl. apply replaceEntry_wf; [done| |done]. by split. }
  destruct (ev_type event); simpl; [done|done|done|].
  rewrite removeIndexEntry_spec by done. by apply without_wf.
Qed.

Lemma reachable_wf (h : Host) (ix : SourceFileIndex) :
  reachable h ix →
  Forall (entry_wf h) (entries_ ix)
  ∧ Forall (λ event, isSourceFile h (ev_fileInfo event) = true)
           (indexingQueue_ ix).
Proof.
  induction 1 as [|files ix Hr IH|event ix Hr IH|read ix Hr IH|ix _ IH].
  - by split.
  - destruct IH as [He Hq].
    assert (Forall (λ event, isSourceFile h (ev_fileInfo event) = true)
              (indexingQueue_ ix
               ++ (mkEvent FileAdded <$> filter (λ f, isSourceFile h f = true) files)))
      as Hq'.
    { apply Forall_app. split; [done|]. apply Forall_fmap, Forall_forall.
      intros f Hf. by apply list_elem_of_filter in Hf as [? _]. }
    unfold enqueFiles. by destruct (_ && _).
  - destruct IH as [He Hq]. unfold enqueFileChange.
    destruct (isSourceFile h (ev_fileInfo event)) eqn:Hsrc; [|done]. simpl.
    assert (Forall (λ event, isSourceFile h (ev_fileInfo event) = true)
              (indexingQueue_ ix ++ [event])) as Hq'.
    { apply Forall_app. split; [done|]. by constructor. }
    by destruct (negb (indexing_ ix)).
  - destruct IH as [He Hq]. unfold dequeAndIndex.
    destruct (indexingQueue_ ix) as [|event q]; [done|]. simpl.
    apply Forall_cons in Hq as [Hsrc Hq]. split; [|done].
    apply processChange_wf; [by apply (reachable_sorted h)|done|done].
  - by split.
Qed.

(** X12.  In every reachable state each stored entry belongs to a file that
    passes [isSourceFile]; it carries symbol data exactly when the file is
    indexable, and that data was parsed under the aliased path of the file.
    Every queued event is for a file that passes [isSourceFile]. *)
Theorem stored_entries_are_source_files (h : Host) (ix : SourceFileIndex) :
  reachable h ix →
  Forall (entry_wf h) (entries_ ix)
  ∧ Forall (λ event, isSourceFile h (ev_fileInfo event) = true)
           (indexingQueue_ ix).
Proof. apply reachable_wf. Qed.

Lemma stored_entries_are_source_files_witness :
  Forall (entry_wf demoHost) (entries_ oneRFile)
  ∧ Forall (λ event, isSourceFile demoHost (ev_fileInfo event) = true)
           (indexingQueue_ oneRFile).
Proof.
  apply (stored_entries_are_source_files demoHost oneRFile).
  apply (reach_dequeAndIndex demoHost (readsOk "abc")), reach_enqueFiles, reach_init.
Defined.

Lemma entriesFor_perm fi s1 s2 :
  s1 ≡ₚ s2 → entries_sorted s2 → entriesFor fi s1 ≡ₚ entriesFor fi s2.
Proof. intros Hp _. unfold entriesFor. by rewrite Hp. Qed.

Lemma perm_short_eq {A} (l1 l2 : list A) :
  l1 ≡ₚ l2 → (length l2 ≤ 1)%nat → l1 = l2.
Proof.
  intros Hp Hl. destruct l2 as [|x [|y l2]]; [| |simpl in Hl; lia].
  - by apply Permutation_nil_r.
  - by apply Permutation_singleton_r.
Qed.

Lemma entriesFor_replaceEntry_ne e fi s :
  entries_sorted s → absolutePath fi ≠ path_of e →
  entriesFor fi (replaceEntry e s) = entriesFor fi s.
Proof.
  intros Hs Hne. destruct (replaceEntry_spec e s Hs) as [_ Hp].
  apply perm_short_eq; [|by apply entriesFor_sorted].
  unfold entriesFor at 1. rewrite Hp.
  rewrite filter_cons_False by (unfold path_of in Hne; congruence).
  fold (entriesFor fi (without (path_of e) s)).
  by rewrite entriesFor_without_ne.
Qed.

(** X13.  Processing a change event (added, modified, removed or none) for
    one file leaves the entry of every file with another path as it was. *)
Theorem change_leaves_other_files_alone (h : Host) (read : string → ReadResult)
    (event : FileChangeEvent) (ix : SourceFileIndex) (fi : FileInfo) :
  reachable h ix →
  absolutePath fi ≠ absolutePath (ev_fileInfo event) →
  entriesFor fi (processChange h read event (entries_ ix)).1
  = entriesFor fi (entries_ ix).
Proof.
  intros Hr Hne. pose proof (reachable_sorted h ix Hr) as Hs.
  unfold processChange.
  assert (entriesFor fi (updateIndexEntry h read (ev_fileInfo event) (entries_ ix)).1
          = entriesFor fi (entries_ ix)) as Hupd.
  { unfold updateIndexEntry.
    destruct (isIndexableSourceFile h (ev_fileInfo event)).
    - destruct (read _) as [code|error]; simpl.
      + by apply entriesFor_replaceEntry_ne.
      + by destruct (negb _).
    - simpl. by apply entriesFor_replaceEntry_ne. }
  destruct (ev_type event); simpl; [done|done|done|].
  rewrite removeIndexEntry_spec by done. by apply entriesFor_without_ne.
Qed.

Lemma change_leaves_other_files_alone_witness :
  entriesFor (file "/p/ab.R")
    (processChange demoHost (readsOk "g") (mkEvent FileRemoved (file "/p/cd.R"))
       (entries_ oneRFile)).1
  = entriesFor (file "/p/ab.R") (entries_ oneRFile).
Proof.
  apply (change_leaves_other_files_alone demoHost (readsOk "g")
           (mkEvent FileRemoved (file "/p/cd.R")) oneRFile (file "/p/ab.R")).
  - apply (reach_dequeAndIndex demoHost (readsOk "abc")), reach_enqueFiles, reach_init.
  - simpl. congruence.
Defined.

(** X14.  The scheduler loop, given at least one step and at least as many
    steps as there are queued events, comes to an end with an empty queue and
    the flag down, and the entries are those obtained by processing the
    queued events one by one in the order they were queued, the k-th against
    the file system as it was at step k. *)
Theorem drain_processes_queue_in_order (h : Host)
    (reads : nat → string → ReadResult) (k fuel : nat) (ix : SourceFileIndex) :
  (0 < fuel)%nat → (length (indexingQueue_ ix) ≤ fuel)%nat →
  ∃ logged,
    drain h reads k fuel ix
    = Some (mkIndex (processAll h reads k (indexingQueue_ ix) (entries_ ix))
                    false [], logged).
Proof.
  revert k ix. induction fuel as [|fuel IH]; intros k ix Hpos Hlen; [lia|].
  simpl. unfold dequeAndIndex.
  destruct (indexingQueue_ ix) as [|event q] eqn:Hq; simpl.
  - by eexists.
  - destruct q as [|event' q]; simpl.
    + by eexists.
    + simpl in Hlen.
      destruct (IH (S k) (mkIndex (processChange h (reads k) event (entries_ ix)).1
                                  true (event' :: q)))
        as [logged Hd]; [lia|simpl; lia|].
      rewrite Hd. simpl. by eexists.
Qed.

Lemma drain_processes_queue_in_order_witness :
  ∃ logged,
    drain demoHost (λ _, readsOk "f") 0 2 addedTwice
    = Some (mkIndex (processAll demoHost (λ _, readsOk "f") 0
                       (indexingQueue_ addedTwice) (entries_ addedTwice))
                    false [], logged).
Proof.
  apply (drain_processes_queue_in_order demoHost (λ _, readsOk "f") 0 2 addedTwice).
  - lia.
  - simpl. lia.
Defined.

Lemma onFilesChanged_closed_form h evs :
  ∀ ix,
    indexing_ ix = negb (bool_decide (indexingQueue_ ix = [])) →
    let q := indexingQueue_ ix
             ++ filter (λ e, isSourceFile h (ev_fileInfo e) = true) evs in
    onFilesChanged h evs ix
    = mkIndex (entries_ ix) (negb (bool_decide (q = []))) q.
Proof.
  unfold onFilesChanged.
  induction evs as [|e evs IH]; intros ix Hflag; simpl.
  - rewrite app_nil_r, <- Hflag. by destruct ix.
  - rewrite filter_cons. unfold enqueFileChange at 2.
    destruct (isSourceFile h (ev_fileInfo e)) eqn:Hsrc; cbn [negb].
    + rewrite decide_True by done.
      assert (bool_decide (indexingQueue_ ix ++ [e] = []) = false) as Hne.
      { apply bool_decide_eq_false. by destruct (indexingQueue_ ix). }
      rewrite IH.
      * destruct (negb (indexing_ ix)); simpl; by rewrite <- app_assoc.
      * destruct (indexing_ ix) eqn:Hi; simpl; by rewrite Hne.
    + rewrite decide_False by done. by apply IH.
Qed.

Lemma filter_fmap_added h (files : list FileInfo) :
  filter (λ e, isSourceFile h (ev_fileInfo e) = true) (mkEvent FileAdded <$> files)
  = mkEvent FileAdded <$> filter (λ f, isSourceFile h f = true) files.
Proof.
  induction files as [|f files IH]; [done|].
  rewrite fmap_cons, !filter_cons. simpl.
  destruct (decide (isSourceFile h f = true)); by rewrite IH.
Qed.

(** X15.  In a reachable state [enqueFiles], the initial scan of
    [onFileMonitorEnabled], leaves the index exactly as [onFilesChanged] does
    for one Added event per file. *)
Theorem enqueFiles_is_a_batch_of_added_events (h : Host) (files : list FileInfo)
    (ix : SourceFileIndex) :
  reachable h ix →
  enqueFiles h files ix = onFilesChanged h (mkEvent FileAdded <$> files) ix.
Proof.
  intros Hr. pose proof (reachable_flag h ix Hr) as Hflag.
  rewrite onFilesChanged_closed_form by done. cbv zeta.
  rewrite filter_fmap_added. unfold enqueFiles.
  set (q := indexingQueue_ ix ++ _).
  destruct (negb (bool_decide (q = []))) eqn:Hq; simpl.
  - by destruct (indexing_ ix).
  - rewrite Hflag. apply negb_false_iff, bool_decide_eq_true in Hq.
    unfold q in Hq. apply app_eq_nil in Hq as [-> _]. done.
Qed.

Lemma enqueFiles_is_a_batch_of_added_events_witness :
  enqueFiles demoHost [file "/p/b.R"] addedOnce
  = onFilesChanged demoHost (mkEvent FileAdded <$> [file "/p/b.R"]) addedOnce.
Proof.
  apply (enqueFiles_is_a_batch_of_added_events demoHost [file "/p/b.R"] addedOnce).
  apply reach_enqueFileChange, reach_init.
Defined.

#[local] Instance entry_lt_antisymm : AntiSymm (=) (λ a b : Entry, entry_lt a b = true).
Proof.
  intros a b Hab Hba. unfold entry_lt, fileInfoPathLessThan in *.
  apply ltb_asym in Hab. congruence.
Qed.

Lemma without_without p s : without p (without p s) = without p s.
Proof.
  apply without_fresh_id, without_fresh.
Qed.

Lemma without_replaceEntry e s :
  entries_sorted s → without (path_of e) (replaceEntry e s) = without (path_of e) s.
Proof.
  intros Hs. destruct (replaceEntry_spec e s Hs) as [Hs' Hp].
  apply (StronglySorted_unique (λ a b : Entry, entry_lt a b = true)).
  - by apply without_sorted.
  - by apply without_sorted.
  - unfold without at 1. rewrite Hp.
    rewrite filter_cons_False by (intros Hc; by apply Hc).
    fold (without (path_of e) (without (path_of e) s)).
    by rewrite without_without.
Qed.

(** X16.  In a reachable state: an update that gets as far as the insert
    leaves for the file exactly the new entry (the symbol data parsed from
    the text just read, or none for a file that is not indexable), whatever
    was stored before; removing the file after the update gives the entries
    that removing it before the update gives; and when the file had no entry,
    update followed by removal restores the entries exactly. *)
Theorem update_then_remove_round_trip (h : Host) (read : string → ReadResult)
    (f : FileInfo) (ix : SourceFileIndex) :
  reachable h ix →
  let s := entries_ ix in
  let updated := (updateIndexEntry h read f s).1 in
  (updates h read f = true →
   entriesFor f updated
   = [mkEntry f
        (if isIndexableSourceFile h f
         then match read (absolutePath f) with
              | ReadOk code =>
                  Some (newRSourceIndex h (createAliasedPath h (absolutePath f)) code)
              | ReadFailed _ => None
              end
         else None)])
  ∧ removeIndexEntry f updated = removeIndexEntry f s
  ∧ (entriesFor f s = [] → removeIndexEntry f updated = s).
Proof.
  intros Hr s updated. pose proof (reachable_sorted h ix Hr) as Hs. fold s in Hs.
  assert (entries_sorted updated) as Hs' by by apply updateIndexEntry_sorted.
  assert (removeIndexEntry f updated = removeIndexEntry f s) as Hrm.
  { rewrite !removeIndexEntry_spec by done.
    subst updated. unfold updateIndexEntry.
    destruct (isIndexableSourceFile h f).
    - destruct (read (absolutePath f)) as [code|error]; simpl.
      + apply (without_replaceEntry (mkEntry f (Some _)) s Hs).
      + by destruct (negb _).
    - simpl. apply (without_replaceEntry (mkEntry f None) s Hs). }
  split; [|split; [done|]].
  - intros Hu. subst updated. unfold updates in Hu. unfold updateIndexEntry.
    destruct (isIndexableSourceFile h f); simpl in *.
    + destruct (read (absolutePath f)) as [code|error]; [|done]. simpl.
      apply (entriesFor_replaceEntry (mkEntry f (Some _)) s Hs).
    + apply (entriesFor_replaceEntry (mkEntry f None) s Hs).
  - intros Hnone. rewrite Hrm, removeIndexEntry_spec by done.
    apply without_fresh_id, Forall_forall. intros y Hy Hp.
    assert (y ∈ entriesFor f s) as Hin by by apply list_elem_of_filter.
    rewrite Hnone in Hin. by apply elem_of_nil in Hin.
Qed.

Lemma update_then_remove_round_trip_witness :
  let s := entries_ oneRFile in
  let updated := (updateIndexEntry demoHost (readsOk "g") (file "/p/cd.R") s).1 in
  (updates demoHost (readsOk "g") (file "/p/cd.R") = true →
   entriesFor (file "/p/cd.R") updated
   = [mkEntry (file "/p/cd.R")
        (if isIndexableSourceFile demoHost (file "/p/cd.R")
         then match readsOk "g" "/p/cd.R" with
              | ReadOk code =>
                  Some (newRSourceIndex demoHost
                          (createAliasedPath demoHost "/p/cd.R") code)
              | ReadFailed _ => None
              end
         else None)])
  ∧ removeIndexEntry (file "/p/cd.R") updated = removeIndexEntry (file "/p/cd.R") s
  ∧ (entriesFor (file "/p/cd.R") s = [] →
     removeIndexEntry (file "/p/cd.R") updated = s).
Proof.
  apply (update_then_remove_round_trip demoHost (readsOk "g") (file "/p/cd.R") oneRFile).
  apply (reach_dequeAndIndex demoHost (readsOk "abc")), reach_enqueFiles, reach_init.
Defined.

(* ===================================================================== *)
(** ** The size and the origin of a response *)
(* ===================================================================== *)

Lemma filterScores_loop_count (pScore1 pScore2 : list ScorePair) n :
  ∀ c1 c2,
    (c1 ≤ length pScore1)%nat → (c2 ≤ length pScore2)%nat →
    let r := filterScores_loop pScore1 pScore2 n c1 c2 in
    (r.1 ≤ length pScore1)%nat ∧ (r.2 ≤ length pScore2)%nat
    ∧ (r.1 + r.2 = (c1 + c2 + n) `min` (length pScore1 + length pScore2))%nat.
Proof.
  induction n as [|n IH]; intros c1 c2 H1 H2; simpl.
  - lia.
  - destruct (Nat.eqb_spec c1 (length pScore1)) as [E1|N1].
    + destruct (Nat.ltb_spec c2 (length pScore2)).
      * destruct (IH c1 (S c2)) as (? & ? & ?); [lia|lia|]. lia.
      * destruct (IH c1 c2) as (? & ? & ?); [lia|lia|]. lia.
    + destruct (Nat.eqb_spec c2 (length pScore2)) as [E2|N2].
      * destruct (Nat.ltb_spec c1 (length pScore1)).
        -- destruct (IH (S c1) c2) as (? & ? & ?); [lia|lia|]. lia.
        -- lia.
      * destruct (_ <=? _).
        -- destruct (IH (S c1) c2) as (? & ? & ?); [lia|lia|]. lia.
        -- destruct (IH c1 (S c2)) as (? & ? & ?); [lia|lia|]. lia.
Qed.

(** X17.  [filterScores], for any two vectors (sorted or not) and any cap,
    keeps a prefix of each vector, and the number of items kept is the
    smaller of the cap (0 for a negative cap) and the number of items
    given. *)
Theorem filterScores_keeps_min_of_cap_and_total (pScore1 pScore2 : list ScorePair)
    (maxAmount : Z) :
  let r := filterScores pScore1 pScore2 maxAmount in
  r.1 `prefix_of` pScore1 ∧ r.2 `prefix_of` pScore2
  ∧ (length r.1 + length r.2
     = Z.to_nat maxAmount `min` (length pScore1 + length pScore2))%nat.
Proof.
  unfold filterScores.
  pose proof (filterScores_loop_count pScore1 pScore2 (Z.to_nat maxAmount) 0 0)
    as Hc.
  destruct (filterScores_loop _ _ _ 0 0) as [c1 c2]. simpl in *.
  destruct Hc as (H1 & H2 & H3); [lia|lia|].
  split; [apply prefix_take|]. split; [apply prefix_take|].
  rewrite !length_take. lia.
Qed.

Lemma rank_inv_count sort c term maxResults r :
  rank sort c term maxResults = Some r →
  ∃ fs0 ss0 c1 c2,
    scoreCandidates (names c) term true 0 = Some fs0
    ∧ scoreCandidates (si_name <$> srcItems c) term false 0 = Some ss0
    ∧ pick (names c) (take c1 (sort fs0)) = Some (file_filename r)
    ∧ pick (paths c) (take c1 (sort fs0)) = Some (file_path r)
    ∧ pick (srcItems c) (take c2 (sort ss0)) = Some (source_items r)
    ∧ (length (take c1 (sort fs0)) + length (take c2 (sort ss0))
       = maxResults `min` (length (sort fs0) + length (sort ss0)))%nat.
Proof.
  unfold rank, scorePhase.
  destruct (scoreCandidates (names c) term true 0) as [fs0|]; simpl; [|done].
  destruct (scoreCandidates (si_name <$> srcItems c) term false 0) as [ss0|];
    simpl; [|done].
  pose proof (filterScores_loop_count (sort fs0) (sort ss0)
                (Z.to_nat (Z.of_nat maxResults)) 0 0) as Hc.
  unfold filterScores.
  destruct (filterScores_loop _ _ _ 0 0) as [c1 c2]. simpl in Hc.
  destruct Hc as (H1 & H2 & Hc); [lia|lia|]. rewrite Nat2Z.id in Hc.
  assert (length (take c1 (sort fs0)) + length (take c2 (sort ss0))
          = maxResults `min` (length (sort fs0) + length (sort ss0)))%nat as Hc'
    by (rewrite !length_take; lia).
  clear Hc H1 H2.
  destruct (pick (names c) _) as [nf|] eqn:Hn; simpl; [|done].
  destruct (pick (paths c) _) as [pf|] eqn:Hp; simpl; [|done].
  destruct (pick (srcItems c) _) as [sf|] eqn:Hs; simpl; [|done].
  intros [= <-]. simpl. by exists fs0, ss0, c1, c2.
Qed.

(** X18.  A response of [searchCode] holds at most [maxResults] results, files
    and symbols together, 20 when the requested number is negative; it has a
    path for every file name; and when the sort keeps the elements, the
    number of results is exactly the smaller of that cap and the number of
    candidates collected. *)
Theorem response_size_is_capped (sort : list ScorePair → list ScorePair)
    (h : Host) (indexes : list RSourceIndex) (ix : SourceFileIndex)
    (term : string) (maxResultsInt : Z) (r : Response) :
  searchCode sort h indexes ix term maxResultsInt = Some r →
  (length (file_filename r) + length (source_items r)
   ≤ (if (maxResultsInt <? 0)%Z then 20 else Z.to_nat maxResultsInt))%nat
  ∧ length (file_path r) = length (file_filename r)
  ∧ (std_sort_contract sort →
     (length (file_filename r) + length (source_items r)
      = (if (maxResultsInt <? 0)%Z then 20 else Z.to_nat maxResultsInt)
        `min` (length (names (collect h indexes ix term))
               + length (srcItems (collect h indexes ix term))))%nat).
Proof.
  unfold searchCode, numberTo_size_t.
  intros (fs0 & ss0 & c1 & c2 & Hf & Hs & Hpn & Hpp & Hps & Hc)%rank_inv_count.
  apply length_mapM in Hpn, Hpp, Hps. rewrite <- Hpn, <- Hpp, <- Hps.
  split; [lia|]. split; [done|].
  intros Hsort.
  apply scoreCandidates_names in Hf as [Hlf _].
  apply scoreCandidates_items in Hs as [Hls _].
  destruct (Hsort fs0) as [Hpf _], (Hsort ss0) as [Hpss _].
  apply Permutation_length in Hpf, Hpss. lia.
Qed.

Lemma response_size_is_capped_witness :
  (length ["ab.R"%string] + length [mkSourceItem SFunction "abd" "" "/p/ab.R" 1 1]
   ≤ (if (-1 <? 0)%Z then 20 else Z.to_nat (-1)))%nat
  ∧ length ["/p/ab.R"%string] = length ["ab.R"%string]
  ∧ (std_sort_contract stableSort →
     (length ["ab.R"%string] + length [mkSourceItem SFunction "abd" "" "/p/ab.R" 1 1]
      = (if (-1 <? 0)%Z then 20 else Z.to_nat (-1))
        `min` (length (names (collect unmonitoredHost [liveDoc "/p/ab.R" "abd"]
                                empty_index "ab"))
               + length (srcItems (collect unmonitoredHost
                                     [liveDoc "/p/ab.R" "abd"] empty_index "ab"))))%nat).
Proof.
  apply (response_size_is_capped stableSort unmonitoredHost
           [liveDoc "/p/ab.R" "abd"] empty_index "ab" (-1)
           (mkResponse ["ab.R"%string] ["/p/ab.R"%string]
              [mkSourceItem SFunction "abd" "" "/p/ab.R" 1 1] false)).
  vm_compute. reflexivity.
Defined.

Lemma omap_submseteq {A B} (f : A → option B) (l k : list A) :
  l ⊆+ k → omap f l ⊆+ omap f k.
Proof.
  induction 1 as [|x l k _ IH|x y l|x l k _ IH|l k m _ IH1 _ IH2]; simpl.
  - done.
  - destruct (f x); [by constructor|done].
  - destruct (f x), (f y); try done. apply submseteq_swap.
  - destruct (f x); [by constructor|done].
  - by etrans.
Qed.

Lemma omap_Some {A} (l : list A) : omap id (Some <$> l) = l.
Proof. induction l as [|x l IH]; csimpl; [done|]. by rewrite IH. Qed.

(** The read [v[pair.first]] of [pick]. *)
Lemma pick_fmap {A} (v : list A) (sc : list ScorePair) picked :
  pick v sc = Some picked →
  (λ p : ScorePair, if p.1 <? 0 then None else v !! Z.to_nat p.1) <$> sc
  = Some <$> picked.
Proof.
  unfold pick. intros Hp%mapM_Some.
  induction Hp as [|p x sc picked Hpx _ IH]; [done|].
  rewrite !fmap_cons. simpl in *. by rewrite Hpx, IH.
Qed.

Lemma scoreCandidates_reads {A} term isFile (l : list string) :
  ∀ (pre v : list A) sc,
    length v = length l →
    scoreCandidates l term isFile (Z.of_nat (length pre)) = Some sc →
    (λ p : ScorePair, if p.1 <? 0 then None else (pre ++ v) !! Z.to_nat p.1) <$> sc
    = Some <$> v.
Proof.
  induction l as [|name l IH]; intros pre v sc Hlen Hsc; simpl in *.
  - injection Hsc as <-. by destruct v.
  - destruct v as [|x v]; [done|]. simpl in Hlen.
    destruct (scoreMatch name term isFile) as [s|]; [|done]. simpl in Hsc.
    destruct (scoreCandidates l term isFile (Z.of_nat (length pre) + 1))
      as [rest|] eqn:Hrest; [|done].
    injection Hsc as <-. rewrite !fmap_cons. simpl.
    destruct (Z.ltb_spec (Z.of_nat (length pre)) 0); [lia|].
    rewrite Nat2Z.id, lookup_app_r, Nat.sub_diag by lia. simpl. f_equal.
    specialize (IH (pre ++ [x]) v rest).
    rewrite length_app in IH. simpl in IH.
    rewrite Nat2Z.inj_add, <- app_assoc in IH. simpl in IH.
    apply IH; [lia|done].
Qed.

Lemma kept_candidates_submseteq {A} sort term isFile (l : list string)
    (v : list A) sc c1 picked :
  std_sort_contract sort →
  length v = length l →
  scoreCandidates l term isFile 0 = Some sc →
  pick v (take c1 (sort sc)) = Some picked →
  picked ⊆+ v.
Proof.
  intros Hsort Hlen Hsc Hp.
  apply pick_fmap in Hp.
  pose proof (scoreCandidates_reads term isFile l [] v sc Hlen Hsc) as Hr.
  simpl in Hr.
  rewrite <- (omap_Some picked), <- (omap_Some v), <- Hp, <- Hr.
  apply omap_submseteq, fmap_submseteq.
  etrans; [apply submseteq_take|].
  apply Permutation_submseteq. by destruct (Hsort sc).
Qed.

Lemma pick_zip {A B} (v : list A) (w : list B) sc pv pw :
  pick v sc = Some pv → pick w sc = Some pw →
  pick (zip v w) sc = Some (zip pv pw).
Proof.
  unfold pick. intros Hv%mapM_Some Hw%mapM_Some. apply mapM_Some.
  revert pw Hw. induction Hv as [|p x sc pv Hpx _ IH]; intros pw Hw.
  - apply Forall2_nil_inv_l in Hw as ->. constructor.
  - apply Forall2_cons_inv_l in Hw as (y & pw' & Hpy & Hw & ->). simpl.
    constructor; [|by apply IH].
    simpl in *. destruct (p.1 <? 0); [done|].
    rewrite lookup_zip_with, Hpx, Hpy. done.
Qed.

(** X19.  Every (file name, path) pair of a response of [searchCode] is a
    pair collected for the query, and every symbol is a collected symbol; no
    candidate is returned more often than it was collected. *)
Theorem results_are_distinct_candidates (sort : list ScorePair → list ScorePair)
    (h : Host) (indexes : list RSourceIndex) (ix : SourceFileIndex)
    (term : string) (maxResultsInt : Z) (r : Response) :
  std_sort_contract sort →
  searchCode sort h indexes ix term maxResultsInt = Some r →
  let c := collect h indexes ix term in
  zip (file_filename r) (file_path r) ⊆+ zip (names c) (paths c)
  ∧ source_items r ⊆+ srcItems c.
Proof.
  intros Hsort Hr c. unfold searchCode in Hr. fold c in Hr.
  apply rank_inv in Hr as (fs0 & ss0 & c1 & c2 & Hf & Hs & Hpn & Hpp & Hps & _).
  destruct (collect_bounds sort h indexes ix term maxResultsInt Hsort)
    as (_ & Hlen & _). fold c in Hlen.
  split.
  - apply (kept_candidates_submseteq sort term true (names c) _ fs0 c1);
      [done| |done|by apply pick_zip].
    rewrite length_zip_with. lia.
  - apply (kept_candidates_submseteq sort term false (si_name <$> srcItems c)
             _ ss0 c2); [done| |done|done].
    by rewrite length_fmap.
Qed.

Lemma results_are_distinct_candidates_witness :
  let c := collect unmonitoredHost [liveDoc "/p/ab.R" "abd"] empty_index "ab" in
  zip ["ab.R"%string] ["/p/ab.R"%string] ⊆+ zip (names c) (paths c)
  ∧ [mkSourceItem SFunction "abd" "" "/p/ab.R" 1 1] ⊆+ srcItems c.
Proof.
  apply (results_are_distinct_candidates stableSort unmonitoredHost
           [liveDoc "/p/ab.R" "abd"] empty_index "ab" 20
           (mkResponse ["ab.R"%string] ["/p/ab.R"%string]
              [mkSourceItem SFunction "abd" "" "/p/ab.R" 1 1] false)).
  - apply stableSort_contract.
  - vm_compute. reflexivity.
Defined.

(* ===================================================================== *)
(** ** The range of the scores *)
(* ===================================================================== *)

Lemma Zsum_nonneg (l : list Z) : Forall (λ x, 0 ≤ x) l → 0 ≤ Zsum l.
Proof. induction 1 as [|x l Hx _ IH]; unfold Zsum in *; simpl; lia. Qed.

Lemma closed_sum_nonneg (suggestion query : string) (isFile : bool) :
  0 ≤ Zsum (imap (λ j matchPos,
                    (if followsDelimiter suggestion isFile matchPos
                     then Z.of_nat j + 1 else matchPos)
                    + lowValuePenalty suggestion)
                 (matchPositions suggestion query)).
Proof.
  apply Zsum_nonneg, Forall_lookup. intros j x Hx.
  rewrite list_lookup_imap in Hx.
  destruct (matchPositions suggestion query !! j) as [p|] eqn:Hp; [|done].
  injection Hx as <-.
  apply list_elem_of_lookup_2, matchPositions_range in Hp.
  unfold lowValuePenalty.
  destruct (followsDelimiter _ _ _), (String.eqb _ ".rd"); lia.
Qed.

(** X20.  While [|query| * (|suggestion| + 3) + 1] fits a 32-bit [int], a
    score returned by [scoreMatch] lies between 0 and that number, and for a
    file candidate only the exact match scores 0: any other file scores at
    least 1. *)
Theorem score_range (suggestion query : string) (isFile : bool) (score : Z) :
  scoreMatch suggestion query isFile = Some score →
  Z.of_nat (String.length query) * (Z.of_nat (String.length suggestion) + 3) + 1
    ≤ 2147483647 →
  0 ≤ score
    ≤ Z.of_nat (String.length query) * (Z.of_nat (String.length suggestion) + 3) + 1
  ∧ (isFile = true → suggestion ≠ query → 1 ≤ score).
Proof.
  intros Hs Hfit.
  destruct (scoreMatch_bounds suggestion query isFile score Hs) as [_ Hb].
  split; [by apply Hb|].
  intros -> Hne.
  assert (is_Some (scoreMatch suggestion query true)) as [->|Hsub]%scoreMatch_total_iff
    by by eexists.
  { done. }
  rewrite (scoreMatch_closed_form _ _ _ Hsub Hfit) in Hs. injection Hs as <-.
  unfold scoreMatch_queryIndexPlusOne.
  destruct (String.eqb_spec suggestion query) as [->|_]; [done|].
  pose proof (closed_sum_nonneg suggestion query true). lia.
Qed.

Lemma score_range_witness :
  0 ≤ 2 ≤ Z.of_nat (String.length "a") * (Z.of_nat (String.length "xa.c") + 3) + 1
  ∧ (true = true → "xa.c"%string ≠ "a"%string → 1 ≤ 2).
Proof.
  apply (score_range "xa.c" "a" true 2); [vm_compute; reflexivity|].
  vm_compute. discriminate.
Defined.

(* ===================================================================== *)
(** ** Where project symbols come from *)
(* ===================================================================== *)

Lemma elem_of_concat {A} (x : A) (ls : list (list A)) :
  x ∈ concat ls ↔ ∃ l, l ∈ ls ∧ x ∈ l.
Proof.
  induction ls as [|l ls IH]; simpl.
  - split; [by intros ?%elem_of_nil|]. by intros (l & ?%elem_of_nil & _).
  - rewrite elem_of_app, IH. split.
    + intros [Hx|(l' & Hl & Hx)].
      * exists l. split; [by left|done].
      * exists l'. split; [by right|done].
    + intros (l' & Hl & Hx). apply elem_of_cons in Hl as [->|Hl]; [by left|].
      right. eauto.
Qed.

Lemma searchedIndexes_origin h ix excludeContexts idx :
  reachable h ix →
  idx ∈ searchedIndexes excludeContexts (entries_ ix) →
  (context idx ∉ excludeContexts)
  ∧ ∃ e, e ∈ entries_ ix ∧ pIndex e = Some idx
         ∧ isIndexableSourceFile h (fileInfo e) = true
         ∧ context idx = createAliasedPath h (path_of e).
Proof.
  intros Hr Hin. apply list_elem_of_filter in Hin as [Hout Hin].
  split; [done|].
  apply list_elem_of_omap in Hin as (e & He & Hp).
  exists e. split; [done|]. split; [done|].
  destruct (reachable_wf h ix Hr) as [Hwf _].
  rewrite Forall_forall in Hwf. destruct (Hwf e He) as [_ Hidx].
  rewrite Hp in Hidx. destruct Hidx as [Hi [code ->]]. done.
Qed.

(** X21.  In a reachable state every symbol that [SourceFileIndex::searchSource]
    or [SourceFileIndex::findGlobalFunction] returns carries, as its context,
    the aliased path of a stored entry whose file is indexable, and that
    context is not one of the excluded contexts. *)
Theorem project_symbols_point_to_indexed_files (h : Host) (ix : SourceFileIndex)
    (term functionName : string) (maxResults : nat) (prefixOnly : bool)
    (excludeContexts : gset string) (sourceItem : RSourceItem) :
  reachable h ix →
  (sourceItem
     ∈ Index.searchSource h ix term maxResults prefixOnly excludeContexts []
   ∨ Index.findGlobalFunction ix functionName excludeContexts = Some sourceItem) →
  (ri_context sourceItem ∉ excludeContexts)
  ∧ ∃ e, e ∈ entries_ ix
         ∧ isIndexableSourceFile h (fileInfo e) = true
         ∧ ri_context sourceItem = createAliasedPath h (path_of e).
Proof.
  intros Hr Hfound.
  assert (∃ idx, idx ∈ searchedIndexes excludeContexts (entries_ ix)
                 ∧ ri_context sourceItem = context idx) as (idx & Hidx & ->).
  { destruct Hfound as [Hin|Hf].
    - unfold Index.searchSource in Hin.
      rewrite searchSource_loop_closed_form, app_nil_l in Hin by (simpl; lia).
      apply elem_of_take in Hin as (i & Hin%list_elem_of_lookup_2 & _).
      unfold allMatches in Hin.
      apply elem_of_concat in Hin as (l & Hl & Hit).
      apply list_elem_of_fmap in Hl as (idx & -> & Hidx).
      exists idx. split; [done|]. by apply rsearch_context in Hit.
    - unfold Index.findGlobalFunction in Hf.
      rewrite findGlobalFunction_loop_closed_form in Hf.
      pose proof (head_concat_spec
                    (globalFunctions functionName
                       <$> searchedIndexes excludeContexts (entries_ ix))) as Hs.
      rewrite Hf in Hs. destruct Hs as (l & Hl & Hit).
      apply list_elem_of_fmap in Hl as (idx & -> & Hidx).
      apply elem_of_globalFunctions in Hit as (raw & _ & _ & ->).
      by exists idx. }
  destruct (searchedIndexes_origin h ix excludeContexts idx Hr Hidx)
    as (Hout & e & He & _ & Hi & Hc).
  split; [done|]. by exists e.
Qed.

Lemma project_symbols_point_to_indexed_files_witness :
  (ri_context (mkRItem RFunction "abc" [] 0 1 1 "/p/ab.R") ∉ (∅ : gset string))
  ∧ ∃ e, e ∈ entries_ oneRFile
         ∧ isIndexableSourceFile demoHost (fileInfo e) = true
         ∧ ri_context (mkRItem RFunction "abc" [] 0 1 1 "/p/ab.R")
           = createAliasedPath demoHost (path_of e).
Proof.
  apply (project_symbols_point_to_indexed_files demoHost oneRFile "ab" "abc" 20
           false ∅ (mkRItem RFunction "abc" [] 0 1 1 "/p/ab.R")).
  - apply (reach_dequeAndIndex demoHost (readsOk "abc")), reach_enqueFiles, reach_init.
  - right. vm_compute. reflexivity.
Defined.

(* ===================================================================== *)
(** ** Repeated and reordered events *)
(* ===================================================================== *)

Lemma processChange_replacement h read event s :
  entries_sorted s →
  match replacement h read event with
  | Some l =>
      (processChange h read event s).1
      ≡ₚ l ++ without (absolutePath (ev_fileInfo event)) s
  | None => (processChange h read event s).1 = s
  end.
Proof.
  intros Hs. unfold replacement, processChange, updateIndexEntry.
  destruct (ev_type event); simpl; [done| | |].
  - destruct (isIndexableSourceFile h (ev_fileInfo event)).
    + destruct (read _) as [code|error]; simpl.
      * apply (replaceEntry_spec (mkEntry (ev_fileInfo event) (Some _)) s Hs).
      * by destruct (negb _).
    + apply (replaceEntry_spec (mkEntry (ev_fileInfo event) None) s Hs).
  - destruct (isIndexableSourceFile h (ev_fileInfo event)).
    + destruct (read _) as [code|error]; simpl.
      * apply (replaceEntry_spec (mkEntry (ev_fileInfo event) (Some _)) s Hs).
      * by destruct (negb _).
    + apply (replaceEntry_spec (mkEntry (ev_fileInfo event) None) s Hs).
  - by rewrite removeIndexEntry_spec.
Qed.

Lemma replacement_paths h read event l :
  replacement h read event = Some l →
  Forall (λ e, path_of e = absolutePath (ev_fileInfo event)) l.
Proof.
  unfold replacement.
  destruct (ev_type event); [done| | |by intros [= <-]].
  - destruct (isIndexableSourceFile h _).
    + destruct (read _); [|done]. intros [= <-]. by constructor.
    + intros [= <-]. by constructor.
  - destruct (isIndexableSourceFile h _).
    + destruct (read _); [|done]. intros [= <-]. by constructor.
    + intros [= <-]. by constructor.
Qed.

Lemma without_all p l : Forall (λ e, path_of e = p) l → without p l = [].
Proof.
  intros Hl. apply filter_none. eapply Forall_impl; [exact Hl|].
  intros e He Hne. by apply Hne.
Qed.

Lemma without_other p q l :
  p ≠ q → Forall (λ e, path_of e = p) l → without q l = l.
Proof.
  intros Hne Hl. apply without_fresh_id. eapply Forall_impl; [exact Hl|].
  intros e He. congruence.
Qed.

Lemma without_app p l s : without p (l ++ s) = without p l ++ without p s.
Proof. apply filter_app. Qed.

Lemma without_comm p q s : without p (without q s) = without q (without p s).
Proof.
  unfold without. induction s as [|x s IH]; [done|].
  rewrite !filter_cons.
  destruct (decide (path_of x ≠ q)), (decide (path_of x ≠ p));
    rewrite ?filter_cons, ?decide_True, ?decide_False by done; by rewrite IH.
Qed.

Lemma without_perm p s1 s2 : s1 ≡ₚ s2 → without p s1 ≡ₚ without p s2.
Proof. intros Hp. unfold without. by rewrite Hp. Qed.


Lemma sorted_perm_eq s1 s2 :
  entries_sorted s1 → entries_sorted s2 → s1 ≡ₚ s2 → s1 = s2.
Proof. apply (StronglySorted_unique (λ a b : Entry, entry_lt a b = true)). Qed.


(** X22.  In a reachable state, processing the same change event a second
    time, against the same answer of the file system, leaves the entries
    exactly as the first time left them. *)
Theorem repeated_event_changes_nothing (h : Host) (read : string → ReadResult)
    (event : FileChangeEvent) (ix : SourceFileIndex) :
  reachable h ix →
  let once := (processChange h read event (entries_ ix)).1 in
  (processChange h read event once).1 = once.
Proof.
  intros Hr once. pose proof (reachable_sorted h ix Hr) as Hs.
  assert (entries_sorted once) as Hs1 by by apply processChange_sorted.
  pose proof (processChange_replacement h read event (entries_ ix) Hs) as H1.
  pose proof (processChange_replacement h read event once Hs1) as H2.
  fold once in H1.
  destruct (replacement h read event) as [l|] eqn:Hl; [|done].
  apply sorted_perm_eq; [by apply processChange_sorted|done|].
  etrans; [exact H2|]. etrans; [|symmetry; exact H1].
  apply Permutation_app_head.
  etrans; [apply (without_perm _ _ _ H1)|].
  rewrite without_app, without_all, without_without, app_nil_l
    by by eapply replacement_paths.
  done.
Qed.

Lemma repeated_event_changes_nothing_witness :
  let once := (processChange demoHost (readsOk "g")
                 (mkEvent FileModified (file "/p/ab.R")) (entries_ oneRFile)).1 in
  (processChange demoHost (readsOk "g")
     (mkEvent FileModified (file "/p/ab.R")) once).1 = once.
Proof.
  apply (repeated_event_changes_nothing demoHost (readsOk "g")
           (mkEvent FileModified (file "/p/ab.R")) oneRFile).
  apply (reach_dequeAndIndex demoHost (readsOk "abc")), reach_enqueFiles, reach_init.
Defined.

(** X23.  In a reachable state, two change events for files with different
    paths can be processed in either order: the entries afterwards are the
    same. *)
Theorem events_of_different_files_commute (h : Host)
    (read1 read2 : string → ReadResult) (event1 event2 : FileChangeEvent)
    (ix : SourceFileIndex) :
  reachable h ix →
  absolutePath (ev_fileInfo event1) ≠ absolutePath (ev_fileInfo event2) →
  (processChange h read2 event2
     (processChange h read1 event1 (entries_ ix)).1).1
  = (processChange h read1 event1
       (processChange h read2 event2 (entries_ ix)).1).1.
Proof.
  intros Hr Hne. pose proof (reachable_sorted h ix Hr) as Hs.
  set (s := entries_ ix) in *.
  set (s1 := (processChange h read1 event1 s).1).
  set (s2 := (processChange h read2 event2 s).1).
  assert (entries_sorted s1) as Hs1 by by apply processChange_sorted.
  assert (entries_sorted s2) as Hs2 by by apply processChange_sorted.
  pose proof (processChange_replacement h read1 event1 s Hs) as H1.
  pose proof (processChange_replacement h read2 event2 s Hs) as H2.
  pose proof (processChange_replacement h read2 event2 s1 Hs1) as H12.
  pose proof (processChange_replacement h read1 event1 s2 Hs2) as H21.
  fold s1 in H1. fold s2 in H2.
  apply sorted_perm_eq; [by apply processChange_sorted|by apply processChange_sorted|].
  destruct (replacement h read1 event1) as [l1|] eqn:Hl1,
           (replacement h read2 event2) as [l2|] eqn:Hl2.
  - apply replacement_paths in Hl1, Hl2.
    etrans; [exact H12|]. etrans; [|symmetry; exact H21].
    etrans; [apply Permutation_app_head, (without_perm _ _ _ H1)|].
    etrans; [|apply Permutation_app_head; symmetry; apply (without_perm _ _ _ H2)].
    rewrite !without_app.
    rewrite (without_other _ _ l1 Hne Hl1).
    rewrite (without_other _ _ l2 (not_eq_sym Hne) Hl2).
    rewrite (without_comm (absolutePath (ev_fileInfo event2))).
    rewrite !app_assoc. apply Permutation_app_tail, Permutation_app_comm.
  - rewrite H12. rewrite H2. done.
  - rewrite H21. rewrite H1. done.
  - rewrite H12, H21, H1, H2. done.
Qed.

Lemma events_of_different_files_commute_witness :
  (processChange demoHost (readsOk "g") (mkEvent FileRemoved (file "/p/ab.R"))
     (processChange demoHost (readsOk "f") (mkEvent FileAdded (file "/p/cd.R"))
        (entries_ oneRFile)).1).1
  = (processChange demoHost (readsOk "f") (mkEvent FileAdded (file "/p/cd.R"))
       (processChange demoHost (readsOk "g") (mkEvent FileRemoved (file "/p/ab.R"))
          (entries_ oneRFile)).1).1.
Proof.
  apply (events_of_different_files_commute demoHost (readsOk "f") (readsOk "g")
           (mkEvent FileAdded (file "/p/cd.R"))
           (mkEvent FileRemoved (file "/p/ab.R")) oneRFile).
  - apply (reach_dequeAndIndex demoHost (readsOk "abc")), reach_enqueFiles, reach_init.
  - simpl. congruence.
Defined.

(* ===================================================================== *)
(** ** A file open in the editor and indexed on disk *)
(* ===================================================================== *)

Lemma filter_all {A} (P : A → Prop) `{∀ x, Decision (P x)} (l : list A) :
  Forall P l → filter P l = l.
Proof.
  induction 1 as [|x l Hx _ IH]; [done|].
  by rewrite filter_cons_True, IH.
Qed.

Lemma filter_context_allMatches h term prefixOnly (c : string) l :
  filter (λ it, ri_context it = c) (allMatches h term prefixOnly l)
  = allMatches h term prefixOnly (filter (λ idx, context idx = c) l).
Proof.
  unfold allMatches. induction l as [|idx l IH]; [done|].
  rewrite fmap_cons. simpl. rewrite filter_app, IH, filter_cons.
  destruct (decide (context idx = c)) as [E|E].
  - rewrite fmap_cons. simpl. f_equal.
    apply filter_all, Forall_forall. intros it Hit.
    apply rsearch_context in Hit. congruence.
  - rewrite filter_none; [done|]. apply Forall_forall. intros it Hit.
    apply rsearch_context in Hit. congruence.
Qed.

Lemma unshadowed_matches_are_other_files h term prefixOnly live s (L : RSourceIndex) it :
  L ∈ live →
  it ∈ allMatches h term prefixOnly (searchedIndexes (contextsOf live) s) →
  ri_context it ≠ context L.
Proof.
  intros HL Hit E. unfold allMatches in Hit.
  apply elem_of_concat in Hit as (l & Hl & Hit).
  apply list_elem_of_fmap in Hl as (idx & -> & Hidx).
  apply rsearch_context in Hit.
  apply list_elem_of_filter in Hidx as [Hout _]. apply Hout.
  rewrite <- Hit, E. unfold contextsOf.
  apply elem_of_list_to_set, list_elem_of_fmap. eauto.
Qed.

(** C1, as amended.  Let [L] be a live document that passes the scope
    filter.  For every term and budget the merged symbol search is the first
    [maxResults] items of: the matches of the live documents in scope, one
    document after the other, followed by the matches of the project entries
    whose context is not the context of such a document.  The Entry Store
    pass returns nothing with a context recorded by the source-database pass
    and nothing with the context of [L], so no result of that file comes from
    its entry on disk.  The results of that file are the matches of the live
    documents of that context that are among the first [maxResults] live
    matches: all of them, each once, when the live documents give no more
    than [maxResults] matches. *)
Theorem live_document_excludes_project_entry (h : Host)
    (indexes : list RSourceIndex) (ix : SourceFileIndex) (term : string)
    (maxResults : nat) (prefixOnly : bool) (L : RSourceIndex) :
  L ∈ indexes →
  sourceDatabaseFilter h L = true →
  let live := liveIndexes h indexes in
  let liveItems := allMatches h term prefixOnly live in
  let projItems :=
    allMatches h term prefixOnly (searchedIndexes (contextsOf live) (entries_ ix)) in
  let ofFile := filter (λ it : RSourceItem, ri_context it = context L) in
  let passes := searchSource_passes h indexes ix term maxResults prefixOnly [] in
  let merged := (Query.searchSource h indexes ix term maxResults prefixOnly []).1 in
  merged = take maxResults (liveItems ++ projItems)
  ∧ (∀ it, it ∈ passes.2 → ri_context it ∉ passes.1.2)
  ∧ (∀ it, it ∈ passes.2 ∨ it ∈ projItems → ri_context it ≠ context L)
  ∧ ofFile liveItems
    = allMatches h term prefixOnly
        (filter (λ idx, context idx = context L) live)
  ∧ ofFile merged = ofFile (take maxResults liveItems)
  ∧ ((length liveItems ≤ maxResults)%nat → ofFile merged = ofFile liveItems).
Proof.
  intros HL Hf live liveItems projItems ofFile passes merged.
  assert (L ∈ live) as HLlive by by apply list_elem_of_filter.
  destruct (entry_store_pass_skips_live_contexts h indexes ix term maxResults
              prefixOnly L HL Hf) as [Hex HnotL]. fold passes in Hex, HnotL.
  assert (∀ it, it ∈ projItems → ri_context it ≠ context L) as Hproj.
  { intros it Hit.
    by apply (unshadowed_matches_are_other_files h term prefixOnly live
                (entries_ ix) L it). }
  assert (merged = take maxResults (liveItems ++ projItems)) as Hm.
  { unfold merged. by rewrite searchSource_merged. }
  assert (ofFile merged = ofFile (take maxResults liveItems)) as Hcut.
  { rewrite Hm. destruct (decide (maxResults ≤ length liveItems)%nat) as [Hle|Hgt].
    - by rewrite take_app_le.
    - rewrite take_app_ge, (take_ge liveItems) by lia.
      unfold ofFile. rewrite filter_app.
      rewrite (filter_none _ (take _ projItems)); [by rewrite app_nil_r|].
      apply Forall_forall. intros it Hit%subseteq_take. by apply Hproj. }
  split; [done|]. split; [done|].
  split; [intros it [Hit|Hit]; [by apply HnotL|by apply Hproj]|].
  split; [apply filter_context_allMatches|].
  split; [done|].
  intros Hfit. by rewrite Hcut, take_ge.
Qed.

(** Two open documents, the second also indexed on disk. *)
Lemma live_document_excludes_project_entry_witness :
  let indexes := [liveDoc "/p/aa.R" "abx"; liveDoc "/p/ab.R" "abd"] in
  let live := liveIndexes demoHost indexes in
  let liveItems := allMatches demoHost "ab" false live in
  let projItems :=
    allMatches demoHost "ab" false
      (searchedIndexes (contextsOf live) (entries_ oneRFile)) in
  let ofFile := filter (λ it : RSourceItem, ri_context it = "/p/ab.R"%string) in
  let passes := searchSource_passes demoHost indexes oneRFile "ab" 20 false [] in
  let merged := (Query.searchSource demoHost indexes oneRFile "ab" 20 false []).1 in
  merged = take 20 (liveItems ++ projItems)
  ∧ (∀ it, it ∈ passes.2 → ri_context it ∉ passes.1.2)
  ∧ (∀ it, it ∈ passes.2 ∨ it ∈ projItems → ri_context it ≠ "/p/ab.R"%string)
  ∧ ofFile liveItems
    = allMatches demoHost "ab" false
        (filter (λ idx, context idx = "/p/ab.R"%string) live)
  ∧ ofFile merged = ofFile (take 20 liveItems)
  ∧ ((length liveItems ≤ 20)%nat → ofFile merged = ofFile liveItems).
Proof.
  apply (live_document_excludes_project_entry demoHost
           [liveDoc "/p/aa.R" "abx"; liveDoc "/p/ab.R" "abd"] oneRFile "ab" 20
           false (liveDoc "/p/ab.R" "abd")).
  - apply list_elem_of_further, list_elem_of_here.
  - reflexivity.
Defined.

(** C1, the counterexample.  "/p/ab.R" is open in the editor and indexed on
    disk, and the term "ab" matches a symbol in both; another document is
    scanned first.  Under a budget of 1 the merged search returns the symbol
    of the other document and nothing of "/p/ab.R". *)
Lemma budget_can_leave_the_open_file_out :
  let indexes := [liveDoc "/p/aa.R" "abx"; liveDoc "/p/ab.R" "abd"] in
  let merged := (Query.searchSource demoHost indexes oneRFile "ab" 1 false []).1 in
  sourceDatabaseFilter demoHost (liveDoc "/p/ab.R" "abd") = true
  ∧ rsearch demoHost (liveDoc "/p/ab.R" "abd") "ab" false false
    = [mkRItem RFunction "abd" [] 0 1 1 "/p/ab.R"]
  ∧ Index.searchSource demoHost oneRFile "ab" 1 false ∅ []
    = [mkRItem RFunction "abc" [] 0 1 1 "/p/ab.R"]
  ∧ merged = [mkRItem RFunction "abx" [] 0 1 1 "/p/aa.R"]
  ∧ filter (λ it, ri_context it = "/p/ab.R"%string) merged = [].
Proof. repeat split; vm_compute; reflexivity. Qed.

(* ===================================================================== *)
(** ** The merge inside a response *)
(* ===================================================================== *)

(** What [rank] answers, in terms of the merge. *)
Lemma rank_merge sort c term maxResults r :
  rank sort c term maxResults = Some r →
  ∃ fileScores srcItemScores,
    scorePhase sort c term = Some (fileScores, srcItemScores)
    ∧ let kept := filterScores fileScores srcItemScores (Z.of_nat maxResults) in
      pick (names c) kept.1 = Some (file_filename r)
      ∧ pick (paths c) kept.1 = Some (file_path r)
      ∧ pick (srcItems c) kept.2 = Some (source_items r)
      ∧ (more_available r = true
         ↔ (length kept.1 + length kept.2
            < length fileScores + length srcItemScores)%nat).
Proof.
  unfold rank.
  destruct (scorePhase sort c term) as [[fileScores srcItemScores]|]; simpl; [|done].
  intros Hr. exists fileScores, srcItemScores. split; [done|]. cbv zeta.
  assert (let kept := filterScores fileScores srcItemScores (Z.of_nat maxResults) in
          kept.1 `prefix_of` fileScores ∧ kept.2 `prefix_of` srcItemScores)
    as [Hp1 Hp2].
  { unfold filterScores. destruct (filterScores_loop _ _ _ 0 0) as [c1 c2].
    split; apply prefix_take. }
  destruct (filterScores fileScores srcItemScores (Z.of_nat maxResults))
    as [kept1 kept2]. simpl in *.
  destruct (pick (names c) kept1) as [nf|] eqn:Hn; simpl in Hr; [|done].
  destruct (pick (paths c) kept1) as [pf|] eqn:Hp; simpl in Hr; [|done].
  destruct (pick (srcItems c) kept2) as [sf|] eqn:Hs; simpl in Hr; [|done].
  injection Hr as <-. simpl.
  split; [done|]. split; [done|]. split; [done|].
  apply prefix_length in Hp1, Hp2.
  rewrite orb_true_iff, !Nat.ltb_lt. lia.
Qed.

(** C2.  For two candidate lists sorted ascending by score and a cap [K] with
    [0 <= K <= m + n], [filterScores] keeps a prefix of each list, [K] items in
    all, and no kept item scores above a dropped one: the kept items are the
    [K] smallest scores of both lists.  And for a request whose candidates
    can all be scored, [searchCode] answers with a response that holds the
    candidates [filterScores] kept of the two sorted score lists, under the
    requested cap, and [more_available] is set exactly when the merge dropped
    a candidate of either list. *)
Theorem filterScores_keeps_the_K_smallest (pScore1 pScore2 : list ScorePair)
    (K : Z) (sort : list ScorePair → list ScorePair) (h : Host)
    (indexes : list RSourceIndex) (ix : SourceFileIndex) (term : string)
    (maxResultsInt : Z) :
  StronglySorted score_le pScore1 →
  StronglySorted score_le pScore2 →
  0 ≤ K ≤ Z.of_nat (length pScore1 + length pScore2) →
  std_sort_contract sort →
  Forall (λ name, is_Some (scoreMatch name term true))
         (names (collect h indexes ix term)) →
  Forall (λ it, is_Some (scoreMatch (si_name it) term false))
         (srcItems (collect h indexes ix term)) →
  (∃ c1 c2 : nat,
     filterScores pScore1 pScore2 K = (take c1 pScore1, take c2 pScore2)
     ∧ (c1 ≤ length pScore1)%nat ∧ (c2 ≤ length pScore2)%nat
     ∧ Z.of_nat (c1 + c2) = K
     ∧ ∀ a b, a ∈ take c1 pScore1 ++ take c2 pScore2 →
              b ∈ drop c1 pScore1 ++ drop c2 pScore2 → a.2 ≤ b.2)
  ∧ ∃ r fileScores srcItemScores,
      searchCode sort h indexes ix term maxResultsInt = Some r
      ∧ scorePhase sort (collect h indexes ix term) term
        = Some (fileScores, srcItemScores)
      ∧ StronglySorted score_le fileScores
      ∧ StronglySorted score_le srcItemScores
      ∧ let kept := filterScores fileScores srcItemScores
                      (Z.of_nat (numberTo_size_t maxResultsInt 20)) in
        pick (names (collect h indexes ix term)) kept.1 = Some (file_filename r)
        ∧ pick (paths (collect h indexes ix term)) kept.1 = Some (file_path r)
        ∧ pick (srcItems (collect h indexes ix term)) kept.2
          = Some (source_items r)
        ∧ (more_available r = true
           ↔ (length kept.1 + length kept.2
              < length fileScores + length srcItemScores)%nat).
Proof.
  intros H1 H2 HK Hsort Hnames Hitems. split; [by apply filterScores_spec|].
  destruct (proj2 (searchCode_is_Some sort h indexes ix term maxResultsInt Hsort)
              (conj Hnames Hitems)) as [r Hr].
  exists r. unfold searchCode in Hr.
  destruct (rank_merge _ _ _ _ _ Hr) as (fileScores & srcItemScores & Hph & Hkept).
  exists fileScores, srcItemScores.
  split; [done|]. split; [done|].
  assert (StronglySorted score_le fileScores ∧ StronglySorted score_le srcItemScores)
    as [Hs1 Hs2].
  { unfold scorePhase in Hph.
    destruct (scoreCandidates (names _) term true 0) as [fs0|]; simpl in Hph; [|done].
    destruct (scoreCandidates (si_name <$> _) term false 0) as [ss0|];
      simpl in Hph; [|done].
    injection Hph as <- <-.
    split; (eapply StronglySorted_impl; [|apply Hsort]);
      intros x y; by rewrite comparator_score_le. }
  split; [done|]. split; [done|]. exact Hkept.
Qed.

(** Scores 1, 3 and 2 under a cap of 2; one file and one symbol under a cap
    of 1. *)
Lemma filterScores_keeps_the_K_smallest_witness :
  (∃ c1 c2 : nat,
     filterScores [(0, 1); (1, 3)] [(0, 2)] 2
     = (take c1 [(0, 1); (1, 3)], take c2 [(0, 2)])
     ∧ (c1 ≤ 2)%nat ∧ (c2 ≤ 1)%nat
     ∧ Z.of_nat (c1 + c2) = 2
     ∧ ∀ a b, a ∈ take c1 [(0, 1); (1, 3)] ++ take c2 [(0, 2)] →
              b ∈ drop c1 [(0, 1); (1, 3)] ++ drop c2 [(0, 2)] → a.2 ≤ b.2)
  ∧ ∃ r fileScores srcItemScores,
      searchCode stableSort unmonitoredHost [liveDoc "/p/ab.R" "abd"]
        empty_index "ab" 1 = Some r
      ∧ scorePhase stableSort
          (collect unmonitoredHost [liveDoc "/p/ab.R" "abd"] empty_index "ab") "ab"
        = Some (fileScores, srcItemScores)
      ∧ StronglySorted score_le fileScores
      ∧ StronglySorted score_le srcItemScores
      ∧ let kept := filterScores fileScores srcItemScores
                      (Z.of_nat (numberTo_size_t 1 20)) in
        pick (names (collect unmonitoredHost [liveDoc "/p/ab.R" "abd"]
                       empty_index "ab")) kept.1 = Some (file_filename r)
        ∧ pick (paths (collect unmonitoredHost [liveDoc "/p/ab.R" "abd"]
                         empty_index "ab")) kept.1 = Some (file_path r)
        ∧ pick (srcItems (collect unmonitoredHost [liveDoc "/p/ab.R" "abd"]
                            empty_index "ab")) kept.2
          = Some (source_items r)
        ∧ (more_available r = true
           ↔ (length kept.1 + length kept.2
              < length fileScores + length srcItemScores)%nat).
Proof.
  apply (filterScores_keeps_the_K_smallest [(0, 1); (1, 3)] [(0, 2)] 2
           stableSort unmonitoredHost [liveDoc "/p/ab.R" "abd"] empty_index "ab" 1).
  - repeat constructor; unfold score_le; simpl; lia.
  - repeat constructor.
  - simpl. lia.
  - apply stableSort_contract.
  - apply (bool_decide_unpack _). vm_compute. reflexivity.
  - apply (bool_decide_unpack _). vm_compute. reflexivity.
Defined.

(* ===================================================================== *)
(** ** After the file monitor is disabled *)
(* ===================================================================== *)

(** C8, as amended.  Disabling tree monitoring leaves the project index with
    no entry, no queued event and the indexing flag down.  From then on the
    project index gives a query no file and no symbol: the file search
    returns what the open documents give (nothing while a file monitor is
    still reported), the merged symbol search exactly what the live documents
    in scope give, and the candidates of [searchCode] are those files, those
    symbols and the C++ definitions.  The response holds only such
    candidates, none more often than collected, and is empty when there are
    none. *)
Theorem disabling_monitoring_empties_the_project_index
    (sort : list ScorePair → list ScorePair) (h : Host)
    (indexes : list RSourceIndex) (ix : SourceFileIndex) (term : string)
    (maxResults : nat) (prefixOnly : bool) (excludeContexts : gset string)
    (maxResultsInt : Z) :
  std_sort_contract sort →
  Forall (λ name, is_Some (scoreMatch name term true))
         (names (collect h indexes (onFileMonitorDisabled ix) term)) →
  Forall (λ it, is_Some (scoreMatch (si_name it) term false))
         (srcItems (collect h indexes (onFileMonitorDisabled ix) term)) →
  let ix' := onFileMonitorDisabled ix in
  let live := liveIndexes h indexes in
  let docs := filter (λ idx, documentMatches h term idx = true) indexes in
  let c := collect h indexes ix' term in
  ix' = mkIndex [] false []
  ∧ Index.searchFiles h ix' term maxResults prefixOnly [] [] = ([], [], false)
  ∧ Index.searchSource h ix' term maxResults prefixOnly excludeContexts [] = []
  ∧ Query.searchFiles h indexes ix' term maxResults [] []
    = (if hasFileMonitor h then ([], [], false)
       else searchSourceDatabaseFiles h indexes term maxResults [] [])
  ∧ Query.searchSource h indexes ix' term maxResults prefixOnly []
    = (take maxResults (allMatches h term prefixOnly live), false)
  ∧ names c
    = (if hasFileMonitor h then []
       else take 100 (fp_filename h ∘ resolveAliasedPath h ∘ context <$> docs))
  ∧ paths c = (if hasFileMonitor h then [] else take 100 (context <$> docs))
  ∧ srcItems c
    = (fromRSourceItem <$> take 100 (allMatches h term false live))
      ++ (fromCppDefinition h <$> searchDefinitions h term)
  ∧ ∃ r, searchCode sort h indexes ix' term maxResultsInt = Some r
         ∧ zip (file_filename r) (file_path r) ⊆+ zip (names c) (paths c)
         ∧ source_items r ⊆+ srcItems c
         ∧ (names c = [] → srcItems c = [] → r = mkResponse [] [] [] false).
Proof.
  intros Hsort Hnames Hitems ix' live docs c.
  destruct (proj2 (searchCode_is_Some sort h indexes ix' term maxResultsInt Hsort)
              (conj Hnames Hitems)) as [r Hr].
  assert (Query.searchSource h indexes ix' term maxResults prefixOnly []
          = (take maxResults (allMatches h term prefixOnly live), false)) as Hss.
  { rewrite searchSource_merged. by rewrite app_nil_r. }
  assert (names c
          = (if hasFileMonitor h then []
             else take 100 (fp_filename h ∘ resolveAliasedPath h ∘ context <$> docs))
          ∧ paths c = (if hasFileMonitor h then [] else take 100 (context <$> docs))
          ∧ srcItems c
            = (fromRSourceItem <$> take 100 (allMatches h term false live))
              ++ (fromCppDefinition h <$> searchDefinitions h term))
    as (Hn & Hp & Hs).
  { unfold c, collect, Query.searchFiles.
    rewrite searchSource_merged, app_nil_r. fold live.
    destruct (hasFileMonitor h); [done|].
    unfold searchSourceDatabaseFiles.
    rewrite searchSourceDatabaseFiles_loop_closed_form by (simpl; lia). done. }
  split; [done|]. split; [done|]. split; [done|].
  split; [unfold Query.searchFiles; by destruct (hasFileMonitor h)|].
  split; [done|]. split; [done|]. split; [done|]. split; [done|].
  exists r. split; [done|].
  unfold searchCode in Hr. fold ix' c in Hr.
  pose proof Hr as (fs0 & ss0 & c1 & c2 & Hf & Hsc & Hpn & Hpp & Hps & _)%rank_inv.
  destruct (collect_bounds sort h indexes ix' term maxResultsInt Hsort)
    as (_ & Hlen & _). fold c in Hlen.
  assert (zip (file_filename r) (file_path r) ⊆+ zip (names c) (paths c)) as Hz.
  { apply (kept_candidates_submseteq sort term true (names c) _ fs0 c1);
      [done| |done|by apply pick_zip].
    rewrite length_zip_with. lia. }
  assert (source_items r ⊆+ srcItems c) as Hsi.
  { apply (kept_candidates_submseteq sort term false (si_name <$> srcItems c)
             _ ss0 c2); [done| |done|done].
    by rewrite length_fmap. }
  split; [done|]. split; [done|].
  intros En Es. rewrite En in Hz, Hlen. rewrite Es in Hsi.
  destruct (paths c); [|done]. simpl in Hz.
  apply submseteq_nil_r in Hsi.
  apply length_mapM in Hpn, Hpp.
  destruct r as [nf pf sf more]. simpl in *. subst sf.
  assert (nf = [] ∧ pf = []) as [-> ->].
  { apply submseteq_nil_r in Hz.
    destruct nf, pf; simpl in *; try done; lia. }
  f_equal.
  revert Hr. unfold rank, scorePhase. rewrite En, Es. simpl.
  destruct (Hsort []) as [->%Permutation_nil_r _].
  rewrite filterScores_nil. simpl. by intros [= <-].
Qed.

(** The index of "/p/ab.R" after the monitor was disabled, with the file
    still open in the editor. *)
Lemma disabling_monitoring_empties_the_project_index_witness :
  let ix' := onFileMonitorDisabled oneRFile in
  let indexes := [liveDoc "/p/ab.R" "abd"] in
  let live := liveIndexes unmonitoredHost indexes in
  let docs := filter (λ idx, documentMatches unmonitoredHost "ab" idx = true) indexes in
  let c := collect unmonitoredHost indexes ix' "ab" in
  ix' = mkIndex [] false []
  ∧ Index.searchFiles unmonitoredHost ix' "ab" 20 false [] [] = ([], [], false)
  ∧ Index.searchSource unmonitoredHost ix' "ab" 20 false ∅ [] = []
  ∧ Query.searchFiles unmonitoredHost indexes ix' "ab" 20 [] []
    = (if hasFileMonitor unmonitoredHost then ([], [], false)
       else searchSourceDatabaseFiles unmonitoredHost indexes "ab" 20 [] [])
  ∧ Query.searchSource unmonitoredHost indexes ix' "ab" 20 false []
    = (take 20 (allMatches unmonitoredHost "ab" false live), false)
  ∧ names c
    = (if hasFileMonitor unmonitoredHost then []
       else take 100 (fp_filename unmonitoredHost
                      ∘ resolveAliasedPath unmonitoredHost ∘ context <$> docs))
  ∧ paths c
    = (if hasFileMonitor unmonitoredHost then [] else take 100 (context <$> docs))
  ∧ srcItems c
    = (fromRSourceItem <$> take 100 (allMatches unmonitoredHost "ab" false live))
      ++ (fromCppDefinition unmonitoredHost <$> searchDefinitions unmonitoredHost "ab")
  ∧ ∃ r, searchCode stableSort unmonitoredHost indexes ix' "ab" 20 = Some r
         ∧ zip (file_filename r) (file_path r) ⊆+ zip (names c) (paths c)
         ∧ source_items r ⊆+ srcItems c
         ∧ (names c = [] → srcItems c = [] → r = mkResponse [] [] [] false).
Proof.
  apply (disabling_monitoring_empties_the_project_index stableSort unmonitoredHost
           [liveDoc "/p/ab.R" "abd"] oneRFile "ab" 20 false ∅ 20).
  - apply stableSort_contract.
  - apply (bool_decide_unpack _). vm_compute. reflexivity.
  - apply (bool_decide_unpack _). vm_compute. reflexivity.
Defined.
